(** * A shallow embedding of the crafting rules engine

    The engine consists of three TypeScript modules:
    - [itemUtils.ts]: the item model and its mutators,
    - [actionSystem.ts]: [ConditionEvaluator], [ActionExecutor] and
      [ActionRegistryManager],
    - [guideSystem.ts]: [GuideExecutor] and [GuideManager].

    Conventions of the embedding.
    - JavaScript values of type [any] are trees of type [JsVal].  Numbers
      stored in items and conditions are integers ([JNum]) or NaN
      ([JNaN]); a numeric cast that yields NaN is [None].  Outcome weights
      and random draws are rationals ([Q]).
    - An object literal used as a table ([actions], [guides],
      [properties], [customEvaluators], [customHandlers]) inherits the
      members of [Object.prototype], and [table[key]] finds them.  Where
      what the code does with such a member can be expressed, the lookup
      is [member] (the registry, [getGuide], [deleteGuide]) and the [in]
      test uses [inherited] ([hasProperty]).  The other lookups
      ([lookup_named], [updateGuide], the step editing and the execution
      operations of [GuideManager], the path steps of [getNestedValue])
      describe the code for names that are not inherited, and properties
      that speak of an absent name there say so.  Assigning to the key
      ['__proto__'] of a table sets its prototype and stores no entry: the
      insertions of the model describe the code for every other key.
    - [uuidv4()], [Math.random()] and [new Date()] read the [World] that
      every effectful operation threads; a [throw] is the [Throw] result. *)

From Stdlib Require Import Ascii String QArith Qround.
From stdpp Require Import gmap strings list fin_maps pretty.

Set Warnings "-register-all".

Open Scope string_scope.
Open Scope Z_scope.

(** ** Dynamic values *)

Inductive JsVal : Type :=
  | JUndef
  | JNull
  | JBool (b : bool)
  | JNum (n : Z)
  | JNaN
  | JStr (s : string)
  | JArr (l : list JsVal)
  | JObj (l : list (string * JsVal)).

(** [Array.prototype.join] on already-stringified elements. *)
Fixpoint join (sep : string) (l : list string) : string :=
  match l with
  | [] => ""
  | [x] => x
  | x :: rest => x +:+ sep +:+ join sep rest
  end.

(** [String(v)]. Inside an array, [null] and [undefined] print as the empty
    string ([elem_str] below). *)
Fixpoint to_string (v : JsVal) : string :=
  match v with
  | JUndef => "undefined"
  | JNull => "null"
  | JBool true => "true"
  | JBool false => "false"
  | JNum n => pretty n
  | JNaN => "NaN"
  | JStr s => s
  | JArr l =>
      join "," (map (fun e => match e with
                              | JUndef | JNull => ""
                              | _ => to_string e
                              end) l)
  | JObj _ => "[object Object]"
  end.

(** The string an array element contributes to [join]. *)
Definition elem_str (e : JsVal) : string :=
  match e with
  | JUndef | JNull => ""
  | _ => to_string e
  end.

(** *** Numeric cast *)

Definition digit_of (c : ascii) : option Z :=
  let n := Z.of_nat (nat_of_ascii c) in
  if (48 <=? n) && (n <=? 57) then Some (n - 48) else None.

Fixpoint parse_digits (acc : Z) (s : string) : option Z :=
  match s with
  | EmptyString => Some acc
  | String c rest =>
      match digit_of c with
      | Some d => parse_digits (10 * acc + d) rest
      | None => None
      end
  end.

Definition is_space (c : ascii) : bool :=
  let n := nat_of_ascii c in
  (n =? 32)%nat || (n =? 9)%nat || (n =? 10)%nat || (n =? 13)%nat.

Fixpoint trim_left (s : string) : string :=
  match s with
  | String c rest => if is_space c then trim_left rest else s
  | EmptyString => EmptyString
  end.

Definition trim (s : string) : string :=
  String.rev (trim_left (String.rev (trim_left s))).

(** [Number(s)] for a string: surrounding white space is dropped, the empty
    string is 0, an optionally signed run of decimal digits is that integer,
    anything else is NaN.  The numbers of the model are the integers: a
    string that denotes a fraction (['1.10']), or a number in exponent, hexadecimal,
    octal or binary notation, or an infinity, is outside the model and reads
    as NaN here. *)
Definition string_to_number (s : string) : option Z :=
  match trim s with
  | EmptyString => Some 0
  | String "-" (String c r) => Z.opp <$> parse_digits 0 (String c r)
  | String "+" (String c r) => parse_digits 0 (String c r)
  | t => parse_digits 0 t
  end.

(** [Number(v)]; [None] is NaN. *)
Definition to_number (v : JsVal) : option Z :=
  match v with
  | JUndef => None
  | JNull => Some 0
  | JBool true => Some 1
  | JBool false => Some 0
  | JNum n => Some n
  | JNaN => None
  | JStr s => string_to_number s
  | JArr _ => string_to_number (to_string v)
  | JObj _ => None
  end.

(** JavaScript truthiness. *)
Definition truthy (v : JsVal) : bool :=
  match v with
  | JUndef | JNull | JNaN => false
  | JBool b => b
  | JNum n => negb (n =? 0)
  | JStr s => negb (String.eqb s "")
  | JArr _ | JObj _ => true
  end.

(** *** Equalities *)

(** [a === b].  Primitives compare by type and value.  Arrays and objects
    compare by reference; a value reached inside an item and a value carried
    by a condition are separately allocated, hence never the same
    reference. *)
Definition strict_eq (a b : JsVal) : bool :=
  match a, b with
  | JUndef, JUndef => true
  | JNull, JNull => true
  | JBool x, JBool y => Bool.eqb x y
  | JNum x, JNum y => x =? y
  | JStr x, JStr y => String.eqb x y
  | _, _ => false
  end.

(** [ToPrimitive] for the loose comparison. *)
Definition to_primitive (v : JsVal) : JsVal :=
  match v with
  | JArr _ | JObj _ => JStr (to_string v)
  | _ => v
  end.

Definition num_eq (x y : option Z) : bool :=
  match x, y with
  | Some a, Some b => a =? b
  | _, _ => false
  end.

(** [a == b] on primitives. *)
Definition loose_eq_prim (a b : JsVal) : bool :=
  match a, b with
  | (JUndef | JNull), (JUndef | JNull) => true
  | (JUndef | JNull), _ | _, (JUndef | JNull) => false
  | JStr x, JStr y => String.eqb x y
  | _, _ => num_eq (to_number a) (to_number b)
  end.

(** The comparison the specification describes: type-coercing [a == b].
    Two distinct references are never loosely equal either; an object
    against a primitive is compared through [ToPrimitive]. *)
Definition loose_eq (a b : JsVal) : bool :=
  match a, b with
  | (JArr _ | JObj _), (JArr _ | JObj _) => false
  | _, _ => loose_eq_prim (to_primitive a) (to_primitive b)
  end.

(** [SameValueZero], the comparison of [Array.prototype.includes]: strict
    equality, except that NaN is equal to NaN. *)
Definition same_value_zero (a b : JsVal) : bool :=
  match a, b with
  | JNaN, JNaN => true
  | _, _ => strict_eq a b
  end.

(** [a >= b] and friends ([IsLessThan]): two strings compare by code units,
    anything else numerically, and a NaN operand makes the comparison
    false. *)
Definition js_rel (cmp_s : string -> string -> bool) (cmp_z : Z -> Z -> bool)
    (a b : JsVal) : bool :=
  match to_primitive a, to_primitive b with
  | JStr x, JStr y => cmp_s x y
  | x, y =>
      match to_number x, to_number y with
      | Some m, Some n => cmp_z m n
      | _, _ => false
      end
  end.

Definition js_ge : JsVal -> JsVal -> bool :=
  js_rel (fun x y => String.leb y x) Z.geb.

(** *** Object literals as tables *)

(** The string-keyed members that every object literal inherits from
    [Object.prototype]. *)
Definition Object_prototype : list string :=
  ["constructor"; "hasOwnProperty"; "isPrototypeOf"; "propertyIsEnumerable";
   "toLocaleString"; "toString"; "valueOf"; "__proto__";
   "__defineGetter__"; "__defineSetter__"; "__lookupGetter__";
   "__lookupSetter__"].

Definition inherited (key : string) : bool :=
  existsb (String.eqb key) Object_prototype.

(** What [table[key]] finds in an object literal used as a table: the entry
    stored under the key; else the member of [Object.prototype] of that
    name, which is a function, or for [__proto__] the prototype itself, in
    either case a truthy value that is no entry and has none of the fields
    of one; else [undefined]. *)
Inductive Member (A : Type) : Type :=
  | Own (a : A)
  | Inherited
  | Missing.
Arguments Own {A} a.
Arguments Inherited {A}.
Arguments Missing {A}.

Definition member {A} (table : gmap string A) (key : string) : Member A :=
  match table !! key with
  | Some a => Own a
  | None => if inherited key then Inherited else Missing
  end.

(** *** Reading a field *)

(** Own-property read [v?.[key]]: [undefined] on [null] and [undefined],
    on a missing key, and on primitives other than strings.  This is what
    the code reads when [key] names no member that the value inherits from
    its prototype chain; an inherited member (a method such as [toString],
    or an accessor) is not a value of the model. *)
Definition index_of_key (key : string) : option nat :=
  match key with
  | EmptyString => None
  | String "0" (String _ _) => None
  | _ => Z.to_nat <$> parse_digits 0 key
  end.

Fixpoint assoc (key : string) (l : list (string * JsVal)) : option JsVal :=
  match l with
  | [] => None
  | (k, v) :: rest => if String.eqb k key then Some v else assoc key rest
  end.

Definition get_field (v : JsVal) (key : string) : JsVal :=
  match v with
  | JObj l => default JUndef (assoc key l)
  | JArr l =>
      if String.eqb key "length" then JNum (Z.of_nat (length l))
      else match index_of_key key with
           | Some i => default JUndef (l !! i)
           | None => JUndef
           end
  | JStr s =>
      if String.eqb key "length" then JNum (Z.of_nat (String.length s))
      else match index_of_key key with
           | Some i => match String.get i s with
                       | Some c => JStr (String c EmptyString)
                       | None => JUndef
                       end
           | None => JUndef
           end
  | _ => JUndef
  end.

(** [String.prototype.includes]. *)
Fixpoint str_includes (needle hay : string) : bool :=
  String.prefix needle hay ||
  match hay with
  | EmptyString => false
  | String _ rest => str_includes needle rest
  end.

(** [String.prototype.split] for a one-character separator. *)
Fixpoint split_on (sep : ascii) (s : string) : list string :=
  match s with
  | EmptyString => [EmptyString]
  | String c rest =>
      if Ascii.eqb c sep then EmptyString :: split_on sep rest
      else match split_on sep rest with
           | [] => [String c EmptyString]
           | hd :: tl => String c hd :: tl
           end
  end.

(** ** The world: identifiers, randomness, time, console *)

Record World : Type := mkWorld {
  next_uuid : nat;          (* number of identifiers [uuidv4] has issued *)
  draws : list Q;           (* the coming results of [Math.random()] *)
  clock : Z;                (* what [new Date()] reads *)
  console : list string     (* lines written by [console.warn], latest first *)
}.

Inductive Res (A : Type) : Type :=
  | Ok (a : A)
  | Throw (msg : string).
Arguments Ok {A} a.
Arguments Throw {A} msg.

(** A computation over a mutable state [S] that returns or throws. *)
Definition ST (S A : Type) : Type := S -> Res A * S.
Abbreviation M := (ST World).

Definition ret {S A} (a : A) : ST S A := fun w => (Ok a, w).
Definition throw {S A} (msg : string) : ST S A := fun w => (Throw msg, w).
Definition bind {S A B} (m : ST S A) (k : A -> ST S B) : ST S B :=
  fun w => match m w with
           | (Ok a, w') => k a w'
           | (Throw e, w') => (Throw e, w')
           end.
(** [try { m } catch (error) { h error.message }] *)
Definition try_catch {S A} (m : ST S A) (h : string -> ST S A) : ST S A :=
  fun w => match m w with
           | (Ok a, w') => (Ok a, w')
           | (Throw e, w') => h e w'
           end.

Declare Scope m_scope.
Delimit Scope m_scope with M.
Notation "x <- m ;; k" := (bind m (fun x => k))
  (at level 100, m at next level, right associativity) : m_scope.
Notation "m ;;; k" := (bind m (fun _ => k))
  (at level 100, right associativity) : m_scope.
Open Scope m_scope.

(** The identifier issued as the [n]-th one. *)
Definition uuid_of (n : nat) : string := "uuid-" +:+ pretty n.

Definition uuidv4 : M string :=
  fun w => (Ok (uuid_of (next_uuid w)),
            mkWorld (S (next_uuid w)) (draws w) (clock w) (console w)).

(** [Math.random()]: the next draw; a run that outlives the supplied draws
    reads 0. *)
Definition math_random : M Q :=
  fun w => match draws w with
           | [] => (Ok 0%Q, w)
           | r :: rest => (Ok r, mkWorld (next_uuid w) rest (clock w) (console w))
           end.

Definition new_Date : M Z := fun w => (Ok (clock w), w).

Definition console_warn (line : string) : M unit :=
  fun w => (Ok tt, mkWorld (next_uuid w) (draws w) (clock w) (line :: console w)).

(** A computation that reads and writes no state: it returns or throws. *)
Definition rbind {A B} (r : Res A) (k : A -> Res B) : Res B :=
  match r with
  | Ok a => k a
  | Throw e => Throw e
  end.
Notation "x <~ r ;; k" := (rbind r (fun x => k))
  (at level 100, r at next level, right associativity) : m_scope.

Definition liftR {S A} (r : Res A) : ST S A := fun s => (r, s).

(** [l.every(f)], [l.some(f)] and [l.filter(f)] for a callback that may
    throw: elements are visited in order; [every] and [some] stop at the
    first decisive answer. *)
Definition every {A} (f : A -> Res bool) : list A -> Res bool :=
  fix go l :=
    match l with
    | [] => Ok true
    | x :: rest => b <~ f x ;; if b then go rest else Ok false
    end.

Definition some {A} (f : A -> Res bool) : list A -> Res bool :=
  fix go l :=
    match l with
    | [] => Ok false
    | x :: rest => b <~ f x ;; if b then Ok true else go rest
    end.

Definition filterR {A} (f : A -> Res bool) : list A -> Res (list A) :=
  fix go l :=
    match l with
    | [] => Ok []
    | x :: rest => b <~ f x ;; tl <~ go rest ;; Ok (if b then x :: tl else tl)
    end.

(** [l.map(f)] for a callback with effects. *)
Definition mapM {S A B} (f : A -> ST S B) : list A -> ST S (list B) :=
  fix go l :=
    match l with
    | [] => ret []
    | x :: rest => y <- f x ;; ys <- go rest ;; ret (y :: ys)
    end.

(** ** The item model ([types/core], [itemUtils.ts]) *)

Inductive Rarity := Normal | Magic | Rare | Unique.
Inductive ModType := Prefix | Suffix | Implicit | Enchant | Corrupted.
Inductive PropType := TString | TNumber | TBoolean | TArray | TObject.

Definition rarity_str (r : Rarity) : string :=
  match r with
  | Normal => "normal" | Magic => "magic" | Rare => "rare" | Unique => "unique"
  end.

Definition modtype_str (t : ModType) : string :=
  match t with
  | Prefix => "prefix" | Suffix => "suffix" | Implicit => "implicit"
  | Enchant => "enchant" | Corrupted => "corrupted"
  end.

Definition proptype_str (t : PropType) : string :=
  match t with
  | TString => "string" | TNumber => "number" | TBoolean => "boolean"
  | TArray => "array" | TObject => "object"
  end.

(** The interfaces [ItemProperty], [ItemModifier], [ItemSocket] and [Item]
    of [types/core].  Fields into which the code stores a value of type
    [any] ([tier], [color], [links]) hold a [JsVal], which is wider than the
    declared type; a modifier's name is the [target] of the change that made
    it, which may be absent. *)
Record ItemProperty : Type := mkProperty {
  prop_id : string;
  prop_name : string;
  prop_value : JsVal;
  prop_type : PropType
}.

Record ItemModifier : Type := mkModifier {
  mod_id : string;
  mod_name : option string;
  mod_tier : JsVal;
  mod_values : JsVal;
  mod_type : ModType;
  mod_tags : list string
}.

Record ItemSocket : Type := mkSocket {
  sock_id : string;
  sock_color : JsVal;
  sock_links : list JsVal
}.

Record Item : Type := mkItem {
  item_id : string;
  item_name : string;
  baseType : string;
  itemLevel : Z;
  quality : Z;
  isCorrupted : bool;
  isIdentified : bool;
  rarity : Rarity;
  properties : gmap string ItemProperty;
  modifiers : list ItemModifier;
  sockets : list ItemSocket;
  customData : JsVal;
  tags : list string
}.

Definition opt_str (o : option string) : JsVal :=
  match o with Some s => JStr s | None => JUndef end.

(** The object a record denotes, for dynamic reads by key. *)
Definition property_to_js (p : ItemProperty) : JsVal :=
  JObj [("id", JStr (prop_id p)); ("name", JStr (prop_name p));
        ("value", prop_value p); ("type", JStr (proptype_str (prop_type p)))].

Definition modifier_to_js (m : ItemModifier) : JsVal :=
  JObj [("id", JStr (mod_id m)); ("name", opt_str (mod_name m));
        ("tier", mod_tier m); ("values", mod_values m);
        ("type", JStr (modtype_str (mod_type m)));
        ("tags", JArr (map JStr (mod_tags m)))].

Definition socket_to_js (s : ItemSocket) : JsVal :=
  JObj [("id", JStr (sock_id s)); ("color", sock_color s);
        ("links", JArr (sock_links s))].

Definition item_to_js (i : Item) : JsVal :=
  JObj [("id", JStr (item_id i)); ("name", JStr (item_name i));
        ("baseType", JStr (baseType i)); ("itemLevel", JNum (itemLevel i));
        ("quality", JNum (quality i)); ("isCorrupted", JBool (isCorrupted i));
        ("isIdentified", JBool (isIdentified i));
        ("rarity", JStr (rarity_str (rarity i)));
        ("properties",
          JObj (map (fun kv => (kv.1, property_to_js kv.2))
                    (map_to_list (properties i))));
        ("modifiers", JArr (map modifier_to_js (modifiers i)));
        ("sockets", JArr (map socket_to_js (sockets i)));
        ("customData", customData i);
        ("tags", JArr (map JStr (tags i)))].

(** *** Factories *)

Definition createEmptyItem (base : string) (name : option string) : M Item :=
  id <- uuidv4 ;;
  ret (mkItem id (default "Unknown Item" name) base 1 0 false true Normal
              ∅ [] [] (JObj []) []).

Definition createProperty (name : string) (value : JsVal) (type : option PropType)
    : M ItemProperty :=
  id <- uuidv4 ;;
  ret (mkProperty id name value (default TString type)).

(** [createModifier(name, tier = 1, type = 'prefix', values = {}, tags = [])];
    a default applies when the argument is [undefined]. *)
Definition createModifier (name : option string) (tier : JsVal)
    (type : option ModType) : M ItemModifier :=
  id <- uuidv4 ;;
  ret (mkModifier id name
                  (match tier with JUndef => JNum 1 | _ => tier end)
                  (JObj []) (default Prefix type) []).

(** [createSocket(color = 'white', links = [])] *)
Definition createSocket (color : JsVal) : M ItemSocket :=
  id <- uuidv4 ;;
  ret (mkSocket id (match color with JUndef => JStr "white" | _ => color end) []).

(** *** Field updates of an [immer] draft *)

Definition set_id (v : string) (i : Item) : Item :=
  mkItem v (item_name i) (baseType i) (itemLevel i) (quality i)
         (isCorrupted i) (isIdentified i) (rarity i) (properties i)
         (modifiers i) (sockets i) (customData i) (tags i).

Definition set_properties (v : gmap string ItemProperty) (i : Item) : Item :=
  mkItem (item_id i) (item_name i) (baseType i) (itemLevel i) (quality i)
         (isCorrupted i) (isIdentified i) (rarity i) v
         (modifiers i) (sockets i) (customData i) (tags i).

Definition set_modifiers (v : list ItemModifier) (i : Item) : Item :=
  mkItem (item_id i) (item_name i) (baseType i) (itemLevel i) (quality i)
         (isCorrupted i) (isIdentified i) (rarity i) (properties i)
         v (sockets i) (customData i) (tags i).

Definition set_sockets (v : list ItemSocket) (i : Item) : Item :=
  mkItem (item_id i) (item_name i) (baseType i) (itemLevel i) (quality i)
         (isCorrupted i) (isIdentified i) (rarity i) (properties i)
         (modifiers i) v (customData i) (tags i).

Definition set_isCorrupted (v : bool) (i : Item) : Item :=
  mkItem (item_id i) (item_name i) (baseType i) (itemLevel i) (quality i)
         v (isIdentified i) (rarity i) (properties i)
         (modifiers i) (sockets i) (customData i) (tags i).

Definition set_rarity (v : Rarity) (i : Item) : Item :=
  mkItem (item_id i) (item_name i) (baseType i) (itemLevel i) (quality i)
         (isCorrupted i) (isIdentified i) v (properties i)
         (modifiers i) (sockets i) (customData i) (tags i).

Definition set_quality (v : Z) (i : Item) : Item :=
  mkItem (item_id i) (item_name i) (baseType i) (itemLevel i) v
         (isCorrupted i) (isIdentified i) (rarity i) (properties i)
         (modifiers i) (sockets i) (customData i) (tags i).

Definition set_prop_value (v : JsVal) (p : ItemProperty) : ItemProperty :=
  mkProperty (prop_id p) (prop_name p) v (prop_type p).

Definition set_links (v : list JsVal) (s : ItemSocket) : ItemSocket :=
  mkSocket (sock_id s) (sock_color s) v.

Definition set_tier (v : JsVal) (m : ItemModifier) : ItemModifier :=
  mkModifier (mod_id m) (mod_name m) v (mod_values m) (mod_type m) (mod_tags m).

(** *** Mutators: each returns a new item value *)

Definition addProperty (item : Item) (name : string) (value : JsVal)
    (type : option PropType) : M Item :=
  property <- createProperty name value type ;;
  ret (set_properties (<[name := property]> (properties item)) item).

Definition updateProperty (item : Item) (name : string) (value : JsVal) : Item :=
  match properties item !! name with
  | Some p => set_properties (<[name := set_prop_value value p]> (properties item)) item
  | None => item
  end.

Definition removeProperty (item : Item) (name : string) : Item :=
  set_properties (delete name (properties item)) item.

Definition addModifier (item : Item) (modifier : ItemModifier) : Item :=
  set_modifiers (modifiers item ++ [modifier]) item.

Definition removeModifier (item : Item) (modifierId : string) : Item :=
  set_modifiers
    (List.filter (fun m => negb (String.eqb (mod_id m) modifierId)) (modifiers item))
    item.

Definition addSocket (item : Item) (socket : ItemSocket) : Item :=
  set_sockets (sockets item ++ [socket]) item.

Definition removeSocket (item : Item) (socketId : string) : Item :=
  set_sockets
    (List.filter (fun s => negb (String.eqb (sock_id s) socketId)) (sockets item))
    item.

(** One socket of [linkSockets]: [socketIds.includes(socket.id)] and
    [socketIds.filter(id => id !== socket.id)].  [socketIds] is declared a
    string array, but arrives from the [any]-typed value of a change: on a
    string, [includes] is the substring test and [filter] does not exist; on
    anything else that is not an array, [includes] does not exist. *)
Definition relink (socketIds : JsVal) (s : ItemSocket) : M ItemSocket :=
  match socketIds with
  | JArr ids =>
      if existsb (same_value_zero (JStr (sock_id s))) ids
      then ret (set_links
                  (List.filter (fun x => negb (strict_eq x (JStr (sock_id s)))) ids) s)
      else ret s
  | JStr str =>
      if str_includes (sock_id s) str
      then throw "socketIds.filter is not a function"
      else ret s
  | JUndef | JNull =>
      throw "Cannot read properties of undefined (reading 'includes')"
  | _ => throw "socketIds.includes is not a function"
  end.

Definition linkSockets (item : Item) (socketIds : JsVal) : M Item :=
  ss <- mapM (relink socketIds) (sockets item) ;;
  ret (set_sockets ss item).

Definition corruptItem (item : Item) : Item := set_isCorrupted true item.

(** *** Queries *)

(** [propertyName in item.properties]; the key is the string form of the
    operand, and [in] also finds the names that [item.properties] inherits
    from [Object.prototype]. *)
Definition hasProperty (item : Item) (propertyName : JsVal) : bool :=
  bool_decide (is_Some (properties item !! to_string propertyName))
  || inherited (to_string propertyName).

(** [item.properties[propertyName]?.value]; an absent name reads the key
    ["undefined"]. *)
Definition getPropertyValue (item : Item) (propertyName : option string) : JsVal :=
  match properties item !! default "undefined" propertyName with
  | Some p => prop_value p
  | None => JUndef
  end.

Definition hasModifier (item : Item) (modifierName : JsVal) : bool :=
  existsb (fun m => strict_eq (opt_str (mod_name m)) modifierName) (modifiers item).

Definition getModifier (item : Item) (modifierName : option string)
    : option ItemModifier :=
  List.find (fun m => strict_eq (opt_str (mod_name m)) (opt_str modifierName))
            (modifiers item).

Definition is_modtype (t : ModType) (m : ItemModifier) : bool :=
  String.eqb (modtype_str (mod_type m)) (modtype_str t).

Definition getModifiersByType (item : Item) (t : ModType) : list ItemModifier :=
  List.filter (is_modtype t) (modifiers item).

Definition getPrefixCount (item : Item) : Z :=
  Z.of_nat (length (List.filter (is_modtype Prefix) (modifiers item))).

Definition getSuffixCount (item : Item) : Z :=
  Z.of_nat (length (List.filter (is_modtype Suffix) (modifiers item))).

Definition getMaxModifiers (item : Item) : Z * Z :=
  match rarity item with
  | Normal => (0, 0)
  | Magic => (1, 1)
  | Rare => (3, 3)
  | Unique => (6, 6)
  end.

(** *** Validation *)

(** [names.indexOf(x)], by strict equality; [None] is -1. *)
Fixpoint index_of (x : JsVal) (l : list JsVal) : option nat :=
  match l with
  | [] => None
  | y :: rest => if strict_eq y x then Some 0%nat else S <$> index_of x rest
  end.

(** [names.filter((name, index) => names.indexOf(name) !== index)] *)
Definition duplicates (names : list JsVal) : list JsVal :=
  map snd
    (List.filter (fun ix => negb (bool_decide (index_of ix.2 names = Some ix.1)))
                 (imap (fun i x => (i, x)) names)).

Definition link_errors (all : list ItemSocket) (socket : ItemSocket) : list string :=
  flat_map
    (fun linkedId =>
       match List.find (fun s => strict_eq (JStr (sock_id s)) linkedId) all with
       | None =>
           ["Socket " +:+ sock_id socket +:+ " linked to non-existent socket "
              +:+ to_string linkedId]
       | Some linkedSocket =>
           if existsb (same_value_zero (JStr (sock_id socket))) (sock_links linkedSocket)
           then []
           else ["Socket link is not bidirectional: " +:+ sock_id socket +:+ " -> "
                   +:+ to_string linkedId]
       end)
    (sock_links socket).

(** The [errors] of [validateItem]; [isValid] is [errors.length === 0]. *)
Definition validateItem (item : Item) : list string :=
  let maxMods := getMaxModifiers item in
  let prefixCount := getPrefixCount item in
  let suffixCount := getSuffixCount item in
  (if maxMods.1 <? prefixCount
   then ["Too many prefix modifiers: " +:+ pretty prefixCount +:+ "/" +:+ pretty maxMods.1]
   else []) ++
  (if maxMods.2 <? suffixCount
   then ["Too many suffix modifiers: " +:+ pretty suffixCount +:+ "/" +:+ pretty maxMods.2]
   else []) ++
  (let dups := duplicates (map (fun m => opt_str (mod_name m)) (modifiers item)) in
   match dups with
   | [] => []
   | _ => ["Duplicate modifiers: " +:+ join ", " (map elem_str dups)]
   end) ++
  flat_map (link_errors (sockets item)) (sockets item).

Definition isValid (errors : list string) : bool :=
  match errors with [] => true | _ => false end.

(** *** JSON *)

(** What [JSON.parse(JSON.stringify(v))] reads back for a value [v] nested
    in an array or an object: [undefined] and NaN become [null], and a member
    whose value is [undefined] is dropped. *)
Fixpoint json_value (v : JsVal) : JsVal :=
  match v with
  | JUndef | JNaN => JNull
  | JArr l => JArr (map json_value l)
  | JObj l =>
      JObj ((fix members (l : list (string * JsVal)) : list (string * JsVal) :=
               match l with
               | [] => []
               | (_, JUndef) :: rest => members rest
               | (k, x) :: rest => (k, json_value x) :: members rest
               end) l)
  | _ => v
  end.

(** The same for the value of a record field: a field that is [undefined]
    is left out of the text and reads [undefined] again. *)
Definition json_field (v : JsVal) : JsVal :=
  match v with
  | JUndef => JUndef
  | _ => json_value v
  end.

(** The text of a JSON document is modelled by the value that [JSON.parse]
    reads from it; texts that do not denote a value of the expected record
    type are outside the model. *)
Record Json (A : Type) : Type := JsonText { JSON_parse : A }.
Arguments JsonText {A} _.
Arguments JSON_parse {A} _.

Definition json_property (p : ItemProperty) : ItemProperty :=
  set_prop_value (json_field (prop_value p)) p.

Definition json_modifier (m : ItemModifier) : ItemModifier :=
  mkModifier (mod_id m) (mod_name m) (json_field (mod_tier m))
             (json_field (mod_values m)) (mod_type m) (mod_tags m).

Definition json_socket (s : ItemSocket) : ItemSocket :=
  mkSocket (sock_id s) (json_field (sock_color s)) (map json_value (sock_links s)).

Definition json_item (i : Item) : Item :=
  mkItem (item_id i) (item_name i) (baseType i) (itemLevel i) (quality i)
         (isCorrupted i) (isIdentified i) (rarity i)
         (json_property <$> properties i)
         (map json_modifier (modifiers i))
         (map json_socket (sockets i))
         (json_field (customData i)) (tags i).

(** *** Cloning, export, import *)

Definition cloneItem (item : Item) : M Item :=
  id <- uuidv4 ;;
  ret (set_id id item).

Definition exportItem (item : Item) : Json Item := JsonText (json_item item).

Definition importItem (itemJson : Json Item) : M Item :=
  let imported := JSON_parse itemJson in
  let errors := validateItem imported in
  if negb (isValid errors)
  then throw ("Invalid item: " +:+ join ", " errors)
  else ret imported.

(** ** Conditions ([actionSystem.ts], [ConditionEvaluator]) *)

Inductive Operator : Type :=
  | OpEquals | OpNotEquals | OpGreaterThan | OpLessThan | OpContains
  | OpHasModifier | OpHasProperty | OpAnd | OpOr | OpNot
  | OpOther (name : string).   (* any operator string outside the closed set *)

Definition operator_str (op : Operator) : string :=
  match op with
  | OpEquals => "equals" | OpNotEquals => "notEquals"
  | OpGreaterThan => "greaterThan" | OpLessThan => "lessThan"
  | OpContains => "contains" | OpHasModifier => "hasModifier"
  | OpHasProperty => "hasProperty" | OpAnd => "and" | OpOr => "or"
  | OpNot => "not" | OpOther name => name
  end.

(** The interface [Condition] of [types/core]; the optional [value] is a
    [JsVal], with [JUndef] for an absent one. *)
Inductive Condition : Type :=
  mkCondition (id : string) (type : string) (operator : Operator)
              (target : option string) (value : JsVal)
              (conditions : option (list Condition))
              (customEvaluator : option string).

Definition cond_operator (c : Condition) : Operator :=
  match c with mkCondition _ _ op _ _ _ _ => op end.
Definition cond_target (c : Condition) : option string :=
  match c with mkCondition _ _ _ t _ _ _ => t end.
Definition cond_value (c : Condition) : JsVal :=
  match c with mkCondition _ _ _ _ v _ _ => v end.
Definition cond_conditions (c : Condition) : option (list Condition) :=
  match c with mkCondition _ _ _ _ _ cs _ => cs end.
Definition cond_customEvaluator (c : Condition) : option string :=
  match c with mkCondition _ _ _ _ _ _ e => e end.

(** [path.reduce((current, key) => current?.[key], obj)] *)
Definition getNestedValue (obj : JsVal) (path : list string) : JsVal :=
  fold_left get_field path obj.

Definition getTargetValue (target : string) (item : Item) : JsVal :=
  let parts := split_on "." target in
  match parts with
  | "item" :: rest => getNestedValue (item_to_js item) rest
  | "property" :: rest => getPropertyValue item (head rest)
  | "modifier" :: rest =>
      let modifier :=
        match getModifier item (head rest) with
        | Some m => modifier_to_js m
        | None => JUndef
        end in
      if (2 <? Z.of_nat (length parts)) then getNestedValue modifier (tail rest)
      else modifier
  | _ => getNestedValue (item_to_js item) parts
  end.

(** [condition.target!] followed by [target.split('.')]: an absent target
    is a [TypeError]. *)
Definition with_target {A} (c : Condition) (k : string -> Res A) : Res A :=
  match cond_target c with
  | Some target => k target
  | None => Throw "Cannot read properties of undefined (reading 'split')"
  end.

Definition evaluateEquals (c : Condition) (item : Item) : Res bool :=
  with_target c (fun target =>
    let value := getTargetValue target item in
    Ok (strict_eq value (cond_value c))).

Definition num_cmp (cmp : Z -> Z -> bool) (a b : JsVal) : bool :=
  match to_number a, to_number b with
  | Some x, Some y => cmp x y
  | _, _ => false
  end.

Definition evaluateGreaterThan (c : Condition) (item : Item) : Res bool :=
  with_target c (fun target =>
    let value := getTargetValue target item in
    Ok (num_cmp Z.gtb value (cond_value c))).

Definition evaluateLessThan (c : Condition) (item : Item) : Res bool :=
  with_target c (fun target =>
    let value := getTargetValue target item in
    Ok (num_cmp Z.ltb value (cond_value c))).

Definition evaluateContains (c : Condition) (item : Item) : Res bool :=
  with_target c (fun target =>
    let value := getTargetValue target item in
    match value with
    | JArr l => Ok (existsb (fun e => same_value_zero e (cond_value c)) l)
    | _ => Ok (str_includes (to_string (cond_value c)) (to_string value))
    end).

Definition evaluateHasModifier (c : Condition) (item : Item) : Res bool :=
  Ok (hasModifier item (cond_value c)).

Definition evaluateHasProperty (c : Condition) (item : Item) : Res bool :=
  Ok (hasProperty item (cond_value c)).

(** A registered evaluator, [(condition, item, context?) => boolean]: a
    predicate that may throw. *)
Definition Evaluator : Type := Condition -> Item -> JsVal -> Res bool.

Record ConditionEvaluator : Type := mkConditionEvaluator {
  customEvaluators : gmap string Evaluator
}.

Fixpoint evaluate (ev : ConditionEvaluator) (c : Condition) (item : Item)
    (context : JsVal) {struct c} : Res bool :=
  match c with
  | mkCondition _ _ op _ _ conds custom =>
      match op with
      | OpEquals => evaluateEquals c item
      | OpNotEquals => b <~ evaluateEquals c item ;; Ok (negb b)
      | OpGreaterThan => evaluateGreaterThan c item
      | OpLessThan => evaluateLessThan c item
      | OpContains => evaluateContains c item
      | OpHasModifier => evaluateHasModifier c item
      | OpHasProperty => evaluateHasProperty c item
      | OpAnd =>
          match conds with
          | None => Ok true
          | Some cs => every (fun c' => evaluate ev c' item context) cs
          end
      | OpOr =>
          match conds with
          | None => Ok false
          | Some cs => some (fun c' => evaluate ev c' item context) cs
          end
      | OpNot =>
          match conds with
          | None | Some [] => Ok true
          | Some (c' :: _) => b <~ evaluate ev c' item context ;; Ok (negb b)
          end
      | OpOther name =>
          match custom ≫= (fun n => if String.eqb n "" then None
                                    else customEvaluators ev !! n) with
          | Some f => f c item context
          | None => Throw ("Unknown condition operator: " +:+ name)
          end
      end
  end.

(** The three evaluators the constructor registers. *)
Definition evaluateCorruptionCheck : Evaluator :=
  fun c item _ => Ok (strict_eq (JBool (isCorrupted item)) (cond_value c)).

Definition evaluateSocketCheck : Evaluator :=
  fun c item _ =>
    let socketCount := JNum (Z.of_nat (length (sockets item))) in
    Ok (js_ge socketCount (cond_value c)).

Definition evaluateModifierTierCheck : Evaluator :=
  fun c item _ =>
    match getModifier item (cond_target c) with
    | Some modifier => Ok (js_ge (mod_tier modifier) (cond_value c))
    | None => Ok false
    end.

Definition registerEvaluator (name : string) (f : Evaluator)
    (ev : ConditionEvaluator) : ConditionEvaluator :=
  mkConditionEvaluator (<[name := f]> (customEvaluators ev)).

Definition newConditionEvaluator : ConditionEvaluator :=
  registerEvaluator "modifier_tier_check" evaluateModifierTierCheck
    (registerEvaluator "socket_check" evaluateSocketCheck
       (registerEvaluator "corruption_check" evaluateCorruptionCheck
          (mkConditionEvaluator ∅))).

(** ** Actions ([actionSystem.ts], [ActionExecutor]) *)

Inductive ChangeType : Type :=
  | ChAddModifier | ChRemoveModifier | ChModifyProperty | ChAddSocket
  | ChRemoveSocket | ChLinkSockets | ChCorrupt | ChCustom
  | ChOther (name : string).   (* 'reroll' and any other string *)

(** The interfaces [ItemChange], [ActionOutcome] and [CraftAction] of
    [types/core].  The optional [iconUrl] of an action, which the engine
    never reads, is left out; [requirements] is kept as a dynamic value. *)
Record ItemChange : Type := mkChange {
  ch_type : ChangeType;
  ch_target : option string;
  ch_value : JsVal;
  ch_modifierId : option string;
  ch_socketId : option string;
  ch_customHandler : option string
}.

Record ActionOutcome : Type := mkOutcome {
  out_id : string;
  probability : Q;
  out_description : string;
  changes : list ItemChange;
  out_conditions : option (list Condition)
}.

Record CraftAction : Type := mkAction {
  act_id : string;
  act_name : string;
  act_description : string;
  category : string;
  preconditions : list Condition;
  requirements : JsVal;
  outcomes : list ActionOutcome;
  act_customHandler : option string;
  act_tags : list string;
  isEnabled : bool
}.

(** A registered handler: [(item, action, context?) => Item]. *)
Definition Handler : Type := Item -> CraftAction -> JsVal -> M Item.

Record ActionExecutor : Type := mkActionExecutor {
  conditionEvaluator : ConditionEvaluator;
  customHandlers : gmap string Handler
}.

(** [name && table[name]]: the entry of a table under an optional name; an
    absent or empty name selects nothing.  The table is an object literal:
    under a name that is [inherited] and not registered the code finds the
    member of [Object.prototype] and calls it in place of an entry, which no
    [Handler] or [Evaluator] of the model describes; for such a name the
    [None] below does not speak. *)
Definition lookup_named {A} (name : option string) (table : gmap string A)
    : option A :=
  name ≫= (fun n => if String.eqb n "" then None else table !! n).

(** [s] as a condition of an [if]: a present, non-empty string. *)
Definition truthy_str (s : option string) : option string :=
  s ≫= (fun n => if String.eqb n "" then None else Some n).

(** [a || b] *)
Definition js_or (a b : JsVal) : JsVal := if truthy a then a else b.

Definition canExecuteAction (ex : ActionExecutor) (action : CraftAction)
    (item : Item) (context : JsVal) : Res bool :=
  every (fun condition => evaluate (conditionEvaluator ex) condition item context)
        (preconditions action).

Definition sum_probability (outcomes : list ActionOutcome) : Q :=
  fold_left (fun sum outcome => (sum + probability outcome)%Q) outcomes 0%Q.

(** The [for] loop of [selectOutcomeByProbability]. *)
Fixpoint walk (random accumulator : Q) (outcomes : list ActionOutcome)
    : option ActionOutcome :=
  match outcomes with
  | [] => None
  | outcome :: rest =>
      let accumulator := (accumulator + probability outcome)%Q in
      if Qle_bool random accumulator then Some outcome
      else walk random accumulator rest
  end.

(** [None] is the [undefined] that indexing an empty array gives. *)
Definition selectOutcomeByProbability (outcomes : list ActionOutcome)
    : M (option ActionOutcome) :=
  let totalProbability := sum_probability outcomes in
  if Qle_bool totalProbability 0 then ret (head outcomes)
  else
    r <- math_random ;;
    let random := (r * totalProbability)%Q in
    match walk random 0 outcomes with
    | Some outcome => ret (Some outcome)
    | None => ret (last outcomes)
    end.

Definition applyChange (ex : ActionExecutor) (modifiedItem : Item)
    (change : ItemChange) : M Item :=
  match ch_type change with
  | ChAddModifier =>
      match truthy_str (ch_modifierId change) with
      | Some _ =>
          modifier <- createModifier (ch_target change)
                        (js_or (get_field (ch_value change) "tier") (JNum 1)) None ;;
          ret (addModifier modifiedItem modifier)
      | None => ret modifiedItem
      end
  | ChRemoveModifier =>
      match truthy_str (ch_modifierId change) with
      | Some modifierId => ret (removeModifier modifiedItem modifierId)
      | None => ret modifiedItem
      end
  | ChModifyProperty =>
      match truthy_str (ch_target change) with
      | Some target => ret (updateProperty modifiedItem target (ch_value change))
      | None => ret modifiedItem
      end
  | ChAddSocket =>
      newSocket <- createSocket
                     (js_or (get_field (ch_value change) "color") (JStr "white")) ;;
      ret (addSocket modifiedItem newSocket)
  | ChRemoveSocket =>
      match truthy_str (ch_socketId change) with
      | Some socketId => ret (removeSocket modifiedItem socketId)
      | None => ret modifiedItem
      end
  | ChLinkSockets =>
      let socketIds := get_field (ch_value change) "socketIds" in
      if truthy socketIds then linkSockets modifiedItem socketIds
      else ret modifiedItem
  | ChCorrupt => ret (corruptItem modifiedItem)
  | ChCustom =>
      match ch_customHandler change with
      | Some name =>
          match lookup_named (Some name) (customHandlers ex) with
          | Some _ =>
              console_warn ("Custom change handler " +:+ name +:+ " not implemented") ;;;
              ret modifiedItem
          | None => ret modifiedItem
          end
      | None => ret modifiedItem
      end
  | ChOther name =>
      console_warn ("Unknown change type: " +:+ name) ;;;
      ret modifiedItem
  end.

Fixpoint applyChanges (ex : ActionExecutor) (item : Item)
    (changes : list ItemChange) : M Item :=
  match changes with
  | [] => ret item
  | change :: rest =>
      modifiedItem <- applyChange ex item change ;;
      applyChanges ex modifiedItem rest
  end.

(** [action.outcomes.filter(outcome => !outcome.conditions ||
    outcome.conditions.every(...))] *)
Definition validOutcomes (ex : ActionExecutor) (action : CraftAction)
    (item : Item) (context : JsVal) : Res (list ActionOutcome) :=
  filterR (fun outcome =>
             match out_conditions outcome with
             | None => Ok true
             | Some cs =>
                 every (fun condition =>
                          evaluate (conditionEvaluator ex) condition item context)
                       cs
             end)
          (outcomes action).

(** The outcome is [None] when a custom handler ran for an action that
    declares no outcome ([action.outcomes[0]] is [undefined]). *)
Definition executeAction (ex : ActionExecutor) (action : CraftAction)
    (item : Item) (context : JsVal) : M (Item * option ActionOutcome) :=
  ok <- liftR (canExecuteAction ex action item context) ;;
  if negb ok
  then throw ("Cannot execute action " +:+ act_name action +:+ ": preconditions not met")
  else
    match lookup_named (act_customHandler action) (customHandlers ex) with
    | Some handler =>
        modifiedItem <- handler item action context ;;
        ret (modifiedItem, head (outcomes action))
    | None =>
        validOutcomes <- liftR (validOutcomes ex action item context) ;;
        match validOutcomes with
        | [] => throw ("No valid outcomes for action " +:+ act_name action)
        | _ =>
            selected <- selectOutcomeByProbability validOutcomes ;;
            match selected with
            | Some selectedOutcome =>
                modifiedItem <- applyChanges ex item (changes selectedOutcome) ;;
                ret (modifiedItem, Some selectedOutcome)
            | None =>
                throw "Cannot read properties of undefined (reading 'changes')"
            end
        end
    end.

(** *** Built-in handlers *)

(** [Math.floor(Math.random() * n)] *)
Definition random_below (n : Z) : M Z :=
  r <- math_random ;; ret (Qfloor (r * inject_Z n)).

(** [for (let i = start; i < start + count; i++)] adding the modifier
    [`${label} ${i + 1}`] of tier 1. *)
Fixpoint add_labelled (label : string) (type : ModType) (count : nat) (i : Z)
    (modifiedItem : Item) : M Item :=
  match count with
  | O => ret modifiedItem
  | S count' =>
      modifier <- createModifier (Some (label +:+ " " +:+ pretty (i + 1)))
                                 (JNum 1) (Some type) ;;
      add_labelled label type count' (i + 1) (addModifier modifiedItem modifier)
  end.

Definition handleChaosOrb : Handler :=
  fun item action _ =>
    let modifiedItem := set_modifiers [] item in
    numPrefixes <- random_below 4 ;;
    numSuffixes <- random_below 4 ;;
    modifiedItem <-
      add_labelled "Random Prefix" Prefix (Z.to_nat numPrefixes) 0 modifiedItem ;;
    add_labelled "Random Suffix" Suffix (Z.to_nat numSuffixes) 0 modifiedItem.

Definition handleAlchemyOrb : Handler :=
  fun item action _ =>
    let modifiedItem := set_modifiers [] (set_rarity Rare item) in
    k <- random_below 3 ;;
    let numModifiers := 4 + k in
    j <- random_below 2 ;;
    let numPrefixes := Z.min 3 (numModifiers / 2 + j) in
    let numSuffixes := Z.min 3 (numModifiers - numPrefixes) in
    modifiedItem <-
      add_labelled "Alch Prefix" Prefix (Z.to_nat numPrefixes) 0 modifiedItem ;;
    add_labelled "Alch Suffix" Suffix (Z.to_nat numSuffixes) 0 modifiedItem.

(** [Math.random() < 0.5 ? 'prefix' : 'suffix'] *)
Definition random_modtype : M ModType :=
  r <- math_random ;;
  ret (if Qle_bool (1 # 2) r then Suffix else Prefix).

Definition handleRegalOrb : Handler :=
  fun item action _ =>
    let modifiedItem := set_rarity Rare item in
    modifierType <- random_modtype ;;
    modifier <- createModifier (Some ("Regal " +:+ modtype_str modifierType))
                               (JNum 1) (Some modifierType) ;;
    ret (addModifier modifiedItem modifier).

Definition handleExaltedOrb : Handler :=
  fun item action _ =>
    modifierType <- random_modtype ;;
    modifier <- createModifier (Some ("Exalted " +:+ modtype_str modifierType))
                               (JNum 1) (Some modifierType) ;;
    ret (addModifier item modifier).

(** [Math.max(1, tier + d - 1)] for a stored tier: [+] concatenates when the
    tier is, or converts to, a string; [-] and [Math.max] are numeric. *)
Definition varied_tier (tier : JsVal) (d : Z) : JsVal :=
  let sum :=
    match to_primitive tier with
    | JStr s => JStr (s +:+ pretty d)
    | p => match to_number p with Some n => JNum (n + d) | None => JNaN end
    end in
  match to_number sum with
  | Some n => JNum (Z.max 1 (n - 1))
  | None => JNaN
  end.

Definition handleDivineOrb : Handler :=
  fun item action _ =>
    mods <- mapM (fun m => d <- random_below 3 ;;
                           ret (set_tier (varied_tier (mod_tier m) d) m))
                 (modifiers item) ;;
    ret (set_modifiers mods item).

Definition registerHandler (name : string) (h : Handler) (ex : ActionExecutor)
    : ActionExecutor :=
  mkActionExecutor (conditionEvaluator ex) (<[name := h]> (customHandlers ex)).

Definition newActionExecutor (ev : ConditionEvaluator) : ActionExecutor :=
  registerHandler "divine_orb" handleDivineOrb
    (registerHandler "exalted_orb" handleExaltedOrb
       (registerHandler "regal_orb" handleRegalOrb
          (registerHandler "alchemy_orb" handleAlchemyOrb
             (registerHandler "chaos_orb" handleChaosOrb
                (mkActionExecutor ev ∅))))).

(** ** The registry ([actionSystem.ts], [ActionRegistryManager]) *)

Module ActionRegistryManager.

(** The public [conditionEvaluators] and [customHandlers] tables of the
    class are never read or written and are left out; the condition
    evaluator the constructor makes lives on inside the executor. *)
Record t : Type := mk {
  actions : gmap string CraftAction;
  actionExecutor : ActionExecutor
}.

(** [this.actions[action.id] = action], for an id other than ['__proto__']
    (assigning to that name sets the prototype of the table and stores no
    entry). *)
Definition registerAction (action : CraftAction) (reg : t) : t :=
  mk (<[act_id action := action]> (actions reg)) (actionExecutor reg).

(** [this.actions[id]] *)
Definition getAction (reg : t) (id : string) : Member CraftAction :=
  member (actions reg) id.

Definition getActionsByCategory (reg : t) (cat : string) : list CraftAction :=
  List.filter (fun action => String.eqb (category action) cat)
              (map snd (map_to_list (actions reg))).

Definition canExecuteAction (reg : t) (actionId : string) (item : Item)
    (context : JsVal) : Res bool :=
  match getAction reg actionId with
  | Missing => Ok false
  | Own action => canExecuteAction (actionExecutor reg) action item context
  | Inherited =>
      (* [action.preconditions] is [undefined] on a member of the prototype *)
      Throw "Cannot read properties of undefined (reading 'every')"
  end.

Definition executeAction (reg : t) (actionId : string) (item : Item)
    (context : JsVal) : M (Item * option ActionOutcome) :=
  match getAction reg actionId with
  | Missing => throw ("Action not found: " +:+ actionId)
  | Own action => executeAction (actionExecutor reg) action item context
  | Inherited =>
      (* the executor tests the preconditions first *)
      throw "Cannot read properties of undefined (reading 'every')"
  end.

Definition equals_condition (target : string) (value : JsVal) : M Condition :=
  id <- uuidv4 ;;
  ret (mkCondition id "property" OpEquals (Some target) value None None).

Definition initializeDefaultActions (reg : t) : M t :=
  c1 <- equals_condition "rarity" (JStr "rare") ;;
  c2 <- equals_condition "isCorrupted" (JBool false) ;;
  o1 <- uuidv4 ;;
  let reg :=
    registerAction
      (mkAction "chaos_orb" "Chaos Orb" "Rerolls all modifiers on a rare item"
         "currency" [c1; c2]
         (JObj [("currency", JObj [("Chaos Orb", JNum 1)])])
         [mkOutcome o1 1 "Rerolls all modifiers"
            [mkChange (ChOther "reroll") None JUndef None None None] None]
         (Some "chaos_orb") ["orb"; "reroll"] true) reg in
  c3 <- equals_condition "rarity" (JStr "normal") ;;
  c4 <- equals_condition "isCorrupted" (JBool false) ;;
  o2 <- uuidv4 ;;
  ret (registerAction
         (mkAction "alchemy_orb" "Alchemy Orb"
            "Upgrades a normal item to rare with random modifiers"
            "currency" [c3; c4]
            (JObj [("currency", JObj [("Alchemy Orb", JNum 1)])])
            [mkOutcome o2 1 "Upgrades to rare with 4-6 modifiers"
               [mkChange ChModifyProperty (Some "rarity") (JStr "rare")
                         None None None] None]
            (Some "alchemy_orb") ["orb"; "upgrade"] true) reg).

Definition new : M t :=
  let ev := newConditionEvaluator in
  initializeDefaultActions (mk ∅ (newActionExecutor ev)).

End ActionRegistryManager.

(** ** Guide steps ([guideSystem.ts], [GuideExecutor]) *)

(** The step types of [types/core].  A field that [validateStep] tests for
    presence is optional here, so that a step read from a document may lack
    it; [OtherStep] is a step whose [type] is none of the four.  A branch is
    [(condition, steps, label)]. *)
Inductive GuideStep : Type :=
  | LinearStep (id : string) (actionId : option string)
               (description : string) (notes : option string)
  | ConditionalStep (id : string) (condition : option Condition)
                    (trueStep falseStep : option GuideStep) (description : string)
  | BranchStep (id : string)
               (branches : option (list (Condition * list GuideStep * string)))
               (description : string)
  | LoopStep (id : string) (condition : option Condition)
             (steps : option (list GuideStep)) (maxIterations : option Z)
             (description : string)
  | OtherStep (type : string) (id : string).

Definition step_id (s : GuideStep) : string :=
  match s with
  | LinearStep id _ _ _ | ConditionalStep id _ _ _ _ | BranchStep id _ _
  | LoopStep id _ _ _ _ | OtherStep _ id => id
  end.

Definition step_type (s : GuideStep) : string :=
  match s with
  | LinearStep _ _ _ _ => "linear"
  | ConditionalStep _ _ _ _ _ => "conditional"
  | BranchStep _ _ _ => "branch"
  | LoopStep _ _ _ _ _ => "loop"
  | OtherStep type _ => type
  end.

Record GuideStepResult : Type := mkResult {
  success : bool;
  res_item : Item;
  message : string;
  nextStepIndex : option Z;
  branchPath : option string;
  shouldLoop : option bool
}.

Record GuideExecutionOptions : Type := mkOptions {
  maxSteps : option Z;
  maxLoopIterations : option Z;
  debugMode : option bool
}.

Record HistoryEntry : Type := mkEntry {
  h_stepId : string;
  itemBefore : Item;
  itemAfter : Item;
  timestamp : Z
}.

Record GuideExecutionState : Type := mkState {
  guideId : string;
  currentItem : Item;
  currentStepIndex : Z;
  stepHistory : list HistoryEntry;
  variables : JsVal
}.

(** Step execution mutates the execution state it is handed, next to the
    world. *)
Abbreviation G := (ST (World * GuideExecutionState)).

Definition liftW {A} (m : M A) : G A :=
  fun s => let '(r, w) := m s.1 in (r, (w, s.2)).

Definition get_state : G GuideExecutionState := fun s => (Ok s.2, s).
Definition put_state (st : GuideExecutionState) : G unit :=
  fun s => (Ok tt, (s.1, st)).

(** Run a computation against a given execution state. *)
Definition runG {A} (m : G A) (st : GuideExecutionState)
    : M (A * GuideExecutionState) :=
  fun w => match m (w, st) with
           | (Ok a, (w', st')) => (Ok (a, st'), w')
           | (Throw e, (w', _)) => (Throw e, w')
           end.

Record GuideExecutor : Type := mkGuideExecutor {
  actionRegistry : ActionRegistryManager.t;
  ge_conditionEvaluator : ConditionEvaluator
}.

Definition newGuideExecutor (reg : ActionRegistryManager.t) : GuideExecutor :=
  mkGuideExecutor reg newConditionEvaluator.

Definition logStepExecution (stepId : string) (before after : Item) : G unit :=
  b <- liftW (cloneItem before) ;;
  a <- liftW (cloneItem after) ;;
  t <- liftW new_Date ;;
  st <- get_state ;;
  put_state (mkState (guideId st) (currentItem st) (currentStepIndex st)
                     (stepHistory st ++ [mkEntry stepId b a t]) (variables st)).

(** [`${x}`] for an optional string. *)
Definition show_opt (o : option string) : string := default "undefined" o.

Definition executeLinearStep (ge : GuideExecutor) (id : string)
    (actionId : option string) (item : Item) : G GuideStepResult :=
  try_catch
    (ok <- liftR (ActionRegistryManager.canExecuteAction
                    (actionRegistry ge) (show_opt actionId) item JUndef) ;;
     if negb ok
     then ret (mkResult false item
                 ("Cannot execute action: preconditions not met for "
                    +:+ show_opt actionId) None None None)
     else
       result <- liftW (ActionRegistryManager.executeAction
                          (actionRegistry ge) (show_opt actionId) item JUndef) ;;
       logStepExecution id item result.1 ;;;
       match result.2 with
       | Some outcome =>
           ret (mkResult true result.1
                  ("Successfully executed " +:+ show_opt actionId +:+ ": "
                     +:+ out_description outcome) None None None)
       | None =>
           throw "Cannot read properties of undefined (reading 'description')"
       end)
    (fun msg =>
       ret (mkResult false item ("Error executing step: " +:+ msg) None None None)).

(** [conditionEvaluator.evaluate(step.condition, item)]; reading the operator
    of an absent condition is a [TypeError]. *)
Definition eval_cond (ge : GuideExecutor) (c : option Condition) (item : Item)
    : G bool :=
  match c with
  | Some c => liftR (evaluate (ge_conditionEvaluator ge) c item JUndef)
  | None => throw "Cannot read properties of undefined (reading 'operator')"
  end.

Definition set_message (m : string) (r : GuideStepResult) : GuideStepResult :=
  mkResult (success r) (res_item r) m (nextStepIndex r) (branchPath r) (shouldLoop r).

Definition set_branchPath (p : option string) (r : GuideStepResult) : GuideStepResult :=
  mkResult (success r) (res_item r) (message r) (nextStepIndex r) p (shouldLoop r).

(** [step.maxIterations || options.maxLoopIterations || 10] *)
Definition num_or (a : option Z) (b : Z) : Z :=
  match a with
  | Some n => if n =? 0 then b else n
  | None => b
  end.

Definition loop_cap (maxIterations : option Z) (options : GuideExecutionOptions) : Z :=
  num_or maxIterations (num_or (maxLoopIterations options) 10).

(** The exit of [executeLoopStep]: the statements after the [while]. *)
Definition loop_finish (ge : GuideExecutor) (condition : option Condition)
    (maxIterations iterations : Z) (currentItem : Item) : G GuideStepResult :=
  conditionStillMet <- eval_cond ge condition currentItem ;;
  ret (mkResult true currentItem
         ("Loop completed after " +:+ pretty iterations +:+ " iterations"
            +:+ (if conditionStillMet then " (max iterations reached)" else ""))
         None None
         (Some (conditionStillMet && (maxIterations <=? iterations)))).

(** The [for] over [step.steps] inside the [while]; [next] is the rest of the
    iteration, [iterations++] and the next test. *)
Definition loop_body (exec : GuideStep -> Item -> G GuideStepResult)
    (iterations : Z) (next : Item -> G GuideStepResult)
    : list GuideStep -> Item -> G GuideStepResult :=
  fix body ss currentItem :=
    match ss with
    | [] => next currentItem
    | loopStep :: ss' =>
        stepResult <- exec loopStep currentItem ;;
        if negb (success stepResult)
        then ret (set_message
                    ("Loop iteration " +:+ pretty (iterations + 1)
                       +:+ " failed: " +:+ message stepResult)
                    stepResult)
        else body ss' (res_item stepResult)
    end.

(** The [while] of [executeLoopStep], for an executor [exec] of sub-steps.
    [fuel] counts [maxIterations - iterations]: it is positive whenever the
    test of the [while] holds. *)
Definition loop_while (ge : GuideExecutor)
    (exec : GuideStep -> Item -> G GuideStepResult)
    (condition : option Condition) (steps : option (list GuideStep))
    (maxIterations : Z) : nat -> Z -> Item -> G GuideStepResult :=
  fix iter fuel iterations currentItem :=
    holds <- eval_cond ge condition currentItem ;;
    if holds && (iterations <? maxIterations) then
      match fuel with
      | O => loop_finish ge condition maxIterations iterations currentItem
      | S fuel' =>
          match steps with
          | None => throw "step.steps is not iterable"
          | Some ss =>
              loop_body exec iterations (iter fuel' (iterations + 1)) ss currentItem
          end
      end
    else loop_finish ge condition maxIterations iterations currentItem.

Fixpoint executeStep (ge : GuideExecutor) (step : GuideStep) (item : Item)
    (options : GuideExecutionOptions) {struct step} : G GuideStepResult :=
  match step with
  | LinearStep id actionId _ _ => executeLinearStep ge id actionId item
  | ConditionalStep _ condition trueStep falseStep _ =>
      conditionMet <- eval_cond ge condition item ;;
      let run (nextStep : option GuideStep) : G GuideStepResult :=
        match nextStep with
        | Some s => executeStep ge s item options
        | None => throw "Cannot read properties of undefined (reading 'type')"
        end in
      result <- (if conditionMet then run trueStep else run falseStep) ;;
      ret (mkResult (success result) (res_item result)
             ("Condition " +:+ (if conditionMet then "met" else "not met") +:+ ": "
                +:+ message result)
             (nextStepIndex result)
             (Some (if conditionMet then "true" else "false"))
             (shouldLoop result))
  | BranchStep _ branches _ =>
      match branches with
      | None => throw "step.branches is not iterable"
      | Some bs =>
          (fix scan (bs : list (Condition * list GuideStep * string))
             : G GuideStepResult :=
             match bs with
             | [] => ret (mkResult false item "No matching branch found" None None None)
             | (condition, branchSteps, label) :: rest =>
                 hit <- eval_cond ge (Some condition) item ;;
                 if hit then
                   (fix run (ss : list GuideStep) (currentItem : Item)
                        (lastResult : option GuideStepResult) : G GuideStepResult :=
                      match ss with
                      | [] =>
                          let last_message :=
                            match lastResult with
                            | Some r => if String.eqb (message r) "" then "completed"
                                        else message r
                            | None => "completed"
                            end in
                          ret (mkResult true currentItem
                                 ("Executed branch '" +:+ label +:+ "': " +:+ last_message)
                                 None (Some label) None)
                      | branchStep :: ss' =>
                          stepResult <- executeStep ge branchStep currentItem options ;;
                          if negb (success stepResult)
                          then ret (set_branchPath (Some label) stepResult)
                          else run ss' (res_item stepResult) (Some stepResult)
                      end) branchSteps item None
                 else scan rest
             end) bs
      end
  | LoopStep _ condition steps maxIter _ =>
      let maxIterations := loop_cap maxIter options in
      loop_while ge (fun s currentItem => executeStep ge s currentItem options)
                 condition steps maxIterations
                 (Z.to_nat maxIterations) 0 item
  | OtherStep type _ =>
      ret (mkResult false item ("Unknown step type: " +:+ type) None None None)
  end.

(** ** Guides ([guideSystem.ts], [GuideManager]) *)

(** The interface [CraftGuide] of [types/core]; the item templates and the
    optional cost, rate and sharing fields are opaque to the engine and kept
    as dynamic values; a timestamp is the instant it denotes. *)
Record CraftGuide : Type := mkGuide {
  guide_id : string;
  title : string;
  guide_description : string;
  author : string;
  version : string;
  createdAt : Z;
  updatedAt : Z;
  startingItem : JsVal;
  targetItem : JsVal;
  guide_steps : list GuideStep;
  estimatedCost : JsVal;
  successRate : JsVal;
  isPublic : JsVal;
  shareId : JsVal
}.

(** [{ ...guide, id, createdAt, updatedAt }] *)
Definition restamp (id : string) (created updated : Z) (g : CraftGuide) : CraftGuide :=
  mkGuide id (title g) (guide_description g) (author g) (version g)
          created updated (startingItem g) (targetItem g) (guide_steps g)
          (estimatedCost g) (successRate g) (isPublic g) (shareId g).

Record GuideManager : Type := mkGuideManager {
  guides : gmap string CraftGuide;
  guideExecutor : GuideExecutor
}.

Definition newGuideManager (reg : ActionRegistryManager.t) : GuideManager :=
  mkGuideManager ∅ (newGuideExecutor reg).

Definition store (g : CraftGuide) (gm : GuideManager) : GuideManager :=
  mkGuideManager (<[guide_id g := g]> (guides gm)) (guideExecutor gm).

(** The argument carries no id and no timestamps of its own: whatever it
    holds there is overwritten. *)
Definition createGuide (gm : GuideManager) (guide : CraftGuide)
    : M (CraftGuide * GuideManager) :=
  id <- uuidv4 ;;
  created <- new_Date ;;
  updated <- new_Date ;;
  let newGuide := restamp id created updated guide in
  ret (newGuide, store newGuide gm).

(** [this.guides[id] || null] *)
Definition getGuide (gm : GuideManager) (id : string) : Member CraftGuide :=
  member (guides gm) id.

Definition createExecutionState (guideId : string) (startingItem : Item)
    : M GuideExecutionState :=
  item <- cloneItem startingItem ;;
  ret (mkState guideId item 0 [] (JObj [])).

(** [guide.steps[index]] *)
Definition step_at (g : CraftGuide) (index : Z) : option GuideStep :=
  if index <? 0 then None else guide_steps g !! Z.to_nat index.

Definition steps_length (g : CraftGuide) : Z := Z.of_nat (length (guide_steps g)).

Definition executeNextStep (gm : GuideManager) (options : GuideExecutionOptions)
    : G GuideStepResult :=
  executionState <- get_state ;;
  match guides gm !! guideId executionState with
  | None =>
      ret (mkResult false (currentItem executionState) "Guide not found" None None None)
  | Some guide =>
      if steps_length guide <=? currentStepIndex executionState
      then ret (mkResult true (currentItem executionState) "Guide completed"
                         None None None)
      else
        match step_at guide (currentStepIndex executionState) with
        | None => throw "Cannot read properties of undefined (reading 'type')"
        | Some step =>
            result <- executeStep (guideExecutor gm) step
                        (currentItem executionState) options ;;
            (if success result then
               st <- get_state ;;
               let index :=
                 match nextStepIndex result with
                 | Some next => next
                 | None =>
                     if default false (shouldLoop result)
                     then currentStepIndex st
                     else currentStepIndex st + 1
                 end in
               put_state (mkState (guideId st) (res_item result) index
                                  (stepHistory st) (variables st))
             else ret tt) ;;;
            ret result
        end
  end.

(** [options.maxSteps || 100] *)
Definition step_budget (options : GuideExecutionOptions) : Z :=
  num_or (maxSteps options) 100.

Record GuideRun : Type := mkRun {
  run_success : bool;
  executionState : GuideExecutionState;
  results : list GuideStepResult
}.

(** The [while] loop of [executeGuide]; [fuel] counts
    [maxSteps - stepCount]. *)
Fixpoint run_steps (gm : GuideManager) (guide : CraftGuide)
    (options : GuideExecutionOptions) (fuel : nat) (stepCount : Z)
    (results : list GuideStepResult) : G (bool * list GuideStepResult) :=
  st <- get_state ;;
  if (currentStepIndex st <? steps_length guide)
     && (stepCount <? step_budget options) then
    match fuel with
    | O => ret (steps_length guide <=? currentStepIndex st, results)
    | S fuel' =>
        result <- executeNextStep gm options ;;
        let results := (results ++ [result])%list in
        if negb (success result) then ret (false, results)
        else run_steps gm guide options fuel' (stepCount + 1) results
    end
  else ret (steps_length guide <=? currentStepIndex st, results).

Definition executeGuide (gm : GuideManager) (guideId : string)
    (startingItem : Item) (options : GuideExecutionOptions) : M GuideRun :=
  match guides gm !! guideId with
  | None => throw ("Guide not found: " +:+ guideId)
  | Some guide =>
      executionState <- createExecutionState guideId startingItem ;;
      out <- runG (run_steps gm guide options
                     (Z.to_nat (step_budget options)) 0 []) executionState ;;
      ret (mkRun out.1.1 out.2 out.1.2)
  end.

(** *** Validation *)

Definition validateStep (step : GuideStep) (index : nat) : list string :=
  let prefix := "Step " +:+ pretty (Z.of_nat index + 1) +:+ " (" +:+ step_type step +:+ ")" in
  match step with
  | LinearStep _ actionId _ _ =>
      match truthy_str actionId with
      | None => [prefix +:+ ": Missing action ID"]
      | Some _ => []
      end
  | ConditionalStep _ condition trueStep falseStep _ =>
      (match condition with None => [prefix +:+ ": Missing condition"] | Some _ => [] end)
      ++ (match trueStep with None => [prefix +:+ ": Missing true step"] | Some _ => [] end)
      ++ (match falseStep with None => [prefix +:+ ": Missing false step"] | Some _ => [] end)
  | BranchStep _ branches _ =>
      match branches with
      | None | Some [] => [prefix +:+ ": No branches defined"]
      | Some _ => []
      end
  | LoopStep _ condition steps _ _ =>
      (match condition with None => [prefix +:+ ": Missing loop condition"] | Some _ => [] end)
      ++ (match steps with
          | None | Some [] => [prefix +:+ ": No steps defined in loop"]
          | Some _ => []
          end)
  | OtherStep _ _ => []
  end%list.

Definition hasCircularReferences (steps : list GuideStep) : bool := false.

(** The [errors] of [validateGuide]. *)
Definition validateGuide (guide : CraftGuide) : list string :=
  (concat (imap (fun index step => validateStep step index) (guide_steps guide))
   ++ (if hasCircularReferences (guide_steps guide)
       then ["Guide contains circular references in conditional steps"]
       else []))%list.

(** *** Export and import *)

Fixpoint json_condition (c : Condition) : Condition :=
  match c with
  | mkCondition id type op target value conds custom =>
      mkCondition id type op target (json_field value)
                  (match conds with
                   | Some cs => Some (map json_condition cs)
                   | None => None
                   end)
                  custom
  end.

Fixpoint json_step (s : GuideStep) : GuideStep :=
  match s with
  | LinearStep id actionId description notes => s
  | ConditionalStep id condition trueStep falseStep description =>
      ConditionalStep id (json_condition <$> condition)
        (match trueStep with Some t => Some (json_step t) | None => None end)
        (match falseStep with Some f => Some (json_step f) | None => None end)
        description
  | BranchStep id branches description =>
      BranchStep id
        (match branches with
         | Some bs =>
             Some (map (fun b : Condition * list GuideStep * string =>
                          let '(c, ss, label) := b in
                          (json_condition c, map json_step ss, label)) bs)
         | None => None
         end)
        description
  | LoopStep id condition steps maxIter description =>
      LoopStep id (json_condition <$> condition)
        (match steps with Some ss => Some (map json_step ss) | None => None end)
        maxIter description
  | OtherStep type id => s
  end.

(** What [JSON.parse(JSON.stringify(guide))] reads back. *)
Definition json_guide (g : CraftGuide) : CraftGuide :=
  mkGuide (guide_id g) (title g) (guide_description g) (author g) (version g)
          (createdAt g) (updatedAt g)
          (json_field (startingItem g)) (json_field (targetItem g))
          (map json_step (guide_steps g))
          (json_field (estimatedCost g)) (json_field (successRate g))
          (json_field (isPublic g)) (json_field (shareId g)).

Definition exportGuide (gm : GuideManager) (guideId : string) : M (Json CraftGuide) :=
  match guides gm !! guideId with
  | None => throw ("Guide not found: " +:+ guideId)
  | Some guide => ret (JsonText (json_guide guide))
  end.

Definition importGuide (gm : GuideManager) (guideJson : Json CraftGuide)
    : M (CraftGuide * GuideManager) :=
  let guideData := JSON_parse guideJson in
  let errors := validateGuide guideData in
  if negb (isValid errors)
  then throw ("Invalid guide: " +:+ join ", " errors)
  else
    id <- uuidv4 ;;
    created <- new_Date ;;
    updated <- new_Date ;;
    let guide := restamp id created updated guideData in
    ret (guide, store guide gm).

(** ** Further operations of [itemUtils.ts] *)

Definition getSocketCount (item : Item) : Z := Z.of_nat (length (sockets item)).

Definition canModifyWithOrbs (item : Item) : bool := negb (isCorrupted item).

Definition canModifySockets (item : Item) : bool := true.

(** [modifierType === 'prefix'] selects the prefix count and limit; every
    other type is counted against the suffixes. *)
Definition canAddModifier (item : Item) (modifierType : ModType) : bool :=
  if isCorrupted item then false
  else
    let maxMods := getMaxModifiers item in
    let is_prefix := String.eqb (modtype_str modifierType) "prefix" in
    let currentCount := if is_prefix then getPrefixCount item else getSuffixCount item in
    let maxCount := if is_prefix then maxMods.1 else maxMods.2 in
    currentCount <? maxCount.

(** ** Condition factories ([actionSystem.ts]) *)

Definition createCondition (type : string) (operator : Operator)
    (target : option string) (value : JsVal)
    (conditions : option (list Condition)) (customEvaluator : option string)
    : M Condition :=
  id <- uuidv4 ;;
  ret (mkCondition id type operator target value conditions customEvaluator).

Definition createCorruptionCondition (isCorrupted : bool) : M Condition :=
  createCondition "property" OpEquals (Some "isCorrupted") (JBool isCorrupted)
                  None None.

Definition createRarityCondition (rarity : string) : M Condition :=
  createCondition "property" OpEquals (Some "rarity") (JStr rarity) None None.

Definition createModifierCondition (modifierName : string) : M Condition :=
  createCondition "modifier" OpHasModifier None (JStr modifierName) None None.

(** [operator] is ['and'] or ['or']. *)
Definition createCompositeCondition (operator : Operator)
    (conditions : list Condition) : M Condition :=
  createCondition "composite" operator None JUndef (Some conditions) None.

(** ** Guide storage and step editing ([guideSystem.ts], [GuideManager]) *)

(** A [Partial<CraftGuide>]: each field is absent or carries a value. *)
Record GuidePatch : Type := mkPatch {
  p_id : option string;
  p_title : option string;
  p_description : option string;
  p_author : option string;
  p_version : option string;
  p_createdAt : option Z;
  p_updatedAt : option Z;
  p_startingItem : option JsVal;
  p_targetItem : option JsVal;
  p_steps : option (list GuideStep);
  p_estimatedCost : option JsVal;
  p_successRate : option JsVal;
  p_isPublic : option JsVal;
  p_shareId : option JsVal
}.

(** [{ ...guide, ...updates, id, updatedAt: new Date() }].  For an id that
    is [inherited] and not stored, [this.guides[id]] is a member of
    [Object.prototype]: the code then stores what the patch carries, which
    is a guide only if the patch carries every field; the [None] branch
    below does not speak for such an id. *)
Definition updateGuide (gm : GuideManager) (id : string) (updates : GuidePatch)
    : M (option CraftGuide * GuideManager) :=
  match guides gm !! id with
  | None => ret (None, gm)
  | Some guide =>
      now <- new_Date ;;
      let updatedGuide :=
        mkGuide id
                (default (title guide) (p_title updates))
                (default (guide_description guide) (p_description updates))
                (default (author guide) (p_author updates))
                (default (version guide) (p_version updates))
                (default (createdAt guide) (p_createdAt updates))
                now
                (default (startingItem guide) (p_startingItem updates))
                (default (targetItem guide) (p_targetItem updates))
                (default (guide_steps guide) (p_steps updates))
                (default (estimatedCost guide) (p_estimatedCost updates))
                (default (successRate guide) (p_successRate updates))
                (default (isPublic guide) (p_isPublic updates))
                (default (shareId guide) (p_shareId updates)) in
      ret (Some updatedGuide,
           mkGuideManager (<[id := updatedGuide]> (guides gm)) (guideExecutor gm))
  end.

(** [if (this.guides[id]) { delete this.guides[id]; return true; }
    return false;]: an inherited member passes the test, and [delete]
    removes stored entries only. *)
Definition deleteGuide (gm : GuideManager) (id : string) : bool * GuideManager :=
  match getGuide gm id with
  | Own _ => (true, mkGuideManager (delete id (guides gm)) (guideExecutor gm))
  | Inherited => (true, gm)
  | Missing => (false, gm)
  end.

(** [Object.values(this.guides)]; the order of the values is not modelled. *)
Definition getAllGuides (gm : GuideManager) : list CraftGuide :=
  map snd (map_to_list (guides gm)).

Definition getGuidesByAuthor (gm : GuideManager) (name : string) : list CraftGuide :=
  List.filter (fun guide => String.eqb (author guide) name) (getAllGuides gm).

(** [guide.steps = steps; guide.updatedAt = updated], in the store. *)
Definition with_steps (steps : list GuideStep) (updated : Z) (g : CraftGuide)
    : CraftGuide :=
  mkGuide (guide_id g) (title g) (guide_description g) (author g) (version g)
          (createdAt g) updated (startingItem g) (targetItem g) steps
          (estimatedCost g) (successRate g) (isPublic g) (shareId g).

Definition put_guide (guideId : string) (g : CraftGuide) (gm : GuideManager)
    : GuideManager :=
  mkGuideManager (<[guideId := g]> (guides gm)) (guideExecutor gm).

(** [steps.splice(position, 0, step)] for [0 <= position <= steps.length]. *)
Definition splice_in (position : nat) (step : GuideStep) (steps : list GuideStep)
    : list GuideStep :=
  (take position steps ++ step :: drop position steps)%list.

(** [steps.findIndex(step => step.id === stepId)]; [None] is -1. *)
Fixpoint findIndex (stepId : string) (steps : list GuideStep) : option nat :=
  match steps with
  | [] => None
  | step :: rest =>
      if String.eqb (step_id step) stepId then Some 0%nat
      else S <$> findIndex stepId rest
  end.

Definition addStep (gm : GuideManager) (guideId : string) (step : GuideStep)
    (position : option Z) : M (bool * GuideManager) :=
  match guides gm !! guideId with
  | None => ret (false, gm)
  | Some guide =>
      let steps :=
        match position with
        | Some pos =>
            if (0 <=? pos) && (pos <=? steps_length guide)
            then splice_in (Z.to_nat pos) step (guide_steps guide)
            else (guide_steps guide ++ [step])%list
        | None => (guide_steps guide ++ [step])%list
        end in
      now <- new_Date ;;
      ret (true, put_guide guideId (with_steps steps now guide) gm)
  end.

Definition removeStep (gm : GuideManager) (guideId stepId : string)
    : M (bool * GuideManager) :=
  match guides gm !! guideId with
  | None => ret (false, gm)
  | Some guide =>
      match findIndex stepId (guide_steps guide) with
      | None => ret (false, gm)
      | Some stepIndex =>
          now <- new_Date ;;
          ret (true, put_guide guideId
                       (with_steps (delete stepIndex (guide_steps guide)) now guide) gm)
      end
  end.

Definition moveStep (gm : GuideManager) (guideId stepId : string) (newPosition : Z)
    : M (bool * GuideManager) :=
  match guides gm !! guideId with
  | None => ret (false, gm)
  | Some guide =>
      match findIndex stepId (guide_steps guide) with
      | None => ret (false, gm)
      | Some stepIndex =>
          match guide_steps guide !! stepIndex with
          | None => ret (false, gm)     (* not reached: [stepIndex] is in range *)
          | Some step =>
              let rest := delete stepIndex (guide_steps guide) in
              let target := Z.max 0 (Z.min newPosition (Z.of_nat (length rest))) in
              now <- new_Date ;;
              ret (true, put_guide guideId
                           (with_steps (splice_in (Z.to_nat target) step rest) now guide)
                           gm)
          end
      end
  end.

(** * Specifications and sample data

    Predicates in which the properties below are stated, and the concrete
    items, actions and guides they are checked on. *)

(** ** Sample data *)

Definition sample_world : World := mkWorld 0 [] 0 [].

(** A rare, uncorrupted item of quality 1 without properties. *)
Definition sample_item : Item :=
  mkItem "item-1" "Sword" "Iron Sword" 1 1 false true Rare ∅ [] [] (JObj []) [].

Definition sample_executor : ActionExecutor := newActionExecutor newConditionEvaluator.

(** The registry before any action is registered. *)
Definition empty_registry : ActionRegistryManager.t :=
  ActionRegistryManager.mk ∅ sample_executor.

(** ** Conditions *)

(** [quality equals '1']: the item holds the number 1, the condition the
    string ['1']. *)
Definition quality_is_string_1 : Condition :=
  mkCondition "c-1" "property" OpEquals (Some "quality") (JStr "1") None None.

(** ** Item identity *)

(** An identifier that [uuidv4] handed out before the world reached [w]. *)
Definition issued_before (w : World) (id : string) : Prop :=
  exists k : nat, (k < next_uuid w)%nat /\ id = uuid_of k.

(** An item made by the factory in a fresh world, observed one identifier
    later. *)
Definition issued_item : Item :=
  mkItem (uuid_of 0) "Unknown Item" "Iron Sword" 1 0 false true Normal
         ∅ [] [] (JObj []) [].

(** ** Applying the changes of an outcome *)

(** [uuidv4] has issued one more identifier. *)
Definition after_uuid (w : World) : World :=
  mkWorld (S (next_uuid w)) (draws w) (clock w) (console w).

(** The modifier an [addModifier] change synthesizes in world [w]. *)
Definition synthesized (change : ItemChange) (w : World) : ItemModifier :=
  mkModifier (uuid_of (next_uuid w)) (ch_target change)
             (js_or (get_field (ch_value change) "tier") (JNum 1))
             (JObj []) Prefix [].

(** An [addModifier] change for "Fire Damage" at tier 3, with and without a
    [modifierId]. *)
Definition fire_change (modifierId : option string) : ItemChange :=
  mkChange ChAddModifier (Some "Fire Damage") (JObj [("tier", JNum 3)])
           modifierId None None.

(** ** Outcome selection *)

(** The running total after walking [l] from [acc], as the loop of
    [selectOutcomeByProbability] accumulates it. *)
Definition running (acc : Q) (l : list ActionOutcome) : Q :=
  fold_left (fun sum outcome => (sum + probability outcome)%Q) l acc.

(** [o] is the first outcome of [l] whose running total reaches or exceeds
    the draw [r]. *)
Definition first_reaching (r : Q) (l : list ActionOutcome) (o : ActionOutcome) : Prop :=
  exists pre post,
    l = (pre ++ o :: post)%list
    /\ (r <= running 0 (pre ++ [o]))%Q
    /\ forall pre' x rest,
         pre = (pre' ++ x :: rest)%list -> ~ (r <= running 0 (pre' ++ [x]))%Q.

(** No running total of [l] reaches the draw [r]. *)
Definition none_reaching (r : Q) (l : list ActionOutcome) : Prop :=
  forall pre x rest,
    l = (pre ++ x :: rest)%list -> ~ (r <= running 0 (pre ++ [x]))%Q.

(** [Math.random()] has been read once. *)
Definition after_draw (w : World) : World :=
  mkWorld (next_uuid w) (tail (draws w)) (clock w) (console w).

(** What the next [Math.random()] returns. *)
Definition next_draw (w : World) : Q := hd 0%Q (draws w).

(** ** Eligible outcomes *)

Definition is_true (r : Res bool) : bool :=
  match r with
  | Ok true => true
  | _ => false
  end.

(** An outcome with no conditions, or whose conditions all evaluate true on
    [item]. *)
Definition eligible (ex : ActionExecutor) (item : Item) (context : JsVal)
    (o : ActionOutcome) : bool :=
  match out_conditions o with
  | None => true
  | Some cs =>
      forallb (fun c => is_true (evaluate (conditionEvaluator ex) c item context)) cs
  end.

(** ** What [applyChanges] can throw *)

Definition relink_error (e : string) : Prop :=
  e = "socketIds.filter is not a function"
  \/ e = "Cannot read properties of undefined (reading 'includes')"
  \/ e = "socketIds.includes is not a function".

(** ** The declarative path of [executeAction] *)

Definition no_valid_outcome (action : CraftAction) : string :=
  "No valid outcomes for action " +:+ act_name action.

Definition weighted_first : ActionOutcome :=
  mkOutcome "o-1" (2 # 10) "Corrupts the item"
            [mkChange ChCorrupt None JUndef None None None] None.

Definition weighted_second : ActionOutcome :=
  mkOutcome "o-2" (8 # 10) "Nothing happens" [] None.

(** A declarative action with weights 0.2 and 0.8 and no preconditions. *)
Definition weighted_action : CraftAction :=
  mkAction "vaal_orb" "Vaal Orb" "Corrupts an item, or not" "currency" []
           JUndef [weighted_first; weighted_second] None [] true.

(** ** Preconditions *)

(** The errors the evaluator raises by itself. *)
Definition evaluator_error (e : string) : Prop :=
  e = "Cannot read properties of undefined (reading 'split')"
  \/ exists name, e = "Unknown condition operator: " +:+ name.

(** The errors a registered evaluator raises. *)
Definition custom_error (ev : ConditionEvaluator) (e : string) : Prop :=
  exists name f c item context,
    customEvaluators ev !! name = Some f /\ f c item context = Throw e.

Definition precondition_not_met (action : CraftAction) : string :=
  "Cannot execute action " +:+ act_name action +:+ ": preconditions not met".

(** A declarative action for normal items only. *)
Definition normal_only_action : CraftAction :=
  mkAction "transmute" "Orb of Transmutation" "Upgrades a normal item" "currency"
           [mkCondition "p-1" "property" OpEquals (Some "rarity") (JStr "normal")
                        None None]
           JUndef [weighted_second] None [] true.

(** ** Loop steps *)

(** The loop with [iterations] iterations behind it. *)
Definition loop_at (ge : GuideExecutor)
    (exec : GuideStep -> Item -> G GuideStepResult)
    (condition : option Condition) (steps : option (list GuideStep))
    (maxIterations iterations : Z) (currentItem : Item) : G GuideStepResult :=
  loop_while ge exec condition steps maxIterations
             (Z.to_nat (maxIterations - iterations)) iterations currentItem.

(** The sub-steps [ss] all succeed, taking the item from [cur] to [cur']
    and the state from [s] to [s']. *)
Inductive steps_succeed (exec : GuideStep -> Item -> G GuideStepResult)
  : list GuideStep -> Item -> World * GuideExecutionState ->
    Item -> World * GuideExecutionState -> Prop :=
| succeed_nil cur s : steps_succeed exec [] cur s cur s
| succeed_cons step ss cur s r s1 cur' s' :
    exec step cur s = (Ok r, s1) ->
    success r = true ->
    steps_succeed exec ss (res_item r) s1 cur' s' ->
    steps_succeed exec (step :: ss) cur s cur' s'.

(** *** The quality scenario *)

(** A handler that adds 1 to the quality of the item. *)
Definition handlePolish : Handler :=
  fun item action _ => ret (set_quality (quality item + 1) item).

Definition polish_action : CraftAction :=
  mkAction "polish" "Whetstone" "Adds 1 to quality" "currency" [] JUndef
           [mkOutcome "o-polish" 1 "Quality +1" [] None]
           (Some "polish") [] true.

Definition polish_registry : ActionRegistryManager.t :=
  ActionRegistryManager.registerAction polish_action
    (ActionRegistryManager.mk ∅ (registerHandler "polish" handlePolish sample_executor)).

Definition polish_executor : GuideExecutor := newGuideExecutor polish_registry.

Definition quality_below_3 : Condition :=
  mkCondition "c-q" "item" OpLessThan (Some "item.quality") (JNum 3) None None.

Definition polish_step : GuideStep := LinearStep "s-polish" (Some "polish") "Polish" None.

Definition polish_loop (maxIterations : Z) : GuideStep :=
  LoopStep "s-loop" (Some quality_below_3) (Some [polish_step]) (Some maxIterations)
           "Polish while quality < 3".

Definition dull_item : Item := set_quality 0 sample_item.

Definition no_options : GuideExecutionOptions := mkOptions None None None.

Definition fresh_state : World * GuideExecutionState :=
  (sample_world, mkState "g-1" dull_item 0 [] (JObj [])).

(** What a caller observes of a loop run: success, final quality, the
    message, [shouldLoop], and the number of history entries logged. *)
Definition observe (out : Res GuideStepResult * (World * GuideExecutionState))
    : option (bool * Z * string * option bool * nat) :=
  match out with
  | (Ok r, (_, st)) =>
      Some (success r, quality (res_item r), message r, shouldLoop r,
            length (stepHistory st))
  | (Throw _, _) => None
  end.

(** ** Running a guide *)

(** The [while] of [executeGuide] with [stepCount] steps behind it. *)
Definition run_at (gm : GuideManager) (guide : CraftGuide)
    (options : GuideExecutionOptions) (stepCount : Z)
    (results : list GuideStepResult) : G (bool * list GuideStepResult) :=
  run_steps gm guide options (Z.to_nat (step_budget options - stepCount))
            stepCount results.

Definition succeeded (r : GuideStepResult) : Prop := success r = true.

(** *** A guide that never finishes *)

Definition quality_nonnegative : Condition :=
  mkCondition "c-pos" "item" OpGreaterThan (Some "item.quality") (JNum (-1)) None None.

(** One iteration per visit, and the condition holds for ever: every visit
    ends at the cap with [shouldLoop] set, so the cursor stays. *)
Definition endless_loop : GuideStep :=
  LoopStep "s-endless" (Some quality_nonnegative) (Some [polish_step]) (Some 1)
           "Polish for ever".

Definition endless_guide : CraftGuide :=
  mkGuide "g-1" "Endless" "Never finishes" "nobody" "1.0.0" 0 0
          JUndef JUndef [endless_loop] JUndef JUndef JUndef JUndef.

Definition endless_manager : GuideManager :=
  mkGuideManager {["g-1" := endless_guide]} polish_executor.

(** What a caller observes of a guide run: overall success, the number of
    recorded results, whether all of them are successes, and the cursor. *)
Definition observe_run (out : Res GuideRun * World) : option (bool * nat * bool * Z) :=
  match out with
  | (Ok run, _) =>
      Some (run_success run, length (results run),
            forallb success (results run),
            currentStepIndex (executionState run))
  | (Throw _, _) => None
  end.

(** ** Guide export and import *)

(** A value that JSON carries unchanged: no [undefined] and no NaN inside. *)
Fixpoint is_json (v : JsVal) : bool :=
  match v with
  | JUndef | JNaN => false
  | JArr l => forallb is_json l
  | JObj l => forallb (fun kv : string * JsVal => is_json (snd kv)) l
  | _ => true
  end.

(** The same for the value of a record field, which may be absent. *)
Definition is_json_field (v : JsVal) : bool :=
  match v with
  | JUndef => true
  | _ => is_json v
  end.

Fixpoint json_faithful_condition (c : Condition) : bool :=
  match c with
  | mkCondition _ _ _ _ value conds _ =>
      is_json_field value
      && match conds with
         | Some cs => forallb json_faithful_condition cs
         | None => true
         end
  end.

Fixpoint json_faithful_step (s : GuideStep) : bool :=
  match s with
  | LinearStep _ _ _ _ | OtherStep _ _ => true
  | ConditionalStep _ condition trueStep falseStep _ =>
      match condition with Some c => json_faithful_condition c | None => true end
      && match trueStep with Some t => json_faithful_step t | None => true end
      && match falseStep with Some f => json_faithful_step f | None => true end
  | BranchStep _ branches _ =>
      match branches with
      | Some bs =>
          forallb (fun b : Condition * list GuideStep * string =>
                     let '(c, ss, _) := b in
                     json_faithful_condition c && forallb json_faithful_step ss) bs
      | None => true
      end
  | LoopStep _ condition steps _ _ =>
      match condition with Some c => json_faithful_condition c | None => true end
      && match steps with Some ss => forallb json_faithful_step ss | None => true end
  end.

(** A guide whose data JSON carries unchanged. *)
Definition json_faithful (g : CraftGuide) : bool :=
  is_json_field (startingItem g) && is_json_field (targetItem g)
  && forallb json_faithful_step (guide_steps g)
  && is_json_field (estimatedCost g) && is_json_field (successRate g)
  && is_json_field (isPublic g) && is_json_field (shareId g).

Definition on_some {A} (P : A -> Prop) (o : option A) : Prop :=
  match o with
  | Some x => P x
  | None => True
  end.

(** Equality of two guides in every field but [id], [createdAt] and
    [updatedAt]. *)
Definition same_content (a b : CraftGuide) : Prop :=
  title a = title b /\ guide_description a = guide_description b
  /\ author a = author b /\ version a = version b
  /\ startingItem a = startingItem b /\ targetItem a = targetItem b
  /\ guide_steps a = guide_steps b
  /\ estimatedCost a = estimatedCost b /\ successRate a = successRate b
  /\ isPublic a = isPublic b /\ shareId a = shareId b.

(** A valid guide whose success rate is NaN, as a rate computed from zero
    runs is. *)
Definition unrated_guide : CraftGuide :=
  mkGuide "uuid-0" "Polish" "Polishes once" "nobody" "1.0.0" 0 0
          JUndef JUndef [polish_step] JUndef JNaN JUndef JUndef.

Definition unrated_manager : GuideManager :=
  mkGuideManager {["uuid-0" := unrated_guide]} polish_executor.

(** The guide an import returns. *)
Definition imported_guide (out : Res (CraftGuide * GuideManager) * World)
    : option CraftGuide :=
  match out with
  | (Ok (g, _), _) => Some g
  | (Throw _, _) => None
  end.

(** ** Items: properties, modifiers, sockets *)

(** An item whose only property is a numeric damage value. *)
Definition armed_item : Item :=
  set_properties {["damage" := mkProperty "p-1" "damage" (JNum 10) TNumber]} sample_item.

Definition fire_modifier : ItemModifier :=
  mkModifier "m-fire" (Some "Fire Damage") (JNum 2) (JObj []) Prefix [].

(** What [linkSockets] makes of one socket, for a list of socket ids. *)
Definition relinked (socketIds : list string) (s : ItemSocket) : ItemSocket :=
  if bool_decide (sock_id s ∈ socketIds)
  then set_links (map JStr (List.filter (fun id => negb (String.eqb id (sock_id s)))
                                        socketIds)) s
  else s.

(** A rare item with a prefix, a suffix and two sockets linked to each
    other. *)
Definition crafted_item : Item :=
  set_sockets [mkSocket "s-1" (JStr "red") [JStr "s-2"];
               mkSocket "s-2" (JStr "green") [JStr "s-1"]]
    (set_modifiers [mkModifier "m-1" (Some "Fire Damage") (JNum 2) (JObj []) Prefix [];
                    mkModifier "m-2" (Some "Fire Resistance") (JNum 1) (JObj []) Suffix []]
       sample_item).

(** Three unlinked sockets. *)
Definition socketed_item : Item :=
  set_sockets [mkSocket "s-1" (JStr "red") []; mkSocket "s-2" (JStr "green") [];
               mkSocket "s-3" (JStr "blue") [JStr "s-1"]] sample_item.

(** ** Conditions *)

(** A segment of a dotted path: splitting it at dots gives the segment
    itself. *)
Definition segment (s : string) : Prop := split_on "." s = [s].

(** The namespaces [getTargetValue] recognises in the first segment. *)
Definition namespace (s : string) : bool :=
  String.eqb s "item" || String.eqb s "property" || String.eqb s "modifier".

Definition rmap {A B} (f : A -> B) (r : Res A) : Res B :=
  match r with
  | Ok a => Ok (f a)
  | Throw e => Throw e
  end.

(** An item with a fire modifier of tier 2 and a damage property. *)
Definition fiery_item : Item := addModifier armed_item fire_modifier.

(** ** Actions *)

(** The registry the constructor builds in a world, seeded with the default
    actions. *)
Definition seeded_registry (w : World) : ActionRegistryManager.t :=
  match ActionRegistryManager.new w with
  | (Ok reg, _) => reg
  | (Throw _, _) => empty_registry
  end.

Definition is_rarity (r : Rarity) (item : Item) : bool :=
  String.eqb (rarity_str (rarity item)) (rarity_str r).

(** [uuidv4] has issued [n] more identifiers. *)
Definition after_uuids (n : nat) (w : World) : World :=
  mkWorld (n + next_uuid w) (draws w) (clock w) (console w).

(** The [count] modifiers a built-in handler appends in a row: labelled
    [`${label} ${i + 1}`], [`${label} ${i + 2}`], ..., of tier 1, with the
    identifiers issued from the [u]-th on. *)
Fixpoint labelled (label : string) (type : ModType) (count : nat) (i : Z) (u : nat)
    : list ItemModifier :=
  match count with
  | O => []
  | S count' =>
      mkModifier (uuid_of u) (Some (label +:+ " " +:+ pretty (i + 1))) (JNum 1)
                 (JObj []) type []
      :: labelled label type count' (i + 1) (S u)
  end.

(** A draw of [Math.random()]: a number in [0, 1). *)
Definition unit_draw (r : Q) : Prop := (0 <= r)%Q /\ (r < 1)%Q.

Definition two_draws : World := mkWorld 0 [(1 # 2)%Q; (9 # 10)%Q] 0 [].

(** The modifier the Regal and Exalted Orb handlers make for a draw [r]. *)
Definition drawn_modtype (r : Q) : ModType :=
  if Qle_bool (1 # 2) r then Suffix else Prefix.

Definition orb_modifier (orb : string) (r : Q) (u : nat) : ItemModifier :=
  mkModifier (uuid_of u) (Some (orb +:+ " " +:+ modtype_str (drawn_modtype r)))
             (JNum 1) (JObj []) (drawn_modtype r) [].

(** [Math.random()] has been read [n] times. *)
Definition after_draws (n : nat) (w : World) : World :=
  mkWorld (next_uuid w) (drop n (draws w)) (clock w) (console w).

(** The modifiers the Divine Orb handler returns for the draws [ds]. *)
Fixpoint divined (ds : list Q) (ms : list ItemModifier) : list ItemModifier :=
  match ms with
  | [] => []
  | m :: ms' =>
      set_tier (varied_tier (mod_tier m) (Qfloor (hd 0%Q ds * 3))) m
      :: divined (tail ds) ms'
  end.


(** ** What step execution does to the execution state *)

(** The ids of the linear steps inside a step, at any depth. *)
Fixpoint linear_ids (step : GuideStep) : list string :=
  match step with
  | LinearStep id _ _ _ => [id]
  | ConditionalStep _ _ trueStep falseStep _ =>
      (match trueStep with Some s => linear_ids s | None => [] end)
      ++ (match falseStep with Some s => linear_ids s | None => [] end)
  | BranchStep _ branches _ =>
      match branches with
      | Some bs =>
          flat_map (fun b : Condition * list GuideStep * string =>
                      let '(_, ss, _) := b in flat_map linear_ids ss) bs
      | None => []
      end
  | LoopStep _ _ steps _ _ =>
      match steps with
      | Some ss => flat_map linear_ids ss
      | None => []
      end
  | OtherStep _ _ => []
  end%list.

(** [s'] differs from [s] in the execution state by entries added at the end
    of the history only, each of which satisfies [P]. *)
Definition grows_by (P : HistoryEntry -> Prop) (s s' : World * GuideExecutionState)
    : Prop :=
  guideId s'.2 = guideId s.2
  /\ currentItem s'.2 = currentItem s.2
  /\ currentStepIndex s'.2 = currentStepIndex s.2
  /\ variables s'.2 = variables s.2
  /\ exists added,
       stepHistory s'.2 = (stepHistory s.2 ++ added)%list /\ Forall P added.

(** Whether it returns or throws, [m] only appends entries satisfying [P]
    to the history. *)
Definition logs_only {A} (P : HistoryEntry -> Prop) (m : G A) : Prop :=
  forall s, grows_by P s (m s).2.

(** The entry was logged for a linear step inside [step]. *)
Definition logged_inside (step : GuideStep) (e : HistoryEntry) : Prop :=
  In (h_stepId e) (linear_ids step).

(** *** Branches over the quality of an item *)

Definition quality_above_5 : Condition :=
  mkCondition "c-5" "item" OpGreaterThan (Some "item.quality") (JNum 5) None None.

Definition high_branch : Condition * list GuideStep * string :=
  (quality_above_5, [], "high").

Definition low_branch : Condition * list GuideStep * string :=
  (quality_below_3, [polish_step], "low").

(** ** The guide store *)

(** Every guide is stored under its own id. *)
Definition keyed (gm : GuideManager) : Prop :=
  forall k g, guides gm !! k = Some g -> guide_id g = k.

(** No step of [steps] has the id [stepId]. *)
Definition no_step_with (stepId : string) (steps : list GuideStep) : Prop :=
  Forall (fun s => step_id s <> stepId) steps.

(** A patch that carries no field. *)
Definition empty_patch : GuidePatch :=
  mkPatch None None None None None None None None None None None None None None.

(** A second step, to tell positions apart. *)
Definition rinse_step : GuideStep := LinearStep "s-rinse" (Some "polish") "Rinse" None.

(** * Properties *)

(** ** Dynamic values *)

Example loose_eq_num_str : loose_eq (JNum 1) (JStr "1") = true.
Proof. reflexivity. Qed.

Example strict_eq_num_str : strict_eq (JNum 1) (JStr "1") = false.
Proof. reflexivity. Qed.

Example split_on_ex : split_on "." "modifier.Fire.tier" = ["modifier"; "Fire"; "tier"].
Proof. reflexivity. Qed.

(** ** Conditions *)

(** C1, as amended: for a condition with a target, [equals] resolves the
    target path on the item and compares the resolved value with the
    condition's value by strict equality [===] (same type and same value, no
    coercion), and [notEquals] is the negation of that. *)
Theorem evaluate_equals_strict (ev : ConditionEvaluator) (c : Condition)
    (item : Item) (context : JsVal) (target : string) :
  cond_target c = Some target ->
  (cond_operator c = OpEquals ->
   evaluate ev c item context
   = Ok (strict_eq (getTargetValue target item) (cond_value c)))
  /\ (cond_operator c = OpNotEquals ->
      evaluate ev c item context
      = Ok (negb (strict_eq (getTargetValue target item) (cond_value c)))).
Proof.
  destruct c as [id type op tgt value conds custom]; simpl.
  intros ->; split; intros ->; simpl;
    unfold evaluateEquals, with_target; simpl; reflexivity.
Qed.

Lemma evaluate_equals_strict_witness :
  cond_target quality_is_string_1 = Some "quality"
  /\ evaluate newConditionEvaluator quality_is_string_1 sample_item JUndef
     = Ok (strict_eq (getTargetValue "quality" sample_item)
                     (cond_value quality_is_string_1)).
Proof.
  split; [reflexivity |].
  apply (proj1 (evaluate_equals_strict newConditionEvaluator quality_is_string_1
                  sample_item JUndef "quality" eq_refl)).
  reflexivity.
Defined.

(** C1 as stated fails: the resolved value 1 is [==]-equal to the string
    ['1'], yet [equals] evaluates false. *)
Lemma equals_is_not_loose :
  loose_eq (getTargetValue "quality" sample_item) (cond_value quality_is_string_1)
  = true
  /\ evaluate newConditionEvaluator quality_is_string_1 sample_item JUndef
     = Ok false.
Proof. split; vm_compute; reflexivity. Qed.

(** ** The registry *)




(** ** Property updates *)

(** C10: for a name that is not a key of [item.properties], [updateProperty]
    returns the item unchanged, and so does a declarative [modifyProperty]
    change with that name as target, e.g. ['rarity']. *)
Theorem updateProperty_absent_noop (ex : ActionExecutor) (item : Item)
    (name : string) (value : JsVal) (w : World)
    (modifierId socketId handler : option string) :
  properties item !! name = None ->
  updateProperty item name value = item
  /\ applyChanges ex item
       [mkChange ChModifyProperty (Some name) value modifierId socketId handler] w
     = (Ok item, w).
Proof.
  intros Hnone.
  assert (Hupd : updateProperty item name value = item).
  { unfold updateProperty. rewrite Hnone. reflexivity. }
  split; [exact Hupd |].
  cbn [applyChanges applyChange ch_type ch_target ch_value truthy_str mbind
       option_bind].
  unfold bind.
  destruct (String.eqb name ""); cbn; [reflexivity |].
  rewrite Hupd. reflexivity.
Qed.

Lemma updateProperty_absent_noop_witness :
  properties sample_item !! "rarity" = None
  /\ applyChanges sample_executor sample_item
       [mkChange ChModifyProperty (Some "rarity") (JStr "magic") None None None]
       sample_world
     = (Ok sample_item, sample_world).
Proof.
  split; [reflexivity |].
  apply (proj2 (updateProperty_absent_noop sample_executor sample_item "rarity"
                  (JStr "magic") sample_world None None None eq_refl)).
Defined.

(** ** Item identity *)

Lemma uuid_of_inj (m n : nat) : uuid_of m = uuid_of n -> m = n.
Proof.
  unfold uuid_of. cbn. intros H. injection H as H.
  exact (pretty_nat_inj _ _ H).
Qed.

Lemma uuidv4_fresh (w : World) (id : string) :
  issued_before w id -> uuid_of (next_uuid w) <> id.
Proof.
  intros (k & Hlt & ->) Heq. apply uuid_of_inj in Heq. lia.
Qed.

Lemma mapM_cons {S A B} (f : A -> ST S B) (x : A) (l : list A) (w : S) :
  mapM f (x :: l) w
  = match f x w with
    | (Ok y, w1) =>
        match mapM f l w1 with
        | (Ok ys, w2) => (Ok (y :: ys), w2)
        | (Throw e, w2) => (Throw e, w2)
        end
    | (Throw e, w1) => (Throw e, w1)
    end.
Proof.
  change (mapM f (x :: l) w) with (bind (f x) (fun y => bind (mapM f l) (fun ys => ret (y :: ys))) w).
  unfold bind, ret. destruct (f x w) as [[y | e] w1]; [| reflexivity].
  destruct (mapM f l w1) as [[ys | e] w2]; reflexivity.
Qed.

Lemma relink_array (ids : list JsVal) (s : ItemSocket) (w : World) :
  exists s', relink (JArr ids) s w = (Ok s', w).
Proof.
  unfold relink. destruct (existsb _ ids); eexists; reflexivity.
Qed.

Lemma mapM_relink_array (ids : list JsVal) (ss : list ItemSocket) (w : World) :
  exists ss', mapM (relink (JArr ids)) ss w = (Ok ss', w).
Proof.
  induction ss as [| s ss IH]; [eexists; reflexivity |].
  destruct (relink_array ids s w) as (s' & Hs), IH as (ss' & Hss).
  exists (s' :: ss'). rewrite mapM_cons, Hs, Hss. reflexivity.
Qed.

Lemma linkSockets_id (item item' : Item) (socketIds : JsVal) (w w' : World) :
  linkSockets item socketIds w = (Ok item', w') -> item_id item' = item_id item.
Proof.
  unfold linkSockets, bind, ret.
  destruct (mapM (relink socketIds) (sockets item) w) as [[ss | e] w1];
    intros H; inversion H; reflexivity.
Qed.

(** C2, as amended: every item mutator returns an item with the id of its
    input; [cloneItem] returns the item under the identifier [uuidv4] issues
    next, which differs from the item's id whenever that id was issued
    earlier; and [importItem(exportItem(i))], when it returns, returns an
    item with the same id as [i]. *)
Theorem item_id_stable_except_clone (item : Item) (w : World) :
  (forall name value type,
      exists p, addProperty item name value type w
                = (Ok (set_properties (<[name := p]> (properties item)) item),
                   mkWorld (S (next_uuid w)) (draws w) (clock w) (console w)))
  /\ (forall name value type item' w',
        addProperty item name value type w = (Ok item', w') ->
        item_id item' = item_id item)
  /\ (forall name value, item_id (updateProperty item name value) = item_id item)
  /\ (forall name, item_id (removeProperty item name) = item_id item)
  /\ (forall modifier, item_id (addModifier item modifier) = item_id item)
  /\ (forall modifierId, item_id (removeModifier item modifierId) = item_id item)
  /\ (forall socket, item_id (addSocket item socket) = item_id item)
  /\ (forall socketId, item_id (removeSocket item socketId) = item_id item)
  /\ (forall socketIds : list string,
        exists item', linkSockets item (JArr (map JStr socketIds)) w = (Ok item', w)
                      /\ item_id item' = item_id item)
  /\ item_id (corruptItem item) = item_id item
  /\ (exists clone w', cloneItem item w = (Ok clone, w')
                       /\ item_id clone = uuid_of (next_uuid w)
                       /\ (issued_before w (item_id item) ->
                           item_id clone <> item_id item))
  /\ (forall item' w', importItem (exportItem item) w = (Ok item', w') ->
                       item_id item' = item_id item).
Proof.
  repeat match goal with |- _ /\ _ => split end.
  - intros name value type. eexists. reflexivity.
  - intros name value type item' w' H. inversion H. reflexivity.
  - intros name value. unfold updateProperty.
    destruct (properties item !! name); reflexivity.
  - reflexivity.
  - reflexivity.
  - reflexivity.
  - reflexivity.
  - reflexivity.
  - intros socketIds.
    destruct (mapM_relink_array (map JStr socketIds) (sockets item) w) as (ss & Hss).
    exists (set_sockets ss item). split; [| reflexivity].
    unfold linkSockets, bind. rewrite Hss. reflexivity.
  - reflexivity.
  - exists (set_id (uuid_of (next_uuid w)) item). eexists.
    split; [reflexivity |]. split; [reflexivity |].
    cbn. apply uuidv4_fresh.
  - unfold importItem, exportItem. cbn [JSON_parse].
    intros item' w'.
    destruct (negb (isValid (validateItem (json_item item)))); intros H;
      inversion H. reflexivity.
Qed.

Lemma item_id_stable_except_clone_witness :
  issued_before (mkWorld 1 [] 0 []) (item_id issued_item)
  /\ exists clone w', cloneItem issued_item (mkWorld 1 [] 0 []) = (Ok clone, w')
                      /\ item_id clone <> item_id issued_item.
Proof.
  assert (Hissued : issued_before (mkWorld 1 [] 0 []) (item_id issued_item)).
  { exists 0%nat. split; [cbn; lia | reflexivity]. }
  split; [exact Hissued |].
  destruct (item_id_stable_except_clone issued_item (mkWorld 1 [] 0 []))
    as (_ & _ & _ & _ & _ & _ & _ & _ & _ & _ & (clone & w' & Hc & _ & Hne) & _).
  exists clone, w'. split; [exact Hc | exact (Hne Hissued)].
Defined.

(** C2 as stated fails: exporting an item and importing it back returns
    an item with the very id of the original. *)
Lemma importItem_keeps_id :
  importItem (exportItem sample_item) sample_world = (Ok sample_item, sample_world)
  /\ ~ (item_id sample_item <> item_id sample_item).
Proof.
  split; [vm_compute; reflexivity |].
  intros H. apply H. reflexivity.
Qed.

(** ** Applying the changes of an outcome *)

Lemma applyChanges_app (ex : ActionExecutor) (cs1 cs2 : list ItemChange) :
  forall (item : Item) (w : World),
    applyChanges ex item (cs1 ++ cs2) w
    = match applyChanges ex item cs1 w with
      | (Ok item1, w1) => applyChanges ex item1 cs2 w1
      | (Throw e, w1) => (Throw e, w1)
      end.
Proof.
  induction cs1 as [| c cs1 IH]; intros item w; [reflexivity |].
  cbn [app applyChanges]. unfold bind.
  destruct (applyChange ex item c w) as [[item1 | e] w1]; [apply IH | reflexivity].
Qed.

Lemma js_or_defined (a b : JsVal) : b <> JUndef -> js_or a b <> JUndef.
Proof.
  unfold js_or. destruct a; cbn; intros Hb; try discriminate; try exact Hb.
  - destruct b0; [discriminate | exact Hb].
  - destruct (n =? 0); [exact Hb | discriminate].
  - destruct (String.eqb s ""); [exact Hb | discriminate].
Qed.

Lemma createModifier_given_tier (name : option string) (tier : JsVal) (w : World) :
  tier <> JUndef ->
  createModifier name tier None w
  = (Ok (mkModifier (uuid_of (next_uuid w)) name tier (JObj []) Prefix []),
     after_uuid w).
Proof. intros H. destruct tier; try reflexivity. contradiction. Qed.

(** C4, as amended: the changes of an outcome are applied in declared order,
    each by the corresponding item mutator; an [addModifier] change that
    carries a non-empty [modifierId] appends a fresh modifier named by the
    change's target, of tier [value.tier] (1 when that is absent or falsy),
    and an [addModifier] change without [modifierId] is skipped. *)
Theorem applyChanges_in_order (ex : ActionExecutor) (item : Item) (w : World) :
  (forall cs1 cs2,
      applyChanges ex item (cs1 ++ cs2) w
      = match applyChanges ex item cs1 w with
        | (Ok item1, w1) => applyChanges ex item1 cs2 w1
        | (Throw e, w1) => (Throw e, w1)
        end)
  /\ (forall change id,
        ch_type change = ChAddModifier ->
        truthy_str (ch_modifierId change) = Some id ->
        applyChanges ex item [change] w
        = (Ok (addModifier item (synthesized change w)), after_uuid w)
        /\ modifiers (addModifier item (synthesized change w))
           = (modifiers item ++ [synthesized change w])%list)
  /\ (forall change,
        ch_type change = ChAddModifier ->
        truthy_str (ch_modifierId change) = None ->
        applyChanges ex item [change] w = (Ok item, w))
  /\ (forall change id,
        ch_type change = ChRemoveModifier ->
        truthy_str (ch_modifierId change) = Some id ->
        applyChanges ex item [change] w = (Ok (removeModifier item id), w))
  /\ (forall change target,
        ch_type change = ChModifyProperty ->
        truthy_str (ch_target change) = Some target ->
        applyChanges ex item [change] w
        = (Ok (updateProperty item target (ch_value change)), w))
  /\ (forall change id,
        ch_type change = ChRemoveSocket ->
        truthy_str (ch_socketId change) = Some id ->
        applyChanges ex item [change] w = (Ok (removeSocket item id), w))
  /\ (forall change,
        ch_type change = ChCorrupt ->
        applyChanges ex item [change] w = (Ok (corruptItem item), w)).
Proof.
  split; [intros; apply applyChanges_app |].
  repeat match goal with |- _ /\ _ => split end.
  - intros change id Hty Hid. split; [| reflexivity].
    cbn [applyChanges]. unfold applyChange, bind. rewrite Hty, Hid.
    rewrite createModifier_given_tier by (apply js_or_defined; discriminate).
    reflexivity.
  - intros change Hty Hid.
    cbn [applyChanges]. unfold applyChange, bind. rewrite Hty, Hid. reflexivity.
  - intros change id Hty Hid.
    cbn [applyChanges]. unfold applyChange, bind. rewrite Hty, Hid. reflexivity.
  - intros change target Hty Htg.
    cbn [applyChanges]. unfold applyChange, bind. rewrite Hty, Htg. reflexivity.
  - intros change id Hty Hid.
    cbn [applyChanges]. unfold applyChange, bind. rewrite Hty, Hid. reflexivity.
  - intros change Hty.
    cbn [applyChanges]. unfold applyChange, bind. rewrite Hty. reflexivity.
Qed.

Lemma applyChanges_in_order_witness :
  truthy_str (ch_modifierId (fire_change (Some "m-1"))) = Some "m-1"
  /\ applyChanges sample_executor sample_item [fire_change (Some "m-1")] sample_world
     = (Ok (addModifier sample_item
              (mkModifier "uuid-0" (Some "Fire Damage") (JNum 3) (JObj []) Prefix [])),
        mkWorld 1 [] 0 []).
Proof.
  split; [reflexivity |].
  destruct (applyChanges_in_order sample_executor sample_item sample_world)
    as (_ & Hadd & _).
  exact (proj1 (Hadd (fire_change (Some "m-1")) "m-1" eq_refl eq_refl)).
Defined.

(** C4 as stated fails: an [addModifier] change that names a target and a
    tier but carries no [modifierId] appends nothing. *)
Lemma addModifier_change_without_id :
  ch_type (fire_change None) = ChAddModifier
  /\ applyChanges sample_executor sample_item [fire_change None] sample_world
     = (Ok sample_item, sample_world)
  /\ modifiers sample_item = [].
Proof. repeat split. Qed.

(** ** Outcome selection *)

Lemma math_random_spec (w : World) : math_random w = (Ok (next_draw w), after_draw w).
Proof. unfold math_random, next_draw, after_draw. destruct w as [n [| r rest] c k]; reflexivity. Qed.

Lemma Qle_bool_false (x y : Q) : Qle_bool x y = false <-> ~ (x <= y)%Q.
Proof.
  rewrite <- Qle_bool_iff. destruct (Qle_bool x y); split; congruence.
Qed.

Lemma walk_first (r : Q) (o : ActionOutcome) (post : list ActionOutcome) :
  forall (pre : list ActionOutcome) (acc : Q),
    (r <= running acc (pre ++ [o]))%Q ->
    (forall pre' x rest,
        pre = (pre' ++ x :: rest)%list -> ~ (r <= running acc (pre' ++ [x]))%Q) ->
    walk r acc (pre ++ o :: post) = Some o.
Proof.
  induction pre as [| y pre IH]; intros acc Hreach Hbefore.
  - cbn in *. apply Qle_bool_iff in Hreach. rewrite Hreach. reflexivity.
  - cbn [app walk].
    assert (Hy : Qle_bool r (acc + probability y) = false).
    { apply Qle_bool_false. exact (Hbefore [] y pre eq_refl). }
    rewrite Hy. apply IH; [exact Hreach |].
    intros pre' x rest ->. exact (Hbefore (y :: pre') x rest eq_refl).
Qed.

Lemma walk_none (r : Q) :
  forall (l : list ActionOutcome) (acc : Q),
    (forall pre x rest,
        l = (pre ++ x :: rest)%list -> ~ (r <= running acc (pre ++ [x]))%Q) ->
    walk r acc l = None.
Proof.
  induction l as [| y l IH]; intros acc Hnone; [reflexivity |].
  cbn [walk].
  assert (Hy : Qle_bool r (acc + probability y) = false).
  { apply Qle_bool_false. exact (Hnone [] y l eq_refl). }
  rewrite Hy. apply IH.
  intros pre x rest ->. exact (Hnone (y :: pre) x rest eq_refl).
Qed.

Lemma walk_In (r : Q) (o : ActionOutcome) :
  forall (l : list ActionOutcome) (acc : Q), walk r acc l = Some o -> In o l.
Proof.
  induction l as [| y l IH]; intros acc; cbn [walk]; [discriminate |].
  destruct (Qle_bool r (acc + probability y)).
  - intros [= ->]. left. reflexivity.
  - intros H. right. exact (IH _ H).
Qed.

Lemma last_In {A} (l : list A) (x : A) : last l = Some x -> In x l.
Proof.
  intros H. apply last_Some in H as (l' & ->).
  apply in_or_app. right. left. reflexivity.
Qed.

Lemma head_In {A} (l : list A) (x : A) : head l = Some x -> In x l.
Proof. destruct l; intros [= ->]. left. reflexivity. Qed.

(** On a non-empty list the selection returns a member of the list. *)
Lemma select_member (outs : list ActionOutcome) (w : World) :
  outs <> [] ->
  exists sel w',
    selectOutcomeByProbability outs w = (Ok (Some sel), w') /\ In sel outs.
Proof.
  intros Hne. unfold selectOutcomeByProbability.
  destruct (Qle_bool (sum_probability outs) 0).
  - destruct outs as [| o outs]; [contradiction |].
    exists o, w. split; [reflexivity | left; reflexivity].
  - unfold bind. rewrite math_random_spec.
    destruct (walk _ 0 outs) as [o |] eqn:Hwalk.
    + exists o, (after_draw w). split; [reflexivity | exact (walk_In _ _ _ _ Hwalk)].
    + destruct (last outs) as [o |] eqn:Hlast.
      * exists o, (after_draw w). split; [reflexivity | exact (last_In _ _ Hlast)].
      * apply last_None in Hlast. contradiction.
Qed.

(** ** Eligible outcomes *)

Lemma every_Ok {A} (f : A -> Res bool) (l : list A) (b : bool) :
  every f l = Ok b -> b = forallb (fun x => is_true (f x)) l.
Proof.
  induction l as [| x l IH]; cbn; [congruence |].
  destruct (f x) as [[|] | e]; cbn; [exact IH | congruence | discriminate].
Qed.

Lemma every_true_iff {A} (f : A -> Res bool) (l : list A) :
  every f l = Ok true <-> Forall (fun x => f x = Ok true) l.
Proof.
  induction l as [| x l IH]; cbn.
  - split; [constructor | reflexivity].
  - destruct (f x) as [[|] | e] eqn:Hx; cbn.
    + rewrite IH. split; [intros H; constructor; [exact Hx | exact H] |].
      intros H. inversion H. assumption.
    + split; [discriminate | intros H; inversion H; congruence].
    + split; [discriminate | intros H; inversion H; congruence].
Qed.

Lemma filterR_Ok {A} (f : A -> Res bool) (l l' : list A) :
  filterR f l = Ok l' -> l' = List.filter (fun x => is_true (f x)) l.
Proof.
  revert l'. induction l as [| x l IH]; intros l'; cbn; [congruence |].
  destruct (f x) as [b | e]; cbn; [| discriminate].
  destruct (filterR f l) as [tl | e]; cbn; [| discriminate].
  specialize (IH tl eq_refl). subst tl.
  destruct b; congruence.
Qed.

Lemma validOutcomes_eligible (ex : ActionExecutor) (action : CraftAction)
    (item : Item) (context : JsVal) (valid : list ActionOutcome) :
  validOutcomes ex action item context = Ok valid ->
  valid = List.filter (eligible ex item context) (outcomes action).
Proof.
  unfold validOutcomes. intros H.
  assert (Hall : forall o, In o (outcomes action) ->
                           exists b, match out_conditions o with
                                     | None => Ok true
                                     | Some cs =>
                                         every (fun c => evaluate (conditionEvaluator ex)
                                                           c item context) cs
                                     end = Ok b).
  { revert valid H. induction (outcomes action) as [| x l IH]; intros valid H o Hin.
    - destruct Hin.
    - cbn in H.
      destruct (match out_conditions x with None => _ | Some _ => _ end)
        as [b | e] eqn:Hx; cbn in H; [| discriminate].
      destruct (filterR _ l) as [tl | e] eqn:Hl; cbn in H; [| discriminate].
      destruct Hin as [<- | Hin]; [exists b; exact Hx | exact (IH tl eq_refl o Hin)]. }
  rewrite (filterR_Ok _ _ _ H).
  apply List.filter_ext_in. intros o Hin.
  destruct (Hall o Hin) as (b & Hb). rewrite Hb. unfold eligible.
  destruct (out_conditions o) as [cs |].
  - apply every_Ok in Hb. subst b. destruct (forallb _ cs); reflexivity.
  - injection Hb as <-. reflexivity.
Qed.

(** ** What [applyChanges] can throw *)

Lemma relink_throw (socketIds : JsVal) (s : ItemSocket) (w w' : World) (e : string) :
  relink socketIds s w = (Throw e, w') -> relink_error e.
Proof.
  unfold relink, relink_error, ret, throw.
  destruct socketIds; try (intros [= <- _]; tauto).
  - destruct (str_includes _ _); intros [=]; subst; tauto.
  - destruct (existsb _ _); intros [=].
Qed.

Lemma mapM_throw {A B} (f : A -> M B) (P : string -> Prop) :
  (forall x w w' e, f x w = (Throw e, w') -> P e) ->
  forall l w w' e, mapM f l w = (Throw e, w') -> P e.
Proof.
  intros Hf. induction l as [| x l IH]; intros w w' e; [discriminate |].
  rewrite mapM_cons.
  destruct (f x w) as [[y | e1] w1] eqn:Hx.
  - destruct (mapM f l w1) as [[ys | e2] w2] eqn:Hl; intros [=]; subst.
    exact (IH _ _ _ Hl).
  - intros [=]; subst. exact (Hf _ _ _ _ Hx).
Qed.

Lemma applyChange_throw (ex : ActionExecutor) (item : Item) (c : ItemChange)
    (w w' : World) (e : string) :
  applyChange ex item c w = (Throw e, w') -> relink_error e.
Proof.
  intros H. unfold applyChange in H.
  destruct (ch_type c);
    unfold linkSockets, createModifier, createSocket, console_warn, uuidv4,
           bind, ret, throw in H;
    cbn in H; repeat case_match; simplify_eq.
  eapply (mapM_throw _ _ (relink_throw _)); eassumption.
Qed.

Lemma applyChanges_throw (ex : ActionExecutor) (cs : list ItemChange) :
  forall (item : Item) (w w' : World) (e : string),
    applyChanges ex item cs w = (Throw e, w') -> relink_error e.
Proof.
  induction cs as [| c cs IH]; intros item w w' e; [discriminate |].
  cbn [applyChanges]. unfold bind.
  destruct (applyChange ex item c w) as [[item1 | e1] w1] eqn:Hc.
  - apply IH.
  - intros [=]; subst. exact (applyChange_throw _ _ _ _ _ _ Hc).
Qed.

(** ** The declarative path of [executeAction] *)

Lemma relink_error_not_no_valid (action : CraftAction) :
  ~ relink_error (no_valid_outcome action).
Proof. unfold relink_error, no_valid_outcome. cbn. intros [H | [H | H]]; discriminate. Qed.

Lemma select_sum_nonpositive (outs : list ActionOutcome) (w : World) :
  (sum_probability outs <= 0)%Q ->
  selectOutcomeByProbability outs w = (Ok (head outs), w).
Proof.
  intros H. unfold selectOutcomeByProbability.
  apply Qle_bool_iff in H. rewrite H. reflexivity.
Qed.

Lemma select_first_reaching (outs : list ActionOutcome) (w : World) (o : ActionOutcome) :
  ~ (sum_probability outs <= 0)%Q ->
  first_reaching (next_draw w * sum_probability outs) outs o ->
  selectOutcomeByProbability outs w = (Ok (Some o), after_draw w).
Proof.
  intros Hpos (pre & post & -> & Hreach & Hbefore).
  unfold selectOutcomeByProbability.
  apply Qle_bool_false in Hpos. rewrite Hpos.
  unfold bind. rewrite math_random_spec.
  rewrite (walk_first _ o post pre 0 Hreach Hbefore). reflexivity.
Qed.

Lemma select_none_reaching (outs : list ActionOutcome) (w : World) :
  ~ (sum_probability outs <= 0)%Q ->
  none_reaching (next_draw w * sum_probability outs) outs ->
  selectOutcomeByProbability outs w = (Ok (last outs), after_draw w).
Proof.
  intros Hpos Hnone. unfold selectOutcomeByProbability.
  apply Qle_bool_false in Hpos. rewrite Hpos.
  unfold bind. rewrite math_random_spec.
  rewrite (walk_none _ outs 0 Hnone). reflexivity.
Qed.

(** C5: on the declarative path (preconditions hold, no registered custom
    handler), [executeAction] keeps the outcomes that have no conditions or
    whose conditions are all true on the item it was given; it fails with the
    no-valid-outcome error iff none is kept; otherwise it applies the changes
    of the selected outcome, which is the first kept outcome when the sum of
    the weights is <= 0, else, for the draw [r = Math.random() * sum], the
    first outcome whose running total reaches or exceeds [r], else the last
    one.  With weights 0.2 and 0.8, the draw 0.1 selects the first outcome
    and the draw 0.9 the second. *)
Theorem executeAction_declarative (ex : ActionExecutor) (action : CraftAction)
    (item : Item) (context : JsVal) (w : World) (valid : list ActionOutcome) :
  canExecuteAction ex action item context = Ok true ->
  lookup_named (act_customHandler action) (customHandlers ex) = None ->
  validOutcomes ex action item context = Ok valid ->
  valid = List.filter (eligible ex item context) (outcomes action)
  /\ (valid = [] <->
      executeAction ex action item context w = (Throw (no_valid_outcome action), w))
  /\ (valid <> [] ->
      exists sel w1,
        selectOutcomeByProbability valid w = (Ok (Some sel), w1)
        /\ In sel valid
        /\ executeAction ex action item context w
           = match applyChanges ex item (changes sel) w1 with
             | (Ok modifiedItem, w2) => (Ok (modifiedItem, Some sel), w2)
             | (Throw e, w2) => (Throw e, w2)
             end)
  /\ ((sum_probability valid <= 0)%Q ->
      selectOutcomeByProbability valid w = (Ok (head valid), w))
  /\ (~ (sum_probability valid <= 0)%Q ->
      forall o, first_reaching (next_draw w * sum_probability valid) valid o ->
                selectOutcomeByProbability valid w = (Ok (Some o), after_draw w))
  /\ (~ (sum_probability valid <= 0)%Q ->
      none_reaching (next_draw w * sum_probability valid) valid ->
      selectOutcomeByProbability valid w = (Ok (last valid), after_draw w))
  /\ (forall o1 o2 w0,
        probability o1 = (2 # 10)%Q -> probability o2 = (8 # 10)%Q ->
        (next_draw w0 = (1 # 10)%Q ->
         selectOutcomeByProbability [o1; o2] w0 = (Ok (Some o1), after_draw w0))
        /\ (next_draw w0 = (9 # 10)%Q ->
            selectOutcomeByProbability [o1; o2] w0 = (Ok (Some o2), after_draw w0))).
Proof.
  intros Hpre Hhandler Hvalid.
  assert (Hexec : executeAction ex action item context w
                  = match valid with
                    | [] => (Throw (no_valid_outcome action), w)
                    | _ =>
                        match selectOutcomeByProbability valid w with
                        | (Ok (Some sel), w1) =>
                            match applyChanges ex item (changes sel) w1 with
                            | (Ok modifiedItem, w2) => (Ok (modifiedItem, Some sel), w2)
                            | (Throw e, w2) => (Throw e, w2)
                            end
                        | (Ok None, w1) =>
                            (Throw "Cannot read properties of undefined (reading 'changes')", w1)
                        | (Throw e, w1) => (Throw e, w1)
                        end
                    end).
  { unfold executeAction, bind, liftR. rewrite Hpre. cbn [negb].
    rewrite Hhandler, Hvalid.
    destruct valid as [| v valid']; [reflexivity |].
    destruct (selectOutcomeByProbability (v :: valid') w) as [[[sel |] | e] w1];
      reflexivity. }
  assert (Hsel : valid <> [] ->
                 exists sel w1,
                   selectOutcomeByProbability valid w = (Ok (Some sel), w1)
                   /\ In sel valid
                   /\ executeAction ex action item context w
                      = match applyChanges ex item (changes sel) w1 with
                        | (Ok modifiedItem, w2) => (Ok (modifiedItem, Some sel), w2)
                        | (Throw e, w2) => (Throw e, w2)
                        end).
  { intros Hne. destruct (select_member valid w Hne) as (sel & w1 & Hs & Hin).
    exists sel, w1. split; [exact Hs |]. split; [exact Hin |].
    rewrite Hexec, Hs. destruct valid; [contradiction | reflexivity]. }
  split; [exact (validOutcomes_eligible _ _ _ _ _ Hvalid) |].
  split.
  { split.
    - intros ->. exact Hexec.
    - intros Hthrow. destruct valid as [| v valid']; [reflexivity |].
      exfalso. destruct Hsel as (sel & w1 & _ & _ & Hrun); [discriminate |].
      rewrite Hrun in Hthrow.
      destruct (applyChanges ex item (changes sel) w1) as [[m | e] w2] eqn:Hch;
        [discriminate |].
      injection Hthrow as -> _.
      exact (relink_error_not_no_valid action (applyChanges_throw _ _ _ _ _ _ Hch)). }
  split; [exact Hsel |].
  split; [apply select_sum_nonpositive |].
  split; [intros Hpos o; apply select_first_reaching; exact Hpos |].
  split; [apply select_none_reaching |].
  intros o1 o2 w0 H1 H2.
  assert (Hsum : Qle_bool (sum_probability [o1; o2]) 0 = false).
  { unfold sum_probability. cbn [fold_left]. rewrite H1, H2. reflexivity. }
  unfold selectOutcomeByProbability. rewrite Hsum.
  unfold bind. rewrite math_random_spec.
  unfold sum_probability. cbn [fold_left walk]. rewrite H1, H2.
  split; intros ->; reflexivity.
Qed.

Lemma executeAction_declarative_witness :
  canExecuteAction sample_executor weighted_action sample_item JUndef = Ok true
  /\ lookup_named (act_customHandler weighted_action) (customHandlers sample_executor)
     = None
  /\ validOutcomes sample_executor weighted_action sample_item JUndef
     = Ok [weighted_first; weighted_second]
  /\ selectOutcomeByProbability [weighted_first; weighted_second]
       (mkWorld 0 [(1 # 10)%Q] 0 [])
     = (Ok (Some weighted_first), sample_world)
  /\ selectOutcomeByProbability [weighted_first; weighted_second]
       (mkWorld 0 [(9 # 10)%Q] 0 [])
     = (Ok (Some weighted_second), sample_world).
Proof.
  split; [reflexivity |]. split; [reflexivity |]. split; [reflexivity |].
  pose proof (executeAction_declarative sample_executor weighted_action sample_item
                JUndef sample_world [weighted_first; weighted_second]
                eq_refl eq_refl eq_refl) as (_ & _ & _ & _ & _ & _ & Hex).
  split.
  - exact (proj1 (Hex weighted_first weighted_second (mkWorld 0 [(1 # 10)%Q] 0 [])
                    eq_refl eq_refl) eq_refl).
  - exact (proj2 (Hex weighted_first weighted_second (mkWorld 0 [(9 # 10)%Q] 0 [])
                    eq_refl eq_refl) eq_refl).
Defined.

(** ** Preconditions *)

Lemma Condition_nested_ind (P : Condition -> Prop) :
  (forall id type op target value custom,
      P (mkCondition id type op target value None custom)) ->
  (forall id type op target value cs custom,
      Forall P cs -> P (mkCondition id type op target value (Some cs) custom)) ->
  forall c, P c.
Proof.
  intros Hnone Hsome. fix IH 1.
  intros [id type op target value [cs |] custom]; [| apply Hnone].
  apply Hsome. induction cs as [| c cs IHcs]; constructor; [apply IH | exact IHcs].
Qed.

Lemma every_throw {A} (f : A -> Res bool) (l : list A) (e : string) :
  every f l = Throw e -> exists x, In x l /\ f x = Throw e.
Proof.
  induction l as [| x l IH]; cbn; [discriminate |].
  destruct (f x) as [[|] | e'] eqn:Hx; cbn.
  - intros H. destruct (IH H) as (y & Hy & Hfy). exists y. split; [right |]; assumption.
  - discriminate.
  - intros [= ->]. exists x. split; [left; reflexivity | exact Hx].
Qed.

Lemma some_throw {A} (f : A -> Res bool) (l : list A) (e : string) :
  some f l = Throw e -> exists x, In x l /\ f x = Throw e.
Proof.
  induction l as [| x l IH]; cbn; [discriminate |].
  destruct (f x) as [[|] | e'] eqn:Hx; cbn.
  - discriminate.
  - intros H. destruct (IH H) as (y & Hy & Hfy). exists y. split; [right |]; assumption.
  - intros [= ->]. exists x. split; [left; reflexivity | exact Hx].
Qed.

Lemma with_target_throw (c : Condition) (k : string -> bool) (e : string) :
  with_target c (fun target => Ok (k target)) = Throw e -> evaluator_error e.
Proof.
  unfold with_target. destruct (cond_target c); [discriminate |].
  intros [= <-]. left. reflexivity.
Qed.

Lemma evaluate_throw (ev : ConditionEvaluator) (item : Item) (context : JsVal) :
  forall (c : Condition) (e : string),
    evaluate ev c item context = Throw e -> evaluator_error e \/ custom_error ev e.
Proof.
  assert (Hleaf : forall id type op target value conds custom e,
             op <> OpAnd -> op <> OpOr -> op <> OpNot ->
             evaluate ev (mkCondition id type op target value conds custom) item context
             = Throw e ->
             evaluator_error e \/ custom_error ev e).
  { intros id type op target value conds custom e Hand Hor Hnot.
    destruct op; try contradiction; cbn [evaluate].
    - intros H. left. exact (with_target_throw _ _ _ H).
    - unfold evaluateEquals.
      destruct (with_target _ _) as [b | e'] eqn:Hw; cbn; [discriminate |].
      intros [= <-]. left. exact (with_target_throw _ _ _ Hw).
    - intros H. left. exact (with_target_throw _ _ _ H).
    - intros H. left. exact (with_target_throw _ _ _ H).
    - unfold evaluateContains, with_target. cbn.
      destruct target; [| intros [= <-]; left; left; reflexivity].
      destruct (getTargetValue _ _); discriminate.
    - discriminate.
    - discriminate.
    - destruct (custom ≫= _) as [f |] eqn:Hf.
      + intros H. right. destruct custom as [n |]; [| discriminate].
        cbn in Hf. destruct (String.eqb n ""); [discriminate |].
        exists n, f. eauto.
      + intros [= <-]. left. right. eauto. }
  induction c as [id type op target value custom
                 | id type op target value cs custom IH] using Condition_nested_ind;
    intros e.
  - destruct op; try (apply Hleaf; discriminate); cbn; discriminate.
  - destruct op;
      try (apply Hleaf; discriminate).
    + cbn [evaluate]. intros H. apply every_throw in H as (c & Hin & Hc).
      rewrite Forall_forall in IH. exact (IH c (proj2 (list_elem_of_In _ _) Hin) e Hc).
    + cbn [evaluate]. intros H. apply some_throw in H as (c & Hin & Hc).
      rewrite Forall_forall in IH. exact (IH c (proj2 (list_elem_of_In _ _) Hin) e Hc).
    + cbn [evaluate]. destruct cs as [| c cs]; [discriminate |].
      inversion IH as [| ? ? Hc _]; subst.
      destruct (evaluate ev c item context) as [b | e'] eqn:Hev; cbn; [discriminate |].
      intros [= <-]. exact (Hc _ eq_refl).
Qed.

Lemma filterR_throw {A} (f : A -> Res bool) (l : list A) (e : string) :
  filterR f l = Throw e -> exists x, In x l /\ f x = Throw e.
Proof.
  induction l as [| x l IH]; cbn; [discriminate |].
  destruct (f x) as [b | e'] eqn:Hx; cbn.
  - destruct (filterR f l) as [tl | e'']; cbn; [discriminate |].
    intros [= ->]. destruct (IH eq_refl) as (y & Hy & Hfy).
    exists y. split; [right |]; assumption.
  - intros [= ->]. exists x. split; [left; reflexivity | exact Hx].
Qed.

Lemma evaluator_error_not_pnm (action : CraftAction) (e : string) :
  evaluator_error e -> e <> precondition_not_met action.
Proof.
  unfold precondition_not_met. intros [-> | (name & ->)]; cbn; discriminate.
Qed.

Lemma relink_error_not_pnm (action : CraftAction) (e : string) :
  relink_error e -> e <> precondition_not_met action.
Proof.
  unfold precondition_not_met. intros [-> | [-> | ->]]; cbn; discriminate.
Qed.

Lemma every_false_at {A} (f : A -> Res bool) (pre post : list A) (c : A) :
  Forall (fun x => exists b, f x = Ok b) pre ->
  f c = Ok false ->
  every f (pre ++ c :: post) = Ok false.
Proof.
  intros Hpre Hc. induction Hpre as [| x pre (b & Hb) _ IH]; cbn.
  - rewrite Hc. reflexivity.
  - rewrite Hb. cbn. destruct b; [exact IH | reflexivity].
Qed.

(** C6: [canExecuteAction] is true iff every precondition evaluates true,
    vacuously so for no preconditions; a false precondition makes it false
    whatever the preconditions after it are and whatever those before it
    answer; and [executeAction] raises the precondition-not-met error iff
    [canExecuteAction] is false (for the converse, the registered evaluators
    and the action's registered handler must not raise that very message
    themselves). *)
Theorem preconditions_gate (ex : ActionExecutor) (action : CraftAction)
    (item : Item) (context : JsVal) (w : World) :
  let holds c := evaluate (conditionEvaluator ex) c item context in
  (canExecuteAction ex action item context = Ok true
   <-> Forall (fun c => holds c = Ok true) (preconditions action))
  /\ (preconditions action = [] ->
      canExecuteAction ex action item context = Ok true)
  /\ (forall c, In c (preconditions action) -> holds c = Ok false ->
                canExecuteAction ex action item context <> Ok true)
  /\ (forall pre c post,
        preconditions action = (pre ++ c :: post)%list ->
        Forall (fun c' => exists b, holds c' = Ok b) pre ->
        holds c = Ok false ->
        canExecuteAction ex action item context = Ok false)
  /\ (canExecuteAction ex action item context = Ok false ->
      executeAction ex action item context w
      = (Throw (precondition_not_met action), w))
  /\ ((forall e, custom_error (conditionEvaluator ex) e ->
                 e <> precondition_not_met action) ->
      (forall handler w1 w2 e,
          lookup_named (act_customHandler action) (customHandlers ex) = Some handler ->
          handler item action context w1 = (Throw e, w2) ->
          e <> precondition_not_met action) ->
      forall w',
        executeAction ex action item context w
        = (Throw (precondition_not_met action), w') ->
        canExecuteAction ex action item context = Ok false).
Proof.
  intros holds.
  assert (Hiff : canExecuteAction ex action item context = Ok true
                 <-> Forall (fun c => holds c = Ok true) (preconditions action)).
  { apply every_true_iff. }
  split; [exact Hiff |].
  split; [intros Hnil; unfold canExecuteAction; rewrite Hnil; reflexivity |].
  split.
  { intros c Hin Hfalse Htrue. apply Hiff in Htrue.
    rewrite Forall_forall in Htrue.
    specialize (Htrue c (proj2 (list_elem_of_In _ _) Hin)). congruence. }
  split.
  { intros pre c post Hsplit Hpre Hc. unfold canExecuteAction. rewrite Hsplit.
    apply every_false_at; assumption. }
  split.
  { intros Hfalse. unfold executeAction, bind, liftR. rewrite Hfalse. reflexivity. }
  intros Hquiet_ev Hquiet_h w' Hthrow.
  assert (Heval : forall c e, holds c = Throw e -> e <> precondition_not_met action).
  { intros c e Hc. destruct (evaluate_throw _ _ _ _ _ Hc) as [He | He].
    - exact (evaluator_error_not_pnm action e He).
    - exact (Hquiet_ev e He). }
  unfold executeAction, bind, liftR in Hthrow.
  destruct (canExecuteAction ex action item context) as [[|] | e] eqn:Hcan;
    [| reflexivity |]; exfalso.
  - cbn [negb] in Hthrow.
    destruct (lookup_named _ _) as [handler |] eqn:Hh.
    + destruct (handler item action context w) as [[m | e] w1] eqn:Hrun;
        [discriminate |].
      injection Hthrow as He _. exact (Hquiet_h handler _ _ _ eq_refl Hrun He).
    + destruct (validOutcomes ex action item context) as [valid | e] eqn:Hvalid.
      * destruct valid as [| v valid']; [discriminate |].
        destruct (select_member (v :: valid') w) as (sel & w1 & Hs & _);
          [discriminate |].
        rewrite Hs in Hthrow.
        destruct (applyChanges ex item (changes sel) w1) as [[m | e] w2] eqn:Hch;
          [discriminate |].
        injection Hthrow as He _.
        exact (relink_error_not_pnm action e (applyChanges_throw _ _ _ _ _ _ Hch) He).
      * injection Hthrow as He _.
        apply filterR_throw in Hvalid as (o & _ & Ho).
        destruct (out_conditions o) as [cs |]; [| discriminate].
        apply every_throw in Ho as (c & _ & Hc).
        exact (Heval c e Hc He).
  - injection Hthrow as He _.
    apply every_throw in Hcan as (c & _ & Hc).
    exact (Heval c e Hc He).
Qed.

Lemma preconditions_gate_witness :
  canExecuteAction sample_executor normal_only_action sample_item JUndef = Ok false
  /\ executeAction sample_executor normal_only_action sample_item JUndef sample_world
     = (Throw "Cannot execute action Orb of Transmutation: preconditions not met",
        sample_world).
Proof.
  split; [reflexivity |].
  pose proof (preconditions_gate sample_executor normal_only_action sample_item
                JUndef sample_world) as H.
  cbv zeta in H. destruct H as (_ & _ & _ & _ & Hgate & _).
  exact (Hgate eq_refl).
Defined.

(** ** Loop steps *)

Section LoopStep.

Variable ge : GuideExecutor.
Variable exec : GuideStep -> Item -> G GuideStepResult.
Variable condition : option Condition.
Variable steps : option (list GuideStep).
Variable maxIterations : Z.

Lemma loop_while_unfold (fuel : nat) (iterations : Z) (currentItem : Item) :
  loop_while ge exec condition steps maxIterations fuel iterations currentItem
  = (holds <- eval_cond ge condition currentItem ;;
     if holds && (iterations <? maxIterations) then
       match fuel with
       | O => loop_finish ge condition maxIterations iterations currentItem
       | S fuel' =>
           match steps with
           | None => throw "step.steps is not iterable"
           | Some ss =>
               loop_body exec iterations
                 (loop_while ge exec condition steps maxIterations fuel'
                             (iterations + 1))
                 ss currentItem
           end
       end
     else loop_finish ge condition maxIterations iterations currentItem).
Proof. destruct fuel; reflexivity. Qed.

(** The equation of the [while]: no fuel is left in it. *)
Lemma loop_at_equation (iterations : Z) (currentItem : Item)
    (s : World * GuideExecutionState) :
  loop_at ge exec condition steps maxIterations iterations currentItem s
  = (holds <- eval_cond ge condition currentItem ;;
     if holds && (iterations <? maxIterations) then
       match steps with
       | None => throw "step.steps is not iterable"
       | Some ss =>
           loop_body exec iterations
             (loop_at ge exec condition steps maxIterations (iterations + 1))
             ss currentItem
       end
     else loop_finish ge condition maxIterations iterations currentItem) s.
Proof.
  unfold loop_at. rewrite loop_while_unfold. unfold bind.
  destruct (eval_cond ge condition currentItem s) as [[holds | e] s1]; [| reflexivity].
  destruct (iterations <? maxIterations) eqn:Hlt.
  - apply Z.ltb_lt in Hlt.
    replace (Z.to_nat (maxIterations - iterations))
      with (S (Z.to_nat (maxIterations - (iterations + 1)))) by lia.
    reflexivity.
  - rewrite andb_false_r. reflexivity.
Qed.

Lemma loop_body_completes (iterations : Z) (next : Item -> G GuideStepResult)
    (ss : list GuideStep) (cur cur' : Item) (s s' : World * GuideExecutionState) :
  steps_succeed exec ss cur s cur' s' ->
  loop_body exec iterations next ss cur s = next cur' s'.
Proof.
  induction 1 as [| step ss cur s r s1 cur' s' Hstep Hok _ IH]; [reflexivity |].
  cbn [loop_body]. unfold bind. rewrite Hstep, Hok. exact IH.
Qed.

Lemma loop_body_aborts (iterations : Z) (next : Item -> G GuideStepResult)
    (pre post : list GuideStep) (step : GuideStep) (cur cur' : Item)
    (s s' s'' : World * GuideExecutionState) (r : GuideStepResult) :
  steps_succeed exec pre cur s cur' s' ->
  exec step cur' s' = (Ok r, s'') ->
  success r = false ->
  loop_body exec iterations next (pre ++ step :: post) cur s
  = (Ok (set_message ("Loop iteration " +:+ pretty (iterations + 1)
                        +:+ " failed: " +:+ message r) r), s'').
Proof.
  intros Hpre Hstep Hfail.
  induction Hpre as [| st ss cur s r0 s1 cur' s' Hst Hok _ IH].
  - cbn [app loop_body]. unfold bind. rewrite Hstep, Hfail. reflexivity.
  - cbn [app loop_body]. unfold bind. rewrite Hst, Hok. exact (IH Hstep).
Qed.

Lemma loop_finish_result (iterations : Z) (cur : Item)
    (s s' : World * GuideExecutionState) (still : bool) :
  eval_cond ge condition cur s = (Ok still, s') ->
  exists r,
    loop_finish ge condition maxIterations iterations cur s = (Ok r, s')
    /\ success r = true
    /\ res_item r = cur
    /\ shouldLoop r = Some (still && (maxIterations <=? iterations)).
Proof.
  intros Hev. unfold loop_finish, bind. rewrite Hev.
  eexists. split; [reflexivity |]. repeat split.
Qed.

End LoopStep.

(** *** The quality scenario *)

(** C7: a Loop step repeats its body while its condition holds on the
    current item and the iteration count is below [maxIterations] (the
    step's own value, else [options.maxLoopIterations], else 10, an absent
    or zero value counting as not given); a failing sub-step aborts the loop
    at once with that failure, its message annotated with the iteration
    number; on exit the result is a success whose [shouldLoop] is true
    exactly when the condition still holds and the cap is reached.  With the
    condition quality < 3 and a body adding 1 to quality, from quality 0 the
    cap 5 gives 3 iterations, quality 3, [shouldLoop] false, and the cap 2
    gives quality 2, [shouldLoop] true. *)
Theorem loop_step_semantics (ge : GuideExecutor) (id description : string)
    (condition : option Condition) (steps : option (list GuideStep))
    (maxIter : option Z) (options : GuideExecutionOptions) :
  let maxIterations := loop_cap maxIter options in
  let exec := fun s cur => executeStep ge s cur options in
  let loop := loop_at ge exec condition steps maxIterations in
  ((forall n, maxIter = Some n -> n <> 0 -> maxIterations = n)
   /\ (maxIter = None \/ maxIter = Some 0 ->
       forall m, maxLoopIterations options = Some m -> m <> 0 -> maxIterations = m)
   /\ (maxIter = None \/ maxIter = Some 0 ->
       maxLoopIterations options = None \/ maxLoopIterations options = Some 0 ->
       maxIterations = 10))
  /\ (forall item s,
        executeStep ge (LoopStep id condition steps maxIter description) item options s
        = loop 0 item s)
  /\ (forall iterations cur s,
        loop iterations cur s
        = (holds <- eval_cond ge condition cur ;;
           if holds && (iterations <? maxIterations) then
             match steps with
             | None => throw "step.steps is not iterable"
             | Some ss => loop_body exec iterations (loop (iterations + 1)) ss cur
             end
           else loop_finish ge condition maxIterations iterations cur) s)
  /\ (forall iterations next ss cur cur' s s',
        steps_succeed exec ss cur s cur' s' ->
        loop_body exec iterations next ss cur s = next cur' s')
  /\ (forall iterations next pre step post cur cur' s s' s'' r,
        steps_succeed exec pre cur s cur' s' ->
        exec step cur' s' = (Ok r, s'') ->
        success r = false ->
        loop_body exec iterations next (pre ++ step :: post) cur s
        = (Ok (set_message ("Loop iteration " +:+ pretty (iterations + 1)
                              +:+ " failed: " +:+ message r) r), s''))
  /\ (forall iterations cur s s' still,
        eval_cond ge condition cur s = (Ok still, s') ->
        exists r,
          loop_finish ge condition maxIterations iterations cur s = (Ok r, s')
          /\ success r = true
          /\ res_item r = cur
          /\ shouldLoop r = Some (still && (maxIterations <=? iterations)))
  /\ observe (executeStep polish_executor (polish_loop 5) dull_item no_options fresh_state)
     = Some (true, 3, "Loop completed after 3 iterations", Some false, 3%nat)
  /\ observe (executeStep polish_executor (polish_loop 2) dull_item no_options fresh_state)
     = Some (true, 2, "Loop completed after 2 iterations (max iterations reached)",
             Some true, 2%nat).
Proof.
  intros maxIterations exec loop.
  split.
  { subst maxIterations. unfold loop_cap, num_or.
    repeat split.
    - intros n -> Hn. apply Z.eqb_neq in Hn. rewrite Hn. reflexivity.
    - intros Hown m -> Hm. apply Z.eqb_neq in Hm. rewrite Hm.
      destruct Hown as [-> | ->]; reflexivity.
    - intros Hown Hopt.
      destruct Hown as [-> | ->], Hopt as [-> | ->]; reflexivity. }
  split.
  { intros item s. subst loop. unfold loop_at. rewrite Z.sub_0_r. reflexivity. }
  split; [intros; apply loop_at_equation |].
  split; [intros; apply loop_body_completes; assumption |].
  split; [intros; eapply loop_body_aborts; eassumption |].
  split; [intros; apply loop_finish_result; assumption |].
  split; vm_compute; reflexivity.
Qed.

Lemma loop_step_semantics_witness :
  Some 5 = Some 5 /\ 5 <> 0
  /\ loop_cap (Some 5) no_options = 5
  /\ observe (executeStep polish_executor (polish_loop 5) dull_item no_options fresh_state)
     = Some (true, 3, "Loop completed after 3 iterations", Some false, 3%nat).
Proof.
  pose proof (loop_step_semantics polish_executor "s-loop" "Polish while quality < 3"
                (Some quality_below_3) (Some [polish_step]) (Some 5) no_options) as H.
  cbv zeta in H.
  destruct H as ((Hcap & _) & _ & _ & _ & _ & _ & Hrun & _).
  split; [reflexivity |]. split; [discriminate |].
  split; [apply (Hcap 5 eq_refl); discriminate | exact Hrun].
Defined.

(** ** Running a guide *)

Section ExecuteGuide.

Variable gm : GuideManager.
Variable guide : CraftGuide.
Variable options : GuideExecutionOptions.

Lemma run_steps_unfold (fuel : nat) (stepCount : Z) (results : list GuideStepResult) :
  run_steps gm guide options fuel stepCount results
  = (st <- get_state ;;
     if (currentStepIndex st <? steps_length guide)
        && (stepCount <? step_budget options) then
       match fuel with
       | O => ret (steps_length guide <=? currentStepIndex st, results)
       | S fuel' =>
           result <- executeNextStep gm options ;;
           let results := (results ++ [result])%list in
           if negb (success result) then ret (false, results)
           else run_steps gm guide options fuel' (stepCount + 1) results
       end
     else ret (steps_length guide <=? currentStepIndex st, results)).
Proof. destruct fuel; reflexivity. Qed.

(** The equation of the [while]: no fuel is left in it. *)
Lemma run_at_equation (stepCount : Z) (results : list GuideStepResult)
    (s : World * GuideExecutionState) :
  run_at gm guide options stepCount results s
  = (st <- get_state ;;
     if (currentStepIndex st <? steps_length guide)
        && (stepCount <? step_budget options) then
       result <- executeNextStep gm options ;;
       let results := (results ++ [result])%list in
       if negb (success result) then ret (false, results)
       else run_at gm guide options (stepCount + 1) results
     else ret (steps_length guide <=? currentStepIndex st, results)) s.
Proof.
  unfold run_at. rewrite run_steps_unfold. unfold bind, get_state.
  destruct (stepCount <? step_budget options) eqn:Hlt.
  - apply Z.ltb_lt in Hlt.
    replace (Z.to_nat (step_budget options - stepCount))
      with (S (Z.to_nat (step_budget options - (stepCount + 1)))) by lia.
    reflexivity.
  - rewrite andb_false_r. reflexivity.
Qed.

Lemma run_at_spec :
  forall (fuel : nat) (stepCount : Z) (results results' : list GuideStepResult)
         (s s' : World * GuideExecutionState) (b : bool),
    fuel = Z.to_nat (step_budget options - stepCount) ->
    run_at gm guide options stepCount results s = (Ok (b, results'), s') ->
    exists new,
      results' = (results ++ new)%list
      /\ (length new <= fuel)%nat
      /\ (b = true ->
          steps_length guide <= currentStepIndex s'.2 /\ Forall succeeded new)
      /\ (Forall succeeded new ->
          currentStepIndex s'.2 < steps_length guide ->
          b = false /\ length new = fuel).
Proof.
  induction fuel as [| fuel IH]; intros stepCount results results' s s' b Hfuel;
    rewrite run_at_equation; unfold bind, get_state; cbn [snd fst].
  - (* the budget is spent *)
    replace (stepCount <? step_budget options) with false
      by (symmetry; apply Z.ltb_ge; lia).
    rewrite andb_false_r. intros [= <- <- <-].
    exists []. rewrite app_nil_r. split; [reflexivity |]. split; [cbn; lia |].
    split.
    + intros Hb. apply Z.leb_le in Hb. split; [exact Hb | constructor].
    + intros _ Hlt. split; [apply Z.leb_gt; exact Hlt | reflexivity].
  - replace (stepCount <? step_budget options) with true
      by (symmetry; apply Z.ltb_lt; lia).
    rewrite andb_true_r.
    destruct (currentStepIndex s.2 <? steps_length guide) eqn:Hcur.
    + destruct (executeNextStep gm options s) as [[result | e] s1] eqn:Hnext;
        [| discriminate].
      cbv zeta. destruct (success result) eqn:Hok; cbn [negb].
      * intros Hrun.
        destruct (IH (stepCount + 1) _ _ _ _ _ ltac:(lia) Hrun)
          as (new & -> & Hlen & Htrue & Hcut).
        exists (result :: new). rewrite <- app_assoc. split; [reflexivity |].
        split; [cbn; lia |]. split.
        -- intros Hb. destruct (Htrue Hb) as (Hend & Hall).
           split; [exact Hend | constructor; assumption].
        -- intros Hall Hlt. inversion Hall as [| ? ? _ Hall']; subst.
           destruct (Hcut Hall' Hlt) as (-> & Hl).
           split; [reflexivity | cbn; rewrite Hl; reflexivity].
      * intros [= <- <- <-]. exists [result]. split; [reflexivity |].
        split; [cbn; lia |]. split; [discriminate |].
        intros Hall. inversion Hall as [| ? ? Hr _]; subst.
        unfold succeeded in Hr. congruence.
    + intros [= <- <- <-]. exists []. rewrite app_nil_r.
      split; [reflexivity |]. split; [cbn; lia |]. split.
      * intros Hb. apply Z.leb_le in Hb. split; [exact Hb | constructor].
      * intros _ Hlt. apply Z.ltb_ge in Hcur. lia.
Qed.

End ExecuteGuide.

(** *** A guide that never finishes *)

(** C8: [executeGuide] fails for an unknown guide; otherwise it starts from
    step 0 with no history and runs [executeNextStep] while the cursor is
    before the end and fewer than [options.maxSteps || 100] steps were
    taken, stopping at once when a step fails; its overall success is true
    only if the cursor reached the end (and then every recorded step
    succeeded); and when every recorded step succeeded but the cursor is
    still before the end, the overall success is false and exactly as many
    results are recorded as the budget allows, 100 by default. *)
Theorem executeGuide_budget (gm : GuideManager) (guideId : string)
    (item : Item) (options : GuideExecutionOptions) (w : World) :
  (guides gm !! guideId = None ->
   executeGuide gm guideId item options w
   = (Throw ("Guide not found: " +:+ guideId), w))
  /\ (forall guide,
        guides gm !! guideId = Some guide ->
        let start := mkState guideId (set_id (uuid_of (next_uuid w)) item) 0 []
                             (JObj []) in
        createExecutionState guideId item w = (Ok start, after_uuid w)
        /\ executeGuide gm guideId item options w
           = (out <- runG (run_at gm guide options 0 []) start ;;
              ret (mkRun out.1.1 out.2 out.1.2)) (after_uuid w)
        /\ (forall stepCount results s,
              run_at gm guide options stepCount results s
              = (st <- get_state ;;
                 if (currentStepIndex st <? steps_length guide)
                    && (stepCount <? step_budget options) then
                   result <- executeNextStep gm options ;;
                   let results := (results ++ [result])%list in
                   if negb (success result) then ret (false, results)
                   else run_at gm guide options (stepCount + 1) results
                 else ret (steps_length guide <=? currentStepIndex st, results)) s)
        /\ (forall run w',
              executeGuide gm guideId item options w = (Ok run, w') ->
              (length (results run) <= Z.to_nat (step_budget options))%nat
              /\ (run_success run = true ->
                  steps_length guide <= currentStepIndex (executionState run)
                  /\ Forall succeeded (results run))
              /\ (Forall succeeded (results run) ->
                  currentStepIndex (executionState run) < steps_length guide ->
                  run_success run = false
                  /\ length (results run) = Z.to_nat (step_budget options))))
  /\ (maxSteps options = None \/ maxSteps options = Some 0 ->
      Z.to_nat (step_budget options) = 100%nat)
  /\ (forall n, maxSteps options = Some n -> n <> 0 -> step_budget options = n)
  /\ observe_run (executeGuide endless_manager "g-1" dull_item no_options sample_world)
     = Some (false, 100%nat, true, 0).
Proof.
  split.
  { intros Hnone. unfold executeGuide. rewrite Hnone. reflexivity. }
  split.
  { intros guide Hguide start.
    assert (Hstart : executeGuide gm guideId item options w
                     = (out <- runG (run_at gm guide options 0 []) start ;;
                        ret (mkRun out.1.1 out.2 out.1.2)) (after_uuid w)).
    { unfold executeGuide, run_at. rewrite Hguide, Z.sub_0_r. reflexivity. }
    split; [reflexivity |]. split; [exact Hstart |].
    split; [intros; apply run_at_equation |].
    intros run w'. rewrite Hstart. unfold bind, runG, ret.
    destruct (run_at gm guide options 0 [] (after_uuid w, start))
      as [[[b rs] | e] [w2 st2]] eqn:Hrun; [| discriminate].
    intros [= <- <-]. cbn [results run_success executionState fst snd].
    destruct (run_at_spec gm guide options _ 0 [] rs _ _ b
                ltac:(rewrite Z.sub_0_r; reflexivity) Hrun)
      as (new & -> & Hlen & Htrue & Hcut).
    cbn [app fst snd] in *.
    split; [exact Hlen |]. split; [exact Htrue | exact Hcut]. }
  split.
  { unfold step_budget, num_or. intros [-> | ->]; reflexivity. }
  split.
  { unfold step_budget, num_or. intros n -> Hn. apply Z.eqb_neq in Hn.
    rewrite Hn. reflexivity. }
  vm_compute. reflexivity.
Qed.

Lemma executeGuide_budget_witness :
  guides endless_manager !! "g-1" = Some endless_guide
  /\ (maxSteps no_options = None \/ maxSteps no_options = Some 0)
  /\ Z.to_nat (step_budget no_options) = 100%nat
  /\ observe_run (executeGuide endless_manager "g-1" dull_item no_options sample_world)
     = Some (false, 100%nat, true, 0).
Proof.
  destruct (executeGuide_budget endless_manager "g-1" dull_item no_options sample_world)
    as (_ & _ & Hdefault & _ & Hrun).
  split; [reflexivity |]. split; [left; reflexivity |].
  split; [exact (Hdefault (or_introl eq_refl)) | exact Hrun].
Defined.

(** ** Guide export and import *)

Lemma JsVal_nested_ind (P : JsVal -> Prop) :
  P JUndef -> P JNull -> (forall b, P (JBool b)) -> (forall n, P (JNum n)) ->
  P JNaN -> (forall s, P (JStr s)) ->
  (forall l, Forall P l -> P (JArr l)) ->
  (forall l, Forall (fun kv => P (snd kv)) l -> P (JObj l)) ->
  forall v, P v.
Proof.
  intros Hu Hn Hb Hz Hnan Hs Ha Ho. fix IH 1.
  intros [| | b | n | | s | l | l];
    [exact Hu | exact Hn | apply Hb | apply Hz | exact Hnan | apply Hs | |].
  - apply Ha. induction l as [| x l IHl]; constructor; [apply IH | exact IHl].
  - apply Ho. induction l as [| [k x] l IHl]; constructor; [apply IH | exact IHl].
Qed.

Lemma map_id_on {A} (f : A -> A) (l : list A) :
  Forall (fun x => f x = x) l -> map f l = l.
Proof. induction 1 as [| x l Hx _ IH]; cbn; [reflexivity |]. rewrite Hx, IH. reflexivity. Qed.

Lemma forallb_Forall_impl {A} (p : A -> bool) (Q : A -> Prop) (l : list A) :
  Forall (fun x => p x = true -> Q x) l -> forallb p l = true -> Forall Q l.
Proof.
  induction 1 as [| x l Hx _ IH]; cbn; [constructor |].
  intros H. apply andb_prop in H as (Hp & Hl). constructor; auto.
Qed.

Lemma is_json_value (v : JsVal) : is_json v = true -> json_value v = v.
Proof.
  induction v as [| | b | n | | s | l IH | l IH] using JsVal_nested_ind;
    cbn [is_json json_value]; try reflexivity; try discriminate.
  - intros H. f_equal. apply map_id_on. exact (forallb_Forall_impl _ _ _ IH H).
  - intros H. f_equal. induction IH as [| [k x] l Hx _ IHl]; [reflexivity |].
    cbn in H. apply andb_prop in H as (Hx' & Hl).
    cbn in Hx. rewrite (Hx Hx'), (IHl Hl).
    destruct x; try reflexivity. discriminate.
Qed.

Lemma is_json_field_value (v : JsVal) : is_json_field v = true -> json_field v = v.
Proof.
  destruct v; cbn [is_json_field json_field]; try reflexivity;
    intros H; exact (is_json_value _ H).
Qed.

Lemma json_faithful_condition_id (c : Condition) :
  json_faithful_condition c = true -> json_condition c = c.
Proof.
  induction c as [id type op target value custom
                 | id type op target value cs custom IH] using Condition_nested_ind;
    cbn [json_faithful_condition json_condition]; intros H;
    apply andb_prop in H as (Hv & Hcs); rewrite (is_json_field_value _ Hv).
  - reflexivity.
  - rewrite (map_id_on _ _ (forallb_Forall_impl _ _ _ IH Hcs)). reflexivity.
Qed.

Lemma GuideStep_nested_ind (P : GuideStep -> Prop) :
  (forall id actionId description notes,
      P (LinearStep id actionId description notes)) ->
  (forall id condition trueStep falseStep description,
      on_some P trueStep -> on_some P falseStep ->
      P (ConditionalStep id condition trueStep falseStep description)) ->
  (forall id branches description,
      on_some (Forall (fun b : Condition * list GuideStep * string =>
                         Forall P (snd (fst b)))) branches ->
      P (BranchStep id branches description)) ->
  (forall id condition steps maxIterations description,
      on_some (Forall P) steps ->
      P (LoopStep id condition steps maxIterations description)) ->
  (forall type id, P (OtherStep type id)) ->
  forall s, P s.
Proof.
  intros Hlin Hcond Hbranch Hloop Hother. fix IH 1.
  intros [id a d n | id c t f d | id bs d | id c ss m d | type id].
  - apply Hlin.
  - apply Hcond; [destruct t | destruct f]; cbn; try exact I; apply IH.
  - apply Hbranch. destruct bs as [bs |]; cbn; [| exact I].
    induction bs as [| [[c ss] label] bs IHbs]; constructor; [| exact IHbs].
    cbn. induction ss as [| s ss IHss]; constructor; [apply IH | exact IHss].
  - apply Hloop. destruct ss as [ss |]; cbn; [| exact I].
    induction ss as [| s ss IHss]; constructor; [apply IH | exact IHss].
  - apply Hother.
Qed.

Lemma json_faithful_step_id (s : GuideStep) :
  json_faithful_step s = true -> json_step s = s.
Proof.
  induction s as [id a d n | id c t f d Ht Hf | id bs d Hbs | id c ss m d Hss | type id]
    using GuideStep_nested_ind;
    cbn [json_faithful_step json_step]; try reflexivity; intros H.
  - apply andb_prop in H as (H & Hf'). apply andb_prop in H as (Hc & Ht').
    f_equal.
    + destruct c as [c |]; [| reflexivity]. cbn.
      rewrite (json_faithful_condition_id c Hc). reflexivity.
    + destruct t as [t |]; [| reflexivity]. cbn in Ht. rewrite (Ht Ht'). reflexivity.
    + destruct f as [f |]; [| reflexivity]. cbn in Hf. rewrite (Hf Hf'). reflexivity.
  - destruct bs as [bs |]; [| reflexivity]. cbn in Hbs. do 2 f_equal.
    apply map_id_on.
    refine (forallb_Forall_impl _ _ _ _ H).
    eapply Forall_impl; [exact Hbs |].
    intros [[c ss] label] Hall Hb. cbn in Hall.
    apply andb_prop in Hb as (Hc & Hss).
    rewrite (json_faithful_condition_id c Hc).
    rewrite (map_id_on _ _ (forallb_Forall_impl _ _ _ Hall Hss)). reflexivity.
  - apply andb_prop in H as (Hc & Hss').
    f_equal.
    + destruct c as [c |]; [| reflexivity]. cbn.
      rewrite (json_faithful_condition_id c Hc). reflexivity.
    + destruct ss as [ss |]; [| reflexivity]. cbn in Hss.
      rewrite (map_id_on _ _ (forallb_Forall_impl _ _ _ Hss Hss')). reflexivity.
Qed.

Lemma json_faithful_guide_id (g : CraftGuide) :
  json_faithful g = true -> json_guide g = g.
Proof.
  unfold json_faithful, json_guide. intros H.
  repeat (apply andb_prop in H as (H & ?)).
  rewrite !is_json_field_value by assumption.
  rewrite (map_id_on json_step (guide_steps g)).
  - destruct g; reflexivity.
  - refine (forallb_Forall_impl _ _ _ _ ltac:(eassumption)).
    apply Forall_forall. intros s _. apply json_faithful_step_id.
Qed.

(** Serialisation keeps what [validateStep] looks at: the type of a step and
    which of its fields are present or empty. *)
Lemma validateStep_json (s : GuideStep) (index : nat) :
  validateStep (json_step s) index = validateStep s index.
Proof.
  destruct s as [id a d n | id c t f d | id bs d | id c ss m d | type id];
    cbn [json_step validateStep step_type]; try reflexivity.
  - destruct c, t, f; reflexivity.
  - destruct bs as [[| b bs] |]; reflexivity.
  - destruct c, ss as [[| s ss] |]; reflexivity.
Qed.

Lemma imap_map_validate (l : list GuideStep) (k : nat) :
  imap (fun index step => validateStep step (k + index)) (map json_step l)
  = imap (fun index step => validateStep step (k + index)) l.
Proof.
  revert k. induction l as [| s l IH]; intros k; [reflexivity |].
  cbn. rewrite validateStep_json. f_equal.
  unfold compose.
  rewrite (imap_ext _ (fun index step => validateStep step (S k + index))
             (map json_step l)) by (intros; f_equal; lia).
  rewrite (imap_ext (fun n : nat => (fun index step => validateStep step (k + index)) (S n))
             (fun index step => validateStep step (S k + index))
             l) by (intros; cbn; f_equal; lia).
  apply IH.
Qed.

Lemma validateGuide_json (g : CraftGuide) :
  validateGuide (json_guide g) = validateGuide g.
Proof.
  unfold validateGuide. cbn [guide_steps json_guide hasCircularReferences].
  f_equal. f_equal. exact (imap_map_validate (guide_steps g) 0).
Qed.

Lemma isValid_nil (errors : list string) : isValid errors = true <-> errors = [].
Proof. destruct errors; cbn; split; congruence. Qed.

(** C9, as amended: for a stored guide that passes validation,
    [importGuide(exportGuide(g))] succeeds and stores, under a fresh id and
    fresh timestamps, the guide that JSON reads back from [g]; that guide
    equals [g] in all other fields whenever the data of [g] are carried by
    JSON unchanged (no [undefined] or NaN nested in its values).  For an
    invalid parsed guide [importGuide] fails with one error that lists every
    validation failure of every step. *)
Theorem guide_round_trip (gm : GuideManager) (w : World) :
  (forall guideId g,
      guides gm !! guideId = Some g ->
      validateGuide g = [] ->
      let imported :=
        restamp (uuid_of (next_uuid w)) (clock w) (clock w) (json_guide g) in
      exportGuide gm guideId w = (Ok (JsonText (json_guide g)), w)
      /\ importGuide gm (JsonText (json_guide g)) w
         = (Ok (imported, store imported gm), after_uuid w)
      /\ guide_id imported = uuid_of (next_uuid w)
      /\ createdAt imported = clock w
      /\ updatedAt imported = clock w
      /\ (issued_before w (guide_id g) -> guide_id imported <> guide_id g)
      /\ (json_faithful g = true -> same_content imported g))
  /\ (forall doc,
        validateGuide (JSON_parse doc) <> [] ->
        importGuide gm doc w
        = (Throw ("Invalid guide: " +:+ join ", " (validateGuide (JSON_parse doc))), w))
  /\ (forall doc index step e,
        guide_steps (JSON_parse doc) !! index = Some step ->
        In e (validateStep step index) ->
        In e (validateGuide (JSON_parse doc))).
Proof.
  split; [| split].
  - intros guideId g Hg Hvalid imported.
    split; [unfold exportGuide; rewrite Hg; reflexivity |].
    split.
    { unfold importGuide. cbn [JSON_parse]. rewrite validateGuide_json, Hvalid.
      reflexivity. }
    split; [reflexivity |]. split; [reflexivity |]. split; [reflexivity |].
    split; [intros Hissued; cbn; apply uuidv4_fresh; exact Hissued |].
    intros Hfaithful. subst imported.
    rewrite (json_faithful_guide_id g Hfaithful).
    unfold same_content. cbn. repeat split.
  - intros doc Hinvalid. unfold importGuide.
    destruct (isValid (validateGuide (JSON_parse doc))) eqn:Hv; [| reflexivity].
    apply isValid_nil in Hv. contradiction.
  - intros doc index step e Hstep He. unfold validateGuide.
    cbn [hasCircularReferences]. rewrite app_nil_r.
    apply in_concat. exists (validateStep step index). split; [| exact He].
    apply list_elem_of_In, list_elem_of_lookup. exists index.
    rewrite list_lookup_imap, Hstep. reflexivity.
Qed.

Lemma guide_round_trip_witness :
  guides endless_manager !! "g-1" = Some endless_guide
  /\ validateGuide endless_guide = []
  /\ json_faithful endless_guide = true
  /\ same_content
       (restamp "uuid-0" 0 0 (json_guide endless_guide)) endless_guide.
Proof.
  split; [reflexivity |]. split; [reflexivity |]. split; [reflexivity |].
  destruct (guide_round_trip endless_manager sample_world) as (Hrt & _).
  specialize (Hrt "g-1" endless_guide eq_refl eq_refl). cbv zeta in Hrt.
  destruct Hrt as (_ & _ & _ & _ & _ & _ & Hsame).
  exact (Hsame eq_refl).
Defined.

(** C9 as stated fails: a stored, valid guide whose success rate is NaN
    comes back from export and import with the success rate [null]. *)
Lemma import_export_changes_guide :
  guides unrated_manager !! "uuid-0" = Some unrated_guide
  /\ validateGuide unrated_guide = []
  /\ exportGuide unrated_manager "uuid-0" (mkWorld 1 [] 0 [])
     = (Ok (JsonText (json_guide unrated_guide)), mkWorld 1 [] 0 [])
  /\ successRate <$> imported_guide
       (importGuide unrated_manager (JsonText (json_guide unrated_guide))
                    (mkWorld 1 [] 0 []))
     = Some JNull
  /\ successRate unrated_guide = JNaN.
Proof. repeat split. Qed.

(** * Further properties *)

(** ** Items: properties *)

Lemma set_properties_same (item : Item) : set_properties (properties item) item = item.
Proof. destruct item; reflexivity. Qed.

Lemma set_modifiers_same (item : Item) : set_modifiers (modifiers item) item = item.
Proof. destruct item; reflexivity. Qed.


(** X2: [removeProperty] removes the entry stored under the name and leaves
    every other name alone: afterwards the name reads no value, and
    [hasProperty] still answers true for it exactly when it is one of the
    names that every object inherits ([toString], [constructor], ...).
    Removing a name that is not stored changes nothing, and removing a name
    right after adding it to an item that lacked it gives the item back. *)
Theorem removeProperty_forgets (item : Item) (name : string) :
  properties (removeProperty item name) !! name = None
  /\ hasProperty (removeProperty item name) (JStr name) = inherited name
  /\ getPropertyValue (removeProperty item name) (Some name) = JUndef
  /\ (forall other, other <> name ->
        properties (removeProperty item name) !! other = properties item !! other)
  /\ (properties item !! name = None ->
      removeProperty item name = item
      /\ forall value type w item' w',
           addProperty item name value type w = (Ok item', w') ->
           removeProperty item' name = item).
Proof.
  unfold hasProperty, getPropertyValue, removeProperty. cbn.
  rewrite lookup_delete_eq.
  split; [reflexivity |].
  split.
  { rewrite bool_decide_eq_false_2 by (intros [x Hx]; discriminate). reflexivity. }
  split; [reflexivity |].
  split; [intros other Hne; apply lookup_delete_ne; congruence |].
  intros Hnone. split.
  - rewrite delete_id by assumption. apply set_properties_same.
  - intros value type w item' w' Hadd. inversion Hadd; subst. cbn.
    rewrite delete_insert_eq, delete_id by assumption.
    destruct item; reflexivity.
Qed.

Lemma removeProperty_forgets_witness :
  properties armed_item !! "toString" = None
  /\ removeProperty armed_item "toString" = armed_item
  /\ hasProperty (removeProperty armed_item "damage") (JStr "damage") = false
  /\ hasProperty (removeProperty armed_item "toString") (JStr "toString") = true.
Proof.
  split; [reflexivity |].
  split.
  { exact (proj1 (proj2 (proj2 (proj2 (proj2
             (removeProperty_forgets armed_item "toString")))) eq_refl)). }
  split.
  - exact (proj1 (proj2 (removeProperty_forgets armed_item "damage"))).
  - exact (proj1 (proj2 (removeProperty_forgets armed_item "toString"))).
Defined.

(** X3: on a name that is a property, [updateProperty] replaces the value
    and keeps the id, name and type tag of the property; it never adds or
    removes a property name, and every other property is untouched. *)
Theorem updateProperty_present (item : Item) (name : string) (value : JsVal)
    (p : ItemProperty) :
  properties item !! name = Some p ->
  properties (updateProperty item name value) !! name
  = Some (mkProperty (prop_id p) (prop_name p) value (prop_type p))
  /\ getPropertyValue (updateProperty item name value) (Some name) = value
  /\ (forall other, other <> name ->
        properties (updateProperty item name value) !! other
        = properties item !! other)
  /\ (forall key, hasProperty (updateProperty item name value) key
                  = hasProperty item key).
Proof.
  intros Hp. unfold updateProperty, getPropertyValue, hasProperty. rewrite Hp. cbn.
  rewrite lookup_insert_eq.
  split; [reflexivity |]. split; [reflexivity |].
  split; [intros other Hne; apply lookup_insert_ne; congruence |].
  intros key. f_equal. apply bool_decide_ext.
  destruct (decide (name = to_string key)) as [<- | Hne].
  - rewrite lookup_insert_eq, Hp. split; eauto.
  - rewrite lookup_insert_ne by assumption. reflexivity.
Qed.

Lemma updateProperty_present_witness :
  properties armed_item !! "damage" = Some (mkProperty "p-1" "damage" (JNum 10) TNumber)
  /\ getPropertyValue (updateProperty armed_item "damage" (JNum 12)) (Some "damage")
     = JNum 12.
Proof.
  split; [reflexivity |].
  exact (proj1 (proj2 (updateProperty_present armed_item "damage" (JNum 12) _ eq_refl))).
Defined.

(** ** Items: modifiers *)

Lemma filter_all {A} (p : A -> bool) (l : list A) :
  (forall x, In x l -> p x = true) -> List.filter p l = l.
Proof.
  induction l as [| x l IH]; intros H; [reflexivity |].
  cbn. rewrite (H x (or_introl eq_refl)). f_equal.
  apply IH. intros y Hy. apply H. right. exact Hy.
Qed.

(** X4: [removeModifier] drops exactly the modifiers with the given id and
    keeps the others; with no such modifier it returns the item unchanged; and
    removing a modifier by its id right after appending it restores the item,
    provided no other modifier of the item shares that id. *)
Theorem removeModifier_by_id (item : Item) (modifierId : string) :
  (forall m, In m (modifiers (removeModifier item modifierId))
             <-> In m (modifiers item) /\ mod_id m <> modifierId)
  /\ ((forall m, In m (modifiers item) -> mod_id m <> modifierId) ->
      removeModifier item modifierId = item)
  /\ (forall m,
        mod_id m = modifierId ->
        (forall m', In m' (modifiers item) -> mod_id m' <> modifierId) ->
        removeModifier (addModifier item m) modifierId = item).
Proof.
  assert (Hkeep : forall l : list ItemModifier,
             (forall m, In m l -> mod_id m <> modifierId) ->
             List.filter (fun m => negb (String.eqb (mod_id m) modifierId)) l = l).
  { intros l H. apply filter_all. intros m Hm.
    apply negb_true_iff, String.eqb_neq. exact (H m Hm). }
  split; [| split].
  - intros m. unfold removeModifier. cbn. rewrite List.filter_In.
    rewrite negb_true_iff, String.eqb_neq. reflexivity.
  - intros Hnone. unfold removeModifier. rewrite (Hkeep _ Hnone).
    apply set_modifiers_same.
  - intros m Hid Hnone. unfold removeModifier, addModifier. cbn.
    rewrite List.filter_app, (Hkeep _ Hnone). cbn.
    rewrite Hid, String.eqb_refl. cbn. rewrite app_nil_r.
    destruct item; reflexivity.
Qed.

Lemma removeModifier_by_id_witness :
  mod_id fire_modifier = "m-fire"
  /\ removeModifier (addModifier sample_item fire_modifier) "m-fire" = sample_item.
Proof.
  split; [reflexivity |].
  apply (proj2 (proj2 (removeModifier_by_id sample_item "m-fire")) fire_modifier eq_refl).
  intros m' [].
Defined.

(** ** Items: sockets *)

Lemma same_value_zero_str (a b : string) :
  same_value_zero (JStr a) (JStr b) = String.eqb a b.
Proof. reflexivity. Qed.

Lemma existsb_ids (id : string) (ids : list string) :
  existsb (same_value_zero (JStr id)) (map JStr ids) = bool_decide (id ∈ ids).
Proof.
  induction ids as [| x ids IH]; cbn.
  - symmetry. apply bool_decide_eq_false. apply not_elem_of_nil.
  - rewrite IH. destruct (String.eqb id x) eqn:Heq; cbn.
    + apply String.eqb_eq in Heq as ->. symmetry. apply bool_decide_eq_true.
      apply elem_of_cons. left. reflexivity.
    + apply String.eqb_neq in Heq. apply bool_decide_ext.
      rewrite elem_of_cons. tauto.
Qed.

Lemma filter_ids (id : string) (ids : list string) :
  List.filter (fun x => negb (strict_eq x (JStr id))) (map JStr ids)
  = map JStr (List.filter (fun x => negb (String.eqb x id)) ids).
Proof.
  induction ids as [| x ids IH]; [reflexivity |].
  cbn. rewrite IH. destruct (String.eqb x id); reflexivity.
Qed.

Lemma linkSockets_ids (item : Item) (socketIds : list string) (w : World) :
  linkSockets item (JArr (map JStr socketIds)) w
  = (Ok (set_sockets (map (relinked socketIds) (sockets item)) item), w).
Proof.
  unfold linkSockets, bind.
  assert (H : forall ss w0,
             mapM (relink (JArr (map JStr socketIds))) ss w0
             = (Ok (map (relinked socketIds) ss), w0)).
  { induction ss as [| s ss IH]; intros w0; [reflexivity |].
    rewrite mapM_cons. cbn [map]. unfold relink.
    rewrite existsb_ids, filter_ids. unfold relinked at 1.
    destruct (bool_decide (sock_id s ∈ socketIds)); unfold ret; rewrite IH;
      reflexivity. }
  rewrite H. reflexivity.
Qed.

(** X5: [linkSockets] with a list of socket ids keeps the sockets, their
    order, ids and colours; a socket whose id is in the list gets as links
    exactly the other ids of the list, so any two distinct listed sockets
    link to each other; a socket whose id is not in the list is untouched. *)
Theorem linkSockets_symmetric (item : Item) (socketIds : list string) (w : World) :
  exists item',
    linkSockets item (JArr (map JStr socketIds)) w = (Ok item', w)
    /\ map sock_id (sockets item') = map sock_id (sockets item)
    /\ map sock_color (sockets item') = map sock_color (sockets item)
    /\ (forall i s, sockets item !! i = Some s -> sock_id s ∈ socketIds ->
          exists s', sockets item' !! i = Some s'
                     /\ forall other, JStr other ∈ sock_links s'
                                      <-> other ∈ socketIds /\ other <> sock_id s)
    /\ (forall a b, a ∈ sockets item' -> b ∈ sockets item' ->
          sock_id a ∈ socketIds -> sock_id b ∈ socketIds ->
          sock_id a <> sock_id b ->
          JStr (sock_id b) ∈ sock_links a /\ JStr (sock_id a) ∈ sock_links b)
    /\ (forall i s, sockets item !! i = Some s -> sock_id s ∉ socketIds ->
          sockets item' !! i = Some s).
Proof.
  eexists. split; [apply linkSockets_ids |]. cbn [sockets set_sockets].
  assert (Hid : forall s, sock_id (relinked socketIds s) = sock_id s).
  { intros s. unfold relinked. destruct (bool_decide _); reflexivity. }
  assert (Hlinks : forall s other,
             sock_id s ∈ socketIds ->
             JStr other ∈ sock_links (relinked socketIds s)
             <-> other ∈ socketIds /\ other <> sock_id s).
  { intros s other Hin. unfold relinked.
    rewrite (bool_decide_eq_true_2 _ Hin). cbn.
    rewrite list_elem_of_fmap. split.
    - intros (x & [= <-] & Hx). apply list_elem_of_In, List.filter_In in Hx as (Hx & Hne).
      apply negb_true_iff, String.eqb_neq in Hne.
      split; [apply list_elem_of_In; exact Hx | exact Hne].
    - intros (Hx & Hne). exists other. split; [reflexivity |].
      apply list_elem_of_In, List.filter_In. split; [apply list_elem_of_In; exact Hx |].
      apply negb_true_iff, String.eqb_neq. exact Hne. }
  split.
  { rewrite map_map. apply map_ext. exact Hid. }
  split.
  { rewrite map_map. apply map_ext. intros s. unfold relinked.
    destruct (bool_decide _); reflexivity. }
  split.
  { intros i s Hs Hin. exists (relinked socketIds s).
    split; [rewrite list_lookup_fmap, Hs; reflexivity |].
    intros other. apply Hlinks. exact Hin. }
  split.
  { intros a b Ha Hb. apply list_elem_of_fmap in Ha as (a0 & -> & _).
    apply list_elem_of_fmap in Hb as (b0 & -> & _).
    rewrite !Hid. intros Hain Hbin Hne.
    split; apply Hlinks; auto. }
  intros i s Hs Hout. rewrite list_lookup_fmap, Hs. cbn. unfold relinked.
  rewrite (bool_decide_eq_false_2 _ Hout). reflexivity.
Qed.

Lemma linkSockets_symmetric_witness :
  sockets socketed_item !! 0%nat = Some (mkSocket "s-1" (JStr "red") [])
  /\ "s-1" ∈ ["s-1"; "s-2"]
  /\ linkSockets socketed_item (JArr (map JStr ["s-1"; "s-2"])) sample_world
     = (Ok (set_sockets [mkSocket "s-1" (JStr "red") [JStr "s-2"];
                         mkSocket "s-2" (JStr "green") [JStr "s-1"];
                         mkSocket "s-3" (JStr "blue") [JStr "s-1"]] sample_item),
        sample_world).
Proof.
  split; [reflexivity |]. split; [apply elem_of_cons; left; reflexivity |].
  destruct (linkSockets_symmetric socketed_item ["s-1"; "s-2"] sample_world)
    as (item' & Hrun & _).
  rewrite Hrun. vm_compute in Hrun. injection Hrun as <-. reflexivity.
Defined.

(** ** Items: validation *)

Lemma flat_map_nil {A B} (f : A -> list B) (l : list A) :
  flat_map f l = [] -> forall x, In x l -> f x = [].
Proof.
  induction l as [| y l IH]; cbn; intros H x Hx; [destruct Hx |].
  apply app_eq_nil in H as (Hy & Hl).
  destruct Hx as [<- | Hx]; [exact Hy | exact (IH Hl x Hx)].
Qed.

Lemma filter_nil {A} (p : A -> bool) (l : list A) :
  List.filter p l = [] -> forall x, In x l -> p x = false.
Proof.
  induction l as [| y l IH]; cbn; intros H x Hx; [destruct Hx |].
  destruct (p y) eqn:Hy; [discriminate |].
  destruct Hx as [<- | Hx]; [exact Hy | exact (IH H x Hx)].
Qed.

Lemma index_of_Some (x : JsVal) (l : list JsVal) (k : nat) :
  index_of x l = Some k -> exists y, l !! k = Some y /\ strict_eq y x = true.
Proof.
  revert k. induction l as [| y l IH]; intros k; cbn; [discriminate |].
  destruct (strict_eq y x) eqn:Hy.
  - intros [= <-]. exists y. split; [reflexivity | exact Hy].
  - destruct (index_of x l) as [j |]; cbn; [| discriminate].
    intros [= <-]. exact (IH j eq_refl).
Qed.

Lemma strict_eq_opt_str (a b : option string) :
  strict_eq (opt_str a) (opt_str b) = true -> a = b.
Proof.
  destruct a, b; cbn; try discriminate; try reflexivity.
  intros H. apply String.eqb_eq in H. congruence.
Qed.

Lemma same_value_zero_JStr (a : string) (e : JsVal) :
  same_value_zero (JStr a) e = true -> e = JStr a.
Proof.
  destruct e; cbn; try discriminate. intros H. apply String.eqb_eq in H. congruence.
Qed.

Lemma strict_eq_JStr (a : string) (e : JsVal) :
  strict_eq (JStr a) e = true -> e = JStr a.
Proof.
  destruct e; cbn; try discriminate. intros H. apply String.eqb_eq in H. congruence.
Qed.

Lemma duplicates_nil_NoDup (names : list (option string)) :
  duplicates (map opt_str names) = [] -> NoDup names.
Proof.
  intros H. apply NoDup_alt. intros i j x Hi Hj.
  assert (Hpos : forall k, names !! k = Some x ->
                           index_of (opt_str x) (map opt_str names) = Some k).
  { intros k Hk. unfold duplicates in H. apply map_eq_nil in H.
    pose proof (filter_nil _ _ H (k, opt_str x)) as Hf.
    assert (Hin : In (k, opt_str x) (imap (fun i x => (i, x)) (map opt_str names))).
    { apply list_elem_of_In.
      apply (elem_of_lookup_imap_2 (fun i x => (i, x))).
      rewrite list_lookup_fmap, Hk. reflexivity. }
    specialize (Hf Hin). cbn in Hf. apply negb_false_iff in Hf.
    apply bool_decide_eq_true in Hf. exact Hf. }
  pose proof (Hpos i Hi) as H1. pose proof (Hpos j Hj) as H2. congruence.
Qed.

(** X6: an item that [validateItem] accepts keeps the invariants of the
    model: no more prefixes and suffixes than its rarity allows, no two
    modifiers of the same name, and every link of every socket names an
    existing socket that links back. *)
Theorem validateItem_sound (item : Item) :
  validateItem item = [] ->
  getPrefixCount item <= (getMaxModifiers item).1
  /\ getSuffixCount item <= (getMaxModifiers item).2
  /\ NoDup (map mod_name (modifiers item))
  /\ (forall socket linkedId,
        In socket (sockets item) -> In linkedId (sock_links socket) ->
        exists linked,
          In linked (sockets item)
          /\ linkedId = JStr (sock_id linked)
          /\ In (JStr (sock_id socket)) (sock_links linked)).
Proof.
  unfold validateItem. cbv zeta. intros H.
  apply app_eq_nil in H as (Hpre & H).
  apply app_eq_nil in H as (Hsuf & H).
  apply app_eq_nil in H as (Hdup & Hlinks).
  split; [| split; [| split]].
  - destruct (_ <? getPrefixCount item) eqn:Hlt; [discriminate |].
    apply Z.ltb_ge in Hlt. exact Hlt.
  - destruct (_ <? getSuffixCount item) eqn:Hlt; [discriminate |].
    apply Z.ltb_ge in Hlt. exact Hlt.
  - apply duplicates_nil_NoDup. rewrite map_map.
    destruct (duplicates _) eqn:Hd; [reflexivity | discriminate].
  - intros socket linkedId Hs Hl.
    pose proof (flat_map_nil _ _ Hlinks socket Hs) as Hsock.
    unfold link_errors in Hsock.
    pose proof (flat_map_nil _ _ Hsock linkedId Hl) as Hone. cbn beta in Hone.
    destruct (List.find _ (sockets item)) as [linked |] eqn:Hfind; [| discriminate].
    apply List.find_some in Hfind as (Hin & Hid).
    destruct (existsb _ (sock_links linked)) eqn:Hback; [| discriminate].
    apply List.existsb_exists in Hback as (e & He & Hsame).
    exists linked. split; [exact Hin |].
    split; [exact (strict_eq_JStr _ _ Hid) |].
    rewrite <- (same_value_zero_JStr _ _ Hsame). exact He.
Qed.

Lemma validateItem_sound_witness :
  validateItem crafted_item = []
  /\ getPrefixCount crafted_item = 1 /\ getSuffixCount crafted_item = 1
  /\ getMaxModifiers crafted_item = (3, 3)
  /\ NoDup (map mod_name (modifiers crafted_item))
  /\ exists linked,
       In linked (sockets crafted_item)
       /\ JStr "s-2" = JStr (sock_id linked)
       /\ In (JStr "s-1") (sock_links linked).
Proof.
  destruct (validateItem_sound crafted_item eq_refl) as (_ & _ & Hnames & Hlinks).
  split; [reflexivity |]. split; [reflexivity |]. split; [reflexivity |].
  split; [reflexivity |]. split; [exact Hnames |].
  exact (Hlinks (mkSocket "s-1" (JStr "red") [JStr "s-2"]) (JStr "s-2")
           (or_introl eq_refl) (or_introl eq_refl)).
Defined.

(** X7: [canAddModifier] guards the limits that [validateItem] checks: it is
    false on a corrupted item (so on every item [corruptItem] returns) and on a
    normal item; when it is true for a prefix (a suffix), appending one more
    prefix (suffix) stays within the limit of the rarity; and every type other
    than prefix is counted against the suffix limit. *)
Theorem canAddModifier_guards (item : Item) (modifierType : ModType)
    (m : ItemModifier) :
  (isCorrupted item = true -> canAddModifier item modifierType = false)
  /\ canAddModifier (corruptItem item) modifierType = false
  /\ (rarity item = Normal -> canAddModifier item modifierType = false)
  /\ (canAddModifier item Prefix = true -> mod_type m = Prefix ->
      getPrefixCount (addModifier item m) <= (getMaxModifiers (addModifier item m)).1)
  /\ (canAddModifier item Suffix = true -> mod_type m = Suffix ->
      getSuffixCount (addModifier item m) <= (getMaxModifiers (addModifier item m)).2)
  /\ (modifierType <> Prefix ->
      canAddModifier item modifierType = canAddModifier item Suffix).
Proof.
  assert (Hcount : forall t, mod_type m = t ->
             Z.of_nat (length (List.filter (is_modtype t) (modifiers (addModifier item m))))
             = Z.of_nat (length (List.filter (is_modtype t) (modifiers item))) + 1).
  { intros t Ht. cbn. rewrite List.filter_app, length_app. cbn.
    unfold is_modtype at 2. rewrite Ht, String.eqb_refl. cbn. lia. }
  split; [| split; [| split; [| split; [| split]]]].
  - intros Hc. unfold canAddModifier. rewrite Hc. reflexivity.
  - reflexivity.
  - intros Hr. unfold canAddModifier, getMaxModifiers. rewrite Hr.
    destruct (isCorrupted item); [reflexivity |].
    destruct (String.eqb _ "prefix"); cbn; apply Z.ltb_ge;
      unfold getPrefixCount, getSuffixCount; lia.
  - unfold canAddModifier. destruct (isCorrupted item); [discriminate |].
    cbn. intros Hlt Ht. apply Z.ltb_lt in Hlt.
    unfold getPrefixCount in *. rewrite (Hcount Prefix Ht).
    change (getMaxModifiers (addModifier item m)) with (getMaxModifiers item). lia.
  - unfold canAddModifier. destruct (isCorrupted item); [discriminate |].
    cbn. intros Hlt Ht. apply Z.ltb_lt in Hlt.
    unfold getSuffixCount in *. rewrite (Hcount Suffix Ht).
    change (getMaxModifiers (addModifier item m)) with (getMaxModifiers item). lia.
  - intros Hne. unfold canAddModifier. destruct modifierType; try reflexivity.
    contradiction.
Qed.

Lemma canAddModifier_guards_witness :
  canAddModifier sample_item Prefix = true
  /\ mod_type fire_modifier = Prefix
  /\ getPrefixCount (addModifier sample_item fire_modifier)
     <= (getMaxModifiers (addModifier sample_item fire_modifier)).1.
Proof.
  split; [reflexivity |]. split; [reflexivity |].
  destruct (canAddModifier_guards sample_item Prefix fire_modifier)
    as (_ & _ & _ & H & _).
  exact (H eq_refl eq_refl).
Defined.

(** ** Conditions: connectives *)

Lemma some_false_iff {A} (f : A -> Res bool) (l : list A) :
  some f l = Ok false <-> Forall (fun x => f x = Ok false) l.
Proof.
  induction l as [| x l IH]; cbn.
  - split; [constructor | reflexivity].
  - destruct (f x) as [[|] | e] eqn:Hx; cbn.
    + split; [discriminate | intros H; inversion H; congruence].
    + rewrite IH. split; [intros H; constructor; [exact Hx | exact H] |].
      intros H. inversion H. assumption.
    + split; [discriminate | intros H; inversion H; congruence].
Qed.

Lemma some_true_exists {A} (f : A -> Res bool) (l : list A) :
  some f l = Ok true -> exists x, In x l /\ f x = Ok true.
Proof.
  induction l as [| x l IH]; cbn; [discriminate |].
  destruct (f x) as [[|] | e] eqn:Hx; cbn.
  - intros _. exists x. split; [left; reflexivity | exact Hx].
  - intros H. destruct (IH H) as (y & Hy & Hfy). exists y. split; [right |]; assumption.
  - discriminate.
Qed.

(** X8: the connectives.  [and] without children, or with an empty list of
    children, is true, and is true exactly when every child is; [or] without
    children is false, is false exactly when every child is, and when true
    has a true child; [not] without children is true, and otherwise is the
    negation of its first child alone, whatever follows it. *)
Theorem evaluate_connectives (ev : ConditionEvaluator) (item : Item)
    (context : JsVal) (id type : string) (target : option string)
    (value : JsVal) (custom : option string) :
  let cond op conds := mkCondition id type op target value conds custom in
  let holds c := evaluate ev c item context in
  (holds (cond OpAnd None) = Ok true /\ holds (cond OpAnd (Some [])) = Ok true
   /\ forall cs, holds (cond OpAnd (Some cs)) = Ok true
                 <-> Forall (fun c => holds c = Ok true) cs)
  /\ (holds (cond OpOr None) = Ok false /\ holds (cond OpOr (Some [])) = Ok false
      /\ (forall cs, holds (cond OpOr (Some cs)) = Ok false
                     <-> Forall (fun c => holds c = Ok false) cs)
      /\ (forall cs, holds (cond OpOr (Some cs)) = Ok true ->
                     exists c, In c cs /\ holds c = Ok true))
  /\ (holds (cond OpNot None) = Ok true /\ holds (cond OpNot (Some [])) = Ok true
      /\ forall c rest, holds (cond OpNot (Some (c :: rest))) = rmap negb (holds c)).
Proof.
  intros cond holds. subst cond holds. cbn [evaluate].
  split; [| split].
  - split; [reflexivity |]. split; [reflexivity |]. intros cs. apply every_true_iff.
  - split; [reflexivity |]. split; [reflexivity |].
    split; [intros cs; apply some_false_iff | intros cs; apply some_true_exists].
  - split; [reflexivity |]. split; [reflexivity |].
    intros c rest. destruct (evaluate ev c item context); reflexivity.
Qed.

(** ** Conditions: comparisons and paths *)

Lemma split_on_nonempty (sep : ascii) (s : string) : split_on sep s <> [].
Proof.
  induction s as [| c s IH]; cbn; [discriminate |].
  destruct (Ascii.eqb c sep); [discriminate |].
  destruct (split_on sep s); discriminate.
Qed.

Lemma split_on_segment (a b : string) :
  segment a -> split_on "." (a +:+ String "." b) = a :: split_on "." b.
Proof.
  unfold segment. induction a as [| c a IH]; intros Hseg; [reflexivity |].
  simpl in Hseg. simpl.
  destruct (Ascii.eqb c ".") eqn:Hc; [discriminate |].
  destruct (split_on "." a) as [| hd tl] eqn:Ha.
  - exfalso. exact (split_on_nonempty _ _ Ha).
  - injection Hseg as -> ->. rewrite (IH eq_refl). reflexivity.
Qed.




Lemma namespace_dispatch {T} (first : string) (A B C D : T) :
  namespace first = false ->
  match first with
  | "item" => A
  | "property" => B
  | "modifier" => C
  | _ => D
  end = D.
Proof.
  unfold namespace. intros Hns.
  apply orb_false_elim in Hns as (Hns & Hmod).
  apply orb_false_elim in Hns as (Hitem & Hprop).
  apply String.eqb_neq in Hitem, Hprop, Hmod.
  repeat match goal with
         | |- match ?s with EmptyString => _ | String _ _ => _ end = _ =>
             destruct s; try reflexivity; try congruence
         | |- match ?a with Ascii _ _ _ _ _ _ _ _ => _ end = _ =>
             destruct a
         | |- (if ?b then _ else _) = _ => destruct b; try reflexivity
         end.
Qed.

(** X10: path resolution.  [property.NAME] reads the value of the property
    NAME; [modifier.NAME] the first modifier of that name and
    [modifier.NAME.FIELD] a field of it, all of them absent values when there
    is no such property or modifier; a leading [item.] is optional in front
    of a path that does not start with a namespace; and the bare names of the
    item's own fields read those fields. *)
Theorem target_namespaces (item : Item) :
  (forall name, segment name ->
      getTargetValue ("property." +:+ name) item = getPropertyValue item (Some name))
  /\ (forall name, segment name ->
        getTargetValue ("modifier." +:+ name) item
        = match getModifier item (Some name) with
          | Some m => modifier_to_js m
          | None => JUndef
          end)
  /\ (forall name field, segment name -> segment field ->
        getTargetValue ("modifier." +:+ name +:+ "." +:+ field) item
        = match getModifier item (Some name) with
          | Some m => get_field (modifier_to_js m) field
          | None => JUndef
          end)
  /\ (forall path first rest,
        split_on "." path = first :: rest -> namespace first = false ->
        getTargetValue ("item." +:+ path) item = getTargetValue path item)
  /\ getTargetValue "quality" item = JNum (quality item)
  /\ getTargetValue "itemLevel" item = JNum (itemLevel item)
  /\ getTargetValue "rarity" item = JStr (rarity_str (rarity item))
  /\ getTargetValue "isCorrupted" item = JBool (isCorrupted item)
  /\ getTargetValue "sockets.length" item = JNum (Z.of_nat (length (sockets item)))
  /\ getTargetValue "modifiers.length" item = JNum (Z.of_nat (length (modifiers item))).
Proof.
  split; [| split; [| split; [| split]]].
  - intros name Hseg. unfold getTargetValue.
    change ("property." +:+ name) with ("property" +:+ String "." name).
    rewrite (split_on_segment "property" name eq_refl). rewrite Hseg. reflexivity.
  - intros name Hseg. unfold getTargetValue.
    change ("modifier." +:+ name) with ("modifier" +:+ String "." name).
    rewrite (split_on_segment "modifier" name eq_refl). rewrite Hseg. reflexivity.
  - intros name field Hname Hfield. unfold getTargetValue.
    change ("modifier." +:+ name +:+ "." +:+ field)
      with ("modifier" +:+ String "." (name +:+ String "." field)).
    rewrite (split_on_segment "modifier" _ eq_refl).
    rewrite (split_on_segment name field Hname), Hfield. cbn.
    destruct (getModifier item (Some name)); reflexivity.
  - intros path first rest Hsplit Hns. unfold getTargetValue.
    change ("item." +:+ path) with ("item" +:+ String "." path).
    rewrite (split_on_segment "item" path eq_refl), Hsplit.
    cbn [getNestedValue fold_left length].
    symmetry. apply (namespace_dispatch first _ _ _ _ Hns).
  - repeat split; cbn; rewrite ?length_map; reflexivity.
Qed.

Lemma target_namespaces_witness :
  segment "Fire Damage" /\ segment "tier"
  /\ getTargetValue "modifier.Fire Damage.tier" fiery_item = JNum 2
  /\ getTargetValue "property.damage" fiery_item = JNum 10.
Proof.
  split; [reflexivity |]. split; [reflexivity |].
  destruct (target_namespaces fiery_item) as (Hprop & _ & Hmod & _).
  split.
  - exact (Hmod "Fire Damage" "tier" eq_refl eq_refl).
  - exact (Hprop "damage" eq_refl).
Defined.

(** ** Conditions: registered evaluators *)

Lemma lookup_named_Some {A} (name : string) (table : gmap string A) :
  lookup_named (Some name) table
  = if String.eqb name "" then None else table !! name.
Proof. reflexivity. Qed.

(** X11: an operator outside the closed set is decided by the evaluator
    registered under the condition's [customEvaluator] name, and is a fatal
    error when that name is absent or empty, or when the lookup finds
    nothing under it: no evaluator is registered and the name is none that
    the table inherits.  Registering under a name other than [__proto__]
    replaces what was registered there and leaves the other names alone.  Of
    the three built-in evaluators, [corruption_check] compares the
    corruption flag with the value, [socket_check] holds when the item has
    at least the given number of sockets, and [modifier_tier_check] is
    false when the item has no modifier of the target's name and otherwise
    holds when the tier of that modifier is at least the given number. *)
Theorem custom_operators (ev : ConditionEvaluator) (item : Item) (context : JsVal)
    (id type op : string) (target : option string) (value : JsVal)
    (conds : option (list Condition)) :
  let cond custom := mkCondition id type (OpOther op) target value conds custom in
  (evaluate ev (cond None) item context = Throw ("Unknown condition operator: " +:+ op)
   /\ evaluate ev (cond (Some "")) item context
      = Throw ("Unknown condition operator: " +:+ op))
  /\ (forall name, member (customEvaluators ev) name = Missing ->
        evaluate ev (cond (Some name)) item context
        = Throw ("Unknown condition operator: " +:+ op))
  /\ (forall name f, name <> "" -> name <> "__proto__" ->
        evaluate (registerEvaluator name f ev) (cond (Some name)) item context
        = f (cond (Some name)) item context
        /\ forall other, other <> name ->
             evaluate (registerEvaluator name f ev) (cond (Some other)) item context
             = evaluate ev (cond (Some other)) item context)
  /\ evaluate newConditionEvaluator (cond (Some "corruption_check")) item context
     = Ok (strict_eq (JBool (isCorrupted item)) value)
  /\ (forall n, value = JNum n ->
        evaluate newConditionEvaluator (cond (Some "socket_check")) item context
        = Ok (n <=? Z.of_nat (length (sockets item))))
  /\ (getModifier item target = None ->
      evaluate newConditionEvaluator (cond (Some "modifier_tier_check")) item context
      = Ok false)
  /\ (forall m t n,
        getModifier item target = Some m -> mod_tier m = JNum t -> value = JNum n ->
        evaluate newConditionEvaluator (cond (Some "modifier_tier_check")) item context
        = Ok (n <=? t)).
Proof.
  intros cond. subst cond.
  assert (Hform : forall ev custom,
             evaluate ev (mkCondition id type (OpOther op) target value conds custom)
                      item context
             = match lookup_named custom (customEvaluators ev) with
               | Some f => f (mkCondition id type (OpOther op) target value conds custom)
                             item context
               | None => Throw ("Unknown condition operator: " +:+ op)
               end) by reflexivity.
  rewrite !Hform.
  split; [split; reflexivity |].
  split.
  { intros name Hnone. rewrite Hform, lookup_named_Some.
    destruct (String.eqb name ""); [reflexivity |].
    unfold member in Hnone.
    destruct (customEvaluators ev !! name); [discriminate | reflexivity]. }
  split.
  { intros name f Hname _. apply String.eqb_neq in Hname.
    split.
    - rewrite Hform, lookup_named_Some, Hname. unfold registerEvaluator.
      cbn [customEvaluators]. rewrite lookup_insert_eq. reflexivity.
    - intros other Hother. rewrite !Hform, !lookup_named_Some.
      destruct (String.eqb other ""); [reflexivity |].
      unfold registerEvaluator. cbn [customEvaluators].
      rewrite lookup_insert_ne by congruence. reflexivity. }
  split; [reflexivity |].
  split.
  { intros n ->. cbn. unfold evaluateSocketCheck. cbn [cond_value]. f_equal.
    unfold js_ge, js_rel. cbn. apply Z.geb_leb. }
  assert (Htier : lookup_named (Some "modifier_tier_check")
                    (customEvaluators newConditionEvaluator)
                  = Some evaluateModifierTierCheck) by reflexivity.
  split.
  - intros Hnone. rewrite Htier.
    unfold evaluateModifierTierCheck. cbn [cond_target]. rewrite Hnone. reflexivity.
  - intros m t n Hm Ht ->. rewrite Htier.
    unfold evaluateModifierTierCheck. cbn [cond_target cond_value]. rewrite Hm, Ht.
    f_equal. unfold js_ge, js_rel. cbn. apply Z.geb_leb.
Qed.

Lemma custom_operators_witness :
  getModifier fiery_item (Some "Fire Damage") = Some fire_modifier
  /\ mod_tier fire_modifier = JNum 2
  /\ evaluate newConditionEvaluator
       (mkCondition "c" "modifier" (OpOther "tierAtLeast") (Some "Fire Damage") (JNum 2)
                    None (Some "modifier_tier_check"))
       fiery_item JUndef
     = Ok true
  /\ member (customEvaluators newConditionEvaluator) "tier_check" = Missing
  /\ evaluate newConditionEvaluator
       (mkCondition "c" "modifier" (OpOther "tierAtLeast") (Some "Fire Damage") (JNum 2)
                    None (Some "tier_check"))
       fiery_item JUndef
     = Throw "Unknown condition operator: tierAtLeast".
Proof.
  pose proof (custom_operators newConditionEvaluator fiery_item JUndef "c" "modifier"
                "tierAtLeast" (Some "Fire Damage") (JNum 2) None) as H.
  cbv zeta in H. destruct H as (_ & Hmissing & _ & _ & _ & _ & Htier).
  split; [reflexivity |]. split; [reflexivity |].
  split; [exact (Htier fire_modifier 2 2 eq_refl eq_refl eq_refl) |].
  split; [reflexivity |].
  exact (Hmissing "tier_check" eq_refl).
Defined.

(** ** Conditions: factories *)

(** X12: the condition factories mean what they are named after: under a
    fresh id, the corruption condition holds exactly on items whose corruption
    flag is the given one, the rarity condition on items of the named rarity,
    the modifier condition on items with a modifier of the given name, and a
    composite condition is the conjunction or the disjunction of its
    children. *)
Theorem condition_factories (ev : ConditionEvaluator) (item : Item)
    (context : JsVal) (w : World) :
  let made (m : M Condition) (P : Condition -> Prop) :=
    exists c, m w = (Ok c, after_uuid w) /\ P c in
  let holds c := evaluate ev c item context in
  (forall b, made (createCorruptionCondition b)
               (fun c => holds c = Ok (Bool.eqb (isCorrupted item) b)))
  /\ (forall r, made (createRarityCondition r)
                  (fun c => holds c = Ok (String.eqb (rarity_str (rarity item)) r)))
  /\ (forall name, made (createModifierCondition name)
                     (fun c => exists b, holds c = Ok b
                               /\ (b = true <->
                                   exists m, In m (modifiers item)
                                             /\ mod_name m = Some name)))
  /\ (forall cs, made (createCompositeCondition OpAnd cs)
                   (fun c => holds c = Ok true
                             <-> Forall (fun c' => holds c' = Ok true) cs))
  /\ (forall cs, made (createCompositeCondition OpOr cs)
                   (fun c => holds c = Ok false
                             <-> Forall (fun c' => holds c' = Ok false) cs)).
Proof.
  intros made holds. subst made holds. cbv beta.
  split; [| split; [| split; [| split]]].
  - intros b. eexists. split; [reflexivity |]. cbn.
    unfold evaluateEquals, with_target. cbn. reflexivity.
  - intros r. eexists. split; [reflexivity |]. cbn.
    unfold evaluateEquals, with_target. cbn. reflexivity.
  - intros name. eexists. split; [reflexivity |]. cbn.
    unfold evaluateHasModifier. eexists. split; [reflexivity |].
    unfold hasModifier. rewrite List.existsb_exists. split.
    + intros (m & Hm & Hname). exists m. split; [exact Hm |].
      destruct (mod_name m) as [n |]; cbn in Hname; [| discriminate].
      apply String.eqb_eq in Hname. congruence.
    + intros (m & Hm & Hname). exists m. split; [exact Hm |].
      rewrite Hname. cbn. apply String.eqb_refl.
  - intros cs. eexists. split; [reflexivity |]. cbn. apply every_true_iff.
  - intros cs. eexists. split; [reflexivity |]. cbn. apply some_false_iff.
Qed.

(** ** The seeded registry *)

(** X13: the registry a constructor builds has exactly two entries, the
    Chaos Orb and the Alchemy Orb: under every other id nothing is
    registered, and the lookup finds nothing there, or the inherited member
    when the id names one.  The Chaos Orb can be used exactly on rare,
    uncorrupted items and the Alchemy Orb exactly on normal, uncorrupted
    ones; using either on any other item fails with the precondition error
    and leaves the world as it was. *)
Theorem seeded_registry_actions (w : World) (item : Item) (context : JsVal) :
  let reg := seeded_registry w in
  (exists w', ActionRegistryManager.new w = (Ok reg, w')
              /\ w' = after_uuids 6 w)
  /\ (exists chaos alchemy,
        ActionRegistryManager.getAction reg "chaos_orb" = Own chaos
        /\ act_name chaos = "Chaos Orb"
        /\ ActionRegistryManager.getAction reg "alchemy_orb" = Own alchemy
        /\ act_name alchemy = "Alchemy Orb")
  /\ (forall id, id <> "chaos_orb" -> id <> "alchemy_orb" ->
        ActionRegistryManager.actions reg !! id = None
        /\ ActionRegistryManager.getAction reg id
           = if inherited id then Inherited else Missing)
  /\ ActionRegistryManager.canExecuteAction reg "chaos_orb" item context
     = Ok (is_rarity Rare item && negb (isCorrupted item))
  /\ ActionRegistryManager.canExecuteAction reg "alchemy_orb" item context
     = Ok (is_rarity Normal item && negb (isCorrupted item))
  /\ (forall w0,
        is_rarity Rare item && negb (isCorrupted item) = false ->
        ActionRegistryManager.executeAction reg "chaos_orb" item context w0
        = (Throw "Cannot execute action Chaos Orb: preconditions not met", w0))
  /\ (forall w0,
        is_rarity Normal item && negb (isCorrupted item) = false ->
        ActionRegistryManager.executeAction reg "alchemy_orb" item context w0
        = (Throw "Cannot execute action Alchemy Orb: preconditions not met", w0)).
Proof.
  intros reg.
  assert (Hchaos : ActionRegistryManager.canExecuteAction reg "chaos_orb" item context
                   = Ok (is_rarity Rare item && negb (isCorrupted item))).
  { unfold is_rarity. destruct item as [? ? ? ? ? c ? r ? ? ? ? ?].
    destruct r, c; reflexivity. }
  assert (Halch : ActionRegistryManager.canExecuteAction reg "alchemy_orb" item context
                  = Ok (is_rarity Normal item && negb (isCorrupted item))).
  { unfold is_rarity. destruct item as [? ? ? ? ? c ? r ? ? ? ? ?].
    destruct r, c; reflexivity. }
  split; [exists (after_uuids 6 w); split; reflexivity |].
  split; [do 2 eexists; repeat split; reflexivity |].
  split.
  { intros id Hc Ha.
    assert (Hnone : ActionRegistryManager.actions reg !! id = None).
    { subst reg. cbn. unfold ActionRegistryManager.registerAction. cbn.
      rewrite !lookup_insert_ne by congruence. apply lookup_empty. }
    split; [exact Hnone |].
    unfold ActionRegistryManager.getAction, member. rewrite Hnone. reflexivity. }
  split; [exact Hchaos |]. split; [exact Halch |].
  split.
  - intros w0 Hno. rewrite Hno in Hchaos. revert Hchaos.
    unfold ActionRegistryManager.canExecuteAction, ActionRegistryManager.executeAction.
    destruct (ActionRegistryManager.getAction reg "chaos_orb") as [action | |] eqn:Hact;
      [| discriminate | discriminate].
    intros Hcan. unfold executeAction, bind, liftR. rewrite Hcan. cbn [negb].
    replace (act_name action) with "Chaos Orb"; [reflexivity |].
    revert Hact. subst reg. intros [= <-]. reflexivity.
  - intros w0 Hno. rewrite Hno in Halch. revert Halch.
    unfold ActionRegistryManager.canExecuteAction, ActionRegistryManager.executeAction.
    destruct (ActionRegistryManager.getAction reg "alchemy_orb") as [action | |] eqn:Hact;
      [| discriminate | discriminate].
    intros Hcan. unfold executeAction, bind, liftR. rewrite Hcan. cbn [negb].
    replace (act_name action) with "Alchemy Orb"; [reflexivity |].
    revert Hact. subst reg. intros [= <-]. reflexivity.
Qed.

Lemma seeded_registry_actions_witness :
  is_rarity Normal sample_item && negb (isCorrupted sample_item) = false
  /\ ActionRegistryManager.executeAction (seeded_registry sample_world) "alchemy_orb"
       sample_item JUndef sample_world
     = (Throw "Cannot execute action Alchemy Orb: preconditions not met", sample_world).
Proof.
  split; [reflexivity |].
  pose proof (seeded_registry_actions sample_world sample_item JUndef) as H.
  cbv zeta in H. destruct H as (_ & _ & _ & _ & _ & _ & H).
  exact (H sample_world eq_refl).
Defined.

(** ** Built-in handlers *)

Lemma random_below_spec (n : Z) (w : World) :
  random_below n w = (Ok (Qfloor (next_draw w * inject_Z n)), after_draw w).
Proof. unfold random_below, bind. rewrite math_random_spec. reflexivity. Qed.

Lemma unit_draw_floor (r : Q) (n : Z) :
  0 < n -> unit_draw r -> 0 <= Qfloor (r * inject_Z n) < n.
Proof.
  intros Hn (Hlo & Hhi).
  assert (Hn' : (0 < inject_Z n)%Q).
  { change 0%Q with (inject_Z 0). rewrite <- Zlt_Qlt. exact Hn. }
  split.
  - change 0 with (Qfloor 0). apply Qfloor_resp_le.
    apply Qmult_le_0_compat; [exact Hlo | apply Qlt_le_weak; exact Hn'].
  - rewrite Zlt_Qlt. eapply Qle_lt_trans; [apply Qfloor_le |].
    rewrite <- (Qmult_1_l (inject_Z n)) at 2.
    apply Qmult_lt_compat_r; assumption.
Qed.

Lemma add_labelled_spec (label : string) (type : ModType) :
  forall (count : nat) (i : Z) (item : Item) (w : World),
    add_labelled label type count i item w
    = (Ok (set_modifiers (modifiers item ++ labelled label type count i (next_uuid w))
                         item),
       after_uuids count w).
Proof.
  induction count as [| count IH]; intros i item w.
  - cbn. rewrite app_nil_r, set_modifiers_same. destruct w; reflexivity.
  - cbn [add_labelled]. unfold bind.
    assert (Hc : createModifier (Some (label +:+ " " +:+ pretty (i + 1))) (JNum 1)
                                (Some type) w
                 = (Ok (mkModifier (uuid_of (next_uuid w))
                                   (Some (label +:+ " " +:+ pretty (i + 1))) (JNum 1)
                                   (JObj []) type []), after_uuid w)) by reflexivity.
    rewrite Hc, IH.
    cbn [labelled addModifier modifiers set_modifiers after_uuid next_uuid].
    rewrite <- app_assoc. cbn [app]. unfold after_uuids, after_uuid.
    cbn [next_uuid draws clock console Nat.add]. rewrite Nat.add_succ_r.
    destruct item; reflexivity.
Qed.

Lemma filter_labelled (label : string) (type type' : ModType) :
  forall (count : nat) (i : Z) (u : nat),
    List.filter (is_modtype type') (labelled label type count i u)
    = if String.eqb (modtype_str type) (modtype_str type')
      then labelled label type count i u else [].
Proof.
  induction count as [| count IH]; intros i u; cbn.
  - destruct (String.eqb _ _); reflexivity.
  - rewrite IH. unfold is_modtype. cbn.
    destruct (String.eqb (modtype_str type) (modtype_str type')); reflexivity.
Qed.

Lemma length_labelled (label : string) (type : ModType) :
  forall (count : nat) (i : Z) (u : nat), length (labelled label type count i u) = count.
Proof. induction count as [| count IH]; intros i u; cbn; [| rewrite IH]; reflexivity. Qed.

(** X14: the Chaos Orb handler discards the modifiers of the item and puts
    [floor(4 r1)] prefixes followed by [floor(4 r2)] suffixes in their place,
    [r1] and [r2] being the next two draws; nothing else of the item changes,
    and for draws in [0, 1) it makes at most 3 prefixes and 3 suffixes. *)
Theorem handleChaosOrb_rerolls (item : Item) (action : CraftAction)
    (context : JsVal) (w : World) :
  let r1 := next_draw w in
  let r2 := next_draw (after_draw w) in
  let p := Z.to_nat (Qfloor (r1 * 4)) in
  let s := Z.to_nat (Qfloor (r2 * 4)) in
  exists item',
    handleChaosOrb item action context w
    = (Ok item', after_uuids s (after_uuids p (after_draw (after_draw w))))
    /\ modifiers item'
       = (labelled "Random Prefix" Prefix p 0 (next_uuid w)
          ++ labelled "Random Suffix" Suffix s 0 (p + next_uuid w))%list
    /\ getPrefixCount item' = Z.of_nat p
    /\ getSuffixCount item' = Z.of_nat s
    /\ set_modifiers (modifiers item) item' = item
    /\ (unit_draw r1 -> (p <= 3)%nat)
    /\ (unit_draw r2 -> (s <= 3)%nat).
Proof.
  intros r1 r2 p s.
  eexists. split.
  { unfold handleChaosOrb, bind. rewrite !random_below_spec.
    rewrite !add_labelled_spec. reflexivity. }
  cbn [modifiers set_modifiers app next_uuid after_uuids after_draw].
  split; [reflexivity |].
  unfold getPrefixCount, getSuffixCount.
  cbn [modifiers set_modifiers app].
  rewrite !List.filter_app, !filter_labelled. cbn [modtype_str String.eqb Ascii.eqb].
  cbn. rewrite ?app_nil_r, !length_labelled.
  split; [reflexivity |]. split; [reflexivity |].
  split; [destruct item; reflexivity |].
  split; intros Hdraw.
  - pose proof (unit_draw_floor r1 4 ltac:(lia) Hdraw). subst p.
    change (inject_Z 4) with 4%Q in *. lia.
  - pose proof (unit_draw_floor r2 4 ltac:(lia) Hdraw). subst s.
    change (inject_Z 4) with 4%Q in *. lia.
Qed.

Lemma handleChaosOrb_rerolls_witness :
  unit_draw (next_draw two_draws)
  /\ (Z.to_nat (Qfloor (next_draw two_draws * 4)) <= 3)%nat.
Proof.
  assert (Hdraw : unit_draw (next_draw two_draws)).
  { split; [discriminate | reflexivity]. }
  split; [exact Hdraw |].
  pose proof (handleChaosOrb_rerolls sample_item weighted_action JUndef two_draws) as H.
  cbv zeta in H. destruct H as (item' & _ & _ & _ & _ & _ & H & _).
  exact (H Hdraw).
Defined.

(** X15: the Alchemy Orb handler makes the item rare and replaces its
    modifiers by prefixes followed by suffixes; for draws in [0, 1) there are
    between 4 and 6 of them, at most 3 prefixes and at most 3 suffixes, so the
    result respects the limits [validateItem] puts on a rare item.  Nothing
    else of the item changes. *)
Theorem handleAlchemyOrb_upgrades (item : Item) (action : CraftAction)
    (context : JsVal) (w : World) :
  let r1 := next_draw w in
  let r2 := next_draw (after_draw w) in
  let numModifiers := 4 + Qfloor (r1 * 3) in
  let numPrefixes := Z.min 3 (numModifiers / 2 + Qfloor (r2 * 2)) in
  let numSuffixes := Z.min 3 (numModifiers - numPrefixes) in
  let p := Z.to_nat numPrefixes in
  let s := Z.to_nat numSuffixes in
  exists item',
    handleAlchemyOrb item action context w
    = (Ok item', after_uuids s (after_uuids p (after_draw (after_draw w))))
    /\ rarity item' = Rare
    /\ modifiers item'
       = (labelled "Alch Prefix" Prefix p 0 (next_uuid w)
          ++ labelled "Alch Suffix" Suffix s 0 (p + next_uuid w))%list
    /\ getPrefixCount item' = Z.of_nat p
    /\ getSuffixCount item' = Z.of_nat s
    /\ set_rarity (rarity item) (set_modifiers (modifiers item) item') = item
    /\ (unit_draw r1 -> unit_draw r2 ->
        4 <= Z.of_nat (length (modifiers item')) <= 6
        /\ getPrefixCount item' <= (getMaxModifiers item').1
        /\ getSuffixCount item' <= (getMaxModifiers item').2).
Proof.
  intros r1 r2 numModifiers numPrefixes numSuffixes p s.
  eexists. split.
  { unfold handleAlchemyOrb, bind. rewrite !random_below_spec.
    rewrite !add_labelled_spec. reflexivity. }
  cbn [modifiers set_modifiers set_rarity rarity app next_uuid after_uuids after_draw].
  split; [reflexivity |]. split; [reflexivity |].
  unfold getPrefixCount, getSuffixCount, getMaxModifiers.
  cbn [modifiers set_modifiers set_rarity rarity app fst snd].
  rewrite !List.filter_app, !filter_labelled. cbn [modtype_str String.eqb Ascii.eqb].
  cbn [Bool.eqb app]. rewrite ?app_nil_r, length_app, !length_labelled.
  split; [reflexivity |]. split; [reflexivity |].
  split; [destruct item; reflexivity |].
  intros H1 H2.
  pose proof (unit_draw_floor r1 3 ltac:(lia) H1) as Hk.
  pose proof (unit_draw_floor r2 2 ltac:(lia) H2) as Hj.
  subst p s numSuffixes numPrefixes numModifiers r1 r2.
  remember (Qfloor (next_draw w * inject_Z 3)) as k.
  remember (Qfloor (next_draw (after_draw w) * inject_Z 2)) as j.
  clear Heqk Heqj H1 H2.
  assert (Hk' : k = 0 \/ k = 1 \/ k = 2) by lia.
  assert (Hj' : j = 0 \/ j = 1) by lia.
  clear Hk Hj.
  destruct Hk' as [-> | [-> | ->]], Hj' as [-> | ->]; vm_compute;
    repeat split; discriminate.
Qed.

Lemma handleAlchemyOrb_upgrades_witness :
  unit_draw (next_draw two_draws) /\ unit_draw (next_draw (after_draw two_draws))
  /\ exists item' w',
       handleAlchemyOrb sample_item weighted_action JUndef two_draws = (Ok item', w')
       /\ 4 <= Z.of_nat (length (modifiers item')) <= 6.
Proof.
  assert (H1 : unit_draw (next_draw two_draws)) by (split; [discriminate | reflexivity]).
  assert (H2 : unit_draw (next_draw (after_draw two_draws)))
    by (split; [discriminate | reflexivity]).
  split; [exact H1 |]. split; [exact H2 |].
  pose proof (handleAlchemyOrb_upgrades sample_item weighted_action JUndef two_draws) as H.
  cbv zeta in H. destruct H as (item' & Hrun & _ & _ & _ & _ & _ & Hlim).
  exists item'. eexists. split; [exact Hrun | exact (proj1 (Hlim H1 H2))].
Defined.

Lemma random_modtype_spec (w : World) :
  random_modtype w = (Ok (drawn_modtype (next_draw w)), after_draw w).
Proof. unfold random_modtype, bind. rewrite math_random_spec. reflexivity. Qed.

(** X16: the Exalted Orb handler appends exactly one modifier of tier 1 and
    changes nothing else; the Regal Orb handler does the same and makes the
    item rare.  The modifier is a prefix when the draw is below 0.5 and a
    suffix otherwise. *)
Theorem regal_exalted_add_one (item : Item) (action : CraftAction)
    (context : JsVal) (w : World) :
  let r := next_draw w in
  handleExaltedOrb item action context w
  = (Ok (addModifier item (orb_modifier "Exalted" r (next_uuid w))),
     after_uuid (after_draw w))
  /\ handleRegalOrb item action context w
     = (Ok (addModifier (set_rarity Rare item) (orb_modifier "Regal" r (next_uuid w))),
        after_uuid (after_draw w))
  /\ ((r < 1 # 2)%Q -> drawn_modtype r = Prefix)
  /\ ((1 # 2 <= r)%Q -> drawn_modtype r = Suffix).
Proof.
  intros r. split; [| split; [| split]].
  - unfold handleExaltedOrb, bind. rewrite random_modtype_spec. reflexivity.
  - unfold handleRegalOrb, bind. rewrite random_modtype_spec. reflexivity.
  - intros Hlt. unfold drawn_modtype.
    destruct (Qle_bool (1 # 2) r) eqn:Hle; [| reflexivity].
    apply Qle_bool_iff in Hle. exfalso. exact (Qlt_not_le _ _ Hlt Hle).
  - intros Hle. unfold drawn_modtype. apply Qle_bool_iff in Hle. rewrite Hle.
    reflexivity.
Qed.

Lemma regal_exalted_add_one_witness :
  (1 # 2 <= next_draw two_draws)%Q
  /\ drawn_modtype (next_draw two_draws) = Suffix.
Proof.
  assert (H : (1 # 2 <= next_draw two_draws)%Q) by discriminate.
  split; [exact H |].
  pose proof (regal_exalted_add_one sample_item weighted_action JUndef two_draws) as Hx.
  cbv zeta in Hx. destruct Hx as (_ & _ & _ & Hs).
  exact (Hs H).
Defined.

Lemma after_draws_S (n : nat) (w : World) :
  after_draws n (after_draw w) = after_draws (S n) w.
Proof.
  unfold after_draws, after_draw. cbn [next_uuid draws clock console].
  destruct (draws w); cbn [tail drop]; [rewrite !drop_nil |]; reflexivity.
Qed.

Lemma divine_mapM (ms : list ItemModifier) :
  forall w : World,
    mapM (fun m => d <- random_below 3 ;;
                   ret (set_tier (varied_tier (mod_tier m) d) m)) ms w
    = (Ok (divined (draws w) ms), after_draws (length ms) w).
Proof.
  induction ms as [| m ms IH]; intros w.
  - unfold after_draws. cbn. rewrite drop_0. destruct w; reflexivity.
  - rewrite mapM_cons. unfold bind at 1. rewrite random_below_spec.
    unfold ret at 1. rewrite IH. cbn [divined length].
    rewrite after_draws_S. reflexivity.
Qed.

Lemma divined_lookup (ms : list ItemModifier) :
  forall (ds : list Q) (i : nat),
    divined ds ms !! i
    = (fun m => set_tier (varied_tier (mod_tier m) (Qfloor (nth i ds 0%Q * 3))) m)
        <$> ms !! i.
Proof.
  induction ms as [| m ms IH]; intros ds i; [reflexivity |].
  destruct i as [| i]; cbn.
  - destruct ds; reflexivity.
  - rewrite IH. destruct ds; cbn; [destruct i |]; reflexivity.
Qed.

(** X17: the Divine Orb handler keeps the modifiers, their order, ids, names
    and types, and reads one draw per modifier; a numeric tier [t] becomes
    [max(1, t + floor(3 r) - 1)], which for a draw in [0, 1) is at least 1 and
    within one of [t] unless [t] was below 1.  Nothing else of the item
    changes. *)
Theorem handleDivineOrb_varies (item : Item) (action : CraftAction)
    (context : JsVal) (w : World) :
  exists item',
    handleDivineOrb item action context w
    = (Ok item', after_draws (length (modifiers item)) w)
    /\ length (modifiers item') = length (modifiers item)
    /\ set_modifiers (modifiers item) item' = item
    /\ (forall i m, modifiers item !! i = Some m ->
          exists m',
            modifiers item' !! i = Some m'
            /\ mod_id m' = mod_id m /\ mod_name m' = mod_name m
            /\ mod_type m' = mod_type m
            /\ forall t, mod_tier m = JNum t ->
                 let r := nth i (draws w) 0%Q in
                 mod_tier m' = JNum (Z.max 1 (t + Qfloor (r * 3) - 1))
                 /\ (unit_draw r ->
                     exists t', mod_tier m' = JNum t' /\ 1 <= t'
                                /\ t - 1 <= t' /\ t' <= Z.max 1 (t + 1))).
Proof.
  eexists. split.
  { unfold handleDivineOrb, bind. rewrite divine_mapM. reflexivity. }
  cbn [modifiers set_modifiers].
  split.
  { generalize (draws w). induction (modifiers item) as [| m ms IH]; intros ds;
      [reflexivity |]. cbn. rewrite IH. reflexivity. }
  split; [destruct item; reflexivity |].
  intros i m Hm. rewrite divined_lookup, Hm. cbn [fmap option_fmap option_map].
  eexists. split; [reflexivity |].
  cbn [set_tier mod_id mod_name mod_type mod_tier].
  split; [reflexivity |]. split; [reflexivity |]. split; [reflexivity |].
  intros t Ht. set (r := nth i (draws w) 0%Q). rewrite Ht.
  cbn [varied_tier to_primitive to_number].
  split; [reflexivity |].
  intros Hdraw. pose proof (unit_draw_floor r 3 ltac:(lia) Hdraw) as Hd.
  change (inject_Z 3) with 3%Q in Hd.
  eexists. split; [reflexivity |]. lia.
Qed.

Lemma handleDivineOrb_varies_witness :
  modifiers fiery_item !! 0%nat = Some fire_modifier
  /\ mod_tier fire_modifier = JNum 2
  /\ unit_draw (nth 0 (draws two_draws) 0%Q)
  /\ exists item' w' m' t',
       handleDivineOrb fiery_item weighted_action JUndef two_draws = (Ok item', w')
       /\ modifiers item' !! 0%nat = Some m'
       /\ mod_tier m' = JNum t' /\ 1 <= t'.
Proof.
  assert (Hdraw : unit_draw (nth 0 (draws two_draws) 0%Q))
    by (split; [discriminate | reflexivity]).
  split; [reflexivity |]. split; [reflexivity |]. split; [exact Hdraw |].
  destruct (handleDivineOrb_varies fiery_item weighted_action JUndef two_draws)
    as (item' & Hrun & _ & _ & Hmods).
  destruct (Hmods 0%nat fire_modifier eq_refl) as (m' & Hm' & _ & _ & _ & Htier).
  destruct (Htier 2 eq_refl) as (_ & Hbound).
  destruct (Hbound Hdraw) as (t' & Ht' & Hpos & _).
  exists item', (after_draws (length (modifiers fiery_item)) two_draws), m', t'.
  repeat split; assumption.
Defined.

(** ** What the declarative changes can and cannot touch *)

Lemma applyChange_frame (ex : ActionExecutor) (item item' : Item) (c : ItemChange)
    (w w' : World) :
  applyChange ex item c w = (Ok item', w') ->
  item_id item' = item_id item /\ item_name item' = item_name item
  /\ baseType item' = baseType item /\ itemLevel item' = itemLevel item
  /\ quality item' = quality item /\ rarity item' = rarity item
  /\ isIdentified item' = isIdentified item
  /\ customData item' = customData item /\ tags item' = tags item
  /\ (isCorrupted item = true -> isCorrupted item' = true)
  /\ dom (properties item') = dom (properties item).
Proof.
  intros H. unfold applyChange in H.
  destruct (ch_type c);
    unfold linkSockets, createModifier, createSocket, console_warn, uuidv4,
           bind, ret, throw in H;
    cbn in H; repeat case_match; simplify_eq; cbn; try tauto.
  unfold updateProperty. destruct (properties item !! _) as [p |] eqn:Hp; cbn;
    repeat split; try tauto.
  apply set_eq. intros k. rewrite !elem_of_dom.
  match goal with |- context [<[?n := _]> _] => destruct (decide (n = k)) as [<- | Hne] end.
  - rewrite lookup_insert_eq, Hp. split; eauto.
  - rewrite lookup_insert_ne by assumption. reflexivity.
Qed.

(** X18: the declarative changes of an outcome can touch only the values of
    existing properties, the modifiers, the sockets and the corruption flag.
    Whatever the list of changes, the item returned keeps its id, name, base
    type, level, quality, rarity, custom data and tags, has the same property
    names, and stays corrupted if it was; so a [modifyProperty] change
    aimed at ['rarity'] never changes the rarity. *)
Theorem applyChanges_frame (ex : ActionExecutor) (changes : list ItemChange) :
  forall (item item' : Item) (w w' : World),
    applyChanges ex item changes w = (Ok item', w') ->
    item_id item' = item_id item /\ item_name item' = item_name item
    /\ baseType item' = baseType item /\ itemLevel item' = itemLevel item
    /\ quality item' = quality item /\ rarity item' = rarity item
    /\ isIdentified item' = isIdentified item
    /\ customData item' = customData item /\ tags item' = tags item
    /\ (isCorrupted item = true -> isCorrupted item' = true)
    /\ dom (properties item') = dom (properties item).
Proof.
  induction changes as [| c cs IH]; intros item item' w w'.
  - intros [= <- <-]. repeat split; tauto.
  - cbn [applyChanges]. unfold bind.
    destruct (applyChange ex item c w) as [[item1 | e] w1] eqn:Hc; [| discriminate].
    intros Hrest. apply IH in Hrest. apply applyChange_frame in Hc.
    destruct Hrest as (? & ? & ? & ? & ? & ? & ? & ? & ? & ? & ?).
    destruct Hc as (? & ? & ? & ? & ? & ? & ? & ? & ? & ? & ?).
    repeat split; try congruence. auto.
Qed.

Lemma applyChanges_frame_witness :
  exists item' w',
    applyChanges sample_executor sample_item
      [mkChange ChModifyProperty (Some "rarity") (JStr "magic") None None None;
       mkChange ChCorrupt None JUndef None None None] sample_world
    = (Ok item', w')
    /\ rarity item' = rarity sample_item.
Proof.
  assert (Hrun : applyChanges sample_executor sample_item
            [mkChange ChModifyProperty (Some "rarity") (JStr "magic") None None None;
             mkChange ChCorrupt None JUndef None None None] sample_world
          = (Ok (corruptItem sample_item), sample_world)) by reflexivity.
  exists (corruptItem sample_item), sample_world. split; [exact Hrun |].
  exact (proj1 (proj2 (proj2 (proj2 (proj2 (proj2
           (applyChanges_frame _ _ _ _ _ _ Hrun))))))).
Defined.

(** ** Outcome selection under exact arithmetic *)

Lemma running_cons (acc : Q) (o : ActionOutcome) (l : list ActionOutcome) :
  running acc (o :: l) = running (acc + probability o) l.
Proof. reflexivity. Qed.

Lemma reaching_exists (r : Q) :
  forall (l : list ActionOutcome) (acc : Q),
    l <> [] ->
    (r <= running acc l)%Q ->
    exists pre o post,
      l = (pre ++ o :: post)%list
      /\ (r <= running acc (pre ++ [o]))%Q
      /\ forall pre' x rest,
           pre = (pre' ++ x :: rest)%list -> ~ (r <= running acc (pre' ++ [x]))%Q.
Proof.
  induction l as [| y l IH]; intros acc Hne Htotal; [contradiction |].
  destruct (Qlt_le_dec (acc + probability y) r) as [Hlt | Hle].
  - destruct l as [| z l].
    + exfalso. cbn in Htotal. exact (Qlt_not_le _ _ Hlt Htotal).
    + destruct (IH (acc + probability y)%Q ltac:(discriminate) Htotal)
        as (pre & o & post & Heq & Hreach & Hbefore).
      exists (y :: pre), o, post. split; [cbn; rewrite Heq; reflexivity |].
      split; [exact Hreach |].
      intros pre' x rest Hpre. destruct pre' as [| y' pre'].
      * injection Hpre as <- _. cbn. apply Qlt_not_le. exact Hlt.
      * injection Hpre as <- Hpre. exact (Hbefore pre' x rest Hpre).
  - exists [], y, l. split; [reflexivity |]. split; [exact Hle |].
    intros pre' x rest Hpre. destruct pre'; discriminate.
Qed.

(** X19: with exact weights the fallback to the last outcome is never
    needed: when the weights sum to more than 0 and the draw is in [0, 1),
    some running total reaches the scaled draw, and the outcome selected is
    the first one whose running total does.  A single outcome is always
    selected, whatever its weight and the draw. *)
Theorem selection_never_falls_back (outs : list ActionOutcome) (w : World) :
  (~ (sum_probability outs <= 0)%Q ->
   unit_draw (next_draw w) ->
   exists o,
     first_reaching (next_draw w * sum_probability outs) outs o
     /\ selectOutcomeByProbability outs w = (Ok (Some o), after_draw w))
  /\ (forall o, outs = [o] ->
        exists w', selectOutcomeByProbability outs w = (Ok (Some o), w')).
Proof.
  split.
  - intros Hpos (Hlo & Hhi).
    assert (Hsum : (0 < sum_probability outs)%Q) by (apply Qnot_le_lt; exact Hpos).
    assert (Hne : outs <> []).
    { intros ->. apply Hpos. cbn. apply Qle_refl. }
    assert (Hr : (next_draw w * sum_probability outs <= running 0 outs)%Q).
    { change (running 0 outs) with (sum_probability outs).
      rewrite <- (Qmult_1_l (sum_probability outs)) at 2.
      apply Qmult_le_compat_r; [apply Qlt_le_weak; exact Hhi | apply Qlt_le_weak; exact Hsum]. }
    destruct (reaching_exists _ outs 0 Hne Hr) as (pre & o & post & Heq & Hreach & Hbefore).
    assert (Hfirst : first_reaching (next_draw w * sum_probability outs) outs o).
    { exists pre, post. split; [exact Heq |]. split; [exact Hreach | exact Hbefore]. }
    exists o. split; [exact Hfirst |].
    apply select_first_reaching; assumption.
  - intros o ->. unfold selectOutcomeByProbability.
    destruct (Qle_bool (sum_probability [o]) 0); [eexists; reflexivity |].
    unfold bind. rewrite math_random_spec. cbn [walk].
    destruct (Qle_bool _ _); eexists; reflexivity.
Qed.

Lemma selection_never_falls_back_witness :
  ~ (sum_probability [weighted_first; weighted_second] <= 0)%Q
  /\ unit_draw (next_draw two_draws)
  /\ exists o, selectOutcomeByProbability [weighted_first; weighted_second] two_draws
               = (Ok (Some o), after_draw two_draws).
Proof.
  assert (Hpos : ~ (sum_probability [weighted_first; weighted_second] <= 0)%Q).
  { intros H. apply Qle_bool_iff in H. discriminate. }
  assert (Hdraw : unit_draw (next_draw two_draws))
    by (split; [discriminate | reflexivity]).
  split; [exact Hpos |]. split; [exact Hdraw |].
  destruct (proj1 (selection_never_falls_back [weighted_first; weighted_second] two_draws)
              Hpos Hdraw) as (o & _ & Hsel).
  exists o. exact Hsel.
Defined.

(** ** Step execution and the execution state *)

Lemma grows_by_refl (P : HistoryEntry -> Prop) (s : World * GuideExecutionState) :
  grows_by P s s.
Proof.
  repeat split. exists []. rewrite app_nil_r. split; [reflexivity | constructor].
Qed.

Lemma grows_by_trans (P : HistoryEntry -> Prop)
    (s1 s2 s3 : World * GuideExecutionState) :
  grows_by P s1 s2 -> grows_by P s2 s3 -> grows_by P s1 s3.
Proof.
  intros (Hg & Hi & Hx & Hv & a & Ha & Pa) (Hg' & Hi' & Hx' & Hv' & b & Hb & Pb).
  repeat split; try congruence.
  exists (a ++ b)%list. split.
  - rewrite Hb, Ha, <- app_assoc. reflexivity.
  - apply Forall_app. split; assumption.
Qed.

Lemma logs_only_weaken {A} (P Q : HistoryEntry -> Prop) (m : G A) :
  (forall e, P e -> Q e) -> logs_only P m -> logs_only Q m.
Proof.
  intros HPQ Hm s. destruct (Hm s) as (Hg & Hi & Hx & Hv & a & Ha & Pa).
  repeat split; try assumption.
  exists a. split; [exact Ha |]. eapply Forall_impl; [exact Pa | exact HPQ].
Qed.

Lemma logs_only_ret {A} (P : HistoryEntry -> Prop) (a : A) : logs_only P (ret a).
Proof. intros s. apply grows_by_refl. Qed.

Lemma logs_only_throw {A} (P : HistoryEntry -> Prop) (msg : string) :
  logs_only P (@throw _ A msg).
Proof. intros s. apply grows_by_refl. Qed.

Lemma logs_only_liftR {A} (P : HistoryEntry -> Prop) (r : Res A) :
  logs_only P (liftR r).
Proof. intros s. apply grows_by_refl. Qed.

Lemma logs_only_liftW {A} (P : HistoryEntry -> Prop) (m : M A) :
  logs_only P (liftW m).
Proof.
  intros [w st]. unfold liftW. cbn [fst snd]. destruct (m w) as [r w'].
  repeat split. exists []. cbn. rewrite app_nil_r. split; [reflexivity | constructor].
Qed.

Lemma logs_only_bind {A B} (P : HistoryEntry -> Prop) (m : G A) (k : A -> G B) :
  logs_only P m -> (forall a, logs_only P (k a)) -> logs_only P (bind m k).
Proof.
  intros Hm Hk s. unfold bind. specialize (Hm s).
  destruct (m s) as [[a | e] s1]; cbn [snd] in *; [| exact Hm].
  eapply grows_by_trans; [exact Hm | apply Hk].
Qed.

Lemma logs_only_try_catch {A} (P : HistoryEntry -> Prop) (m : G A)
    (h : string -> G A) :
  logs_only P m -> (forall e, logs_only P (h e)) -> logs_only P (try_catch m h).
Proof.
  intros Hm Hh s. unfold try_catch. specialize (Hm s).
  destruct (m s) as [[a | e] s1]; cbn [snd] in *; [exact Hm |].
  eapply grows_by_trans; [exact Hm | apply Hh].
Qed.

Lemma logs_only_log (stepId : string) (before after : Item) :
  logs_only (fun e => h_stepId e = stepId) (logStepExecution stepId before after).
Proof.
  unfold logStepExecution.
  repeat (apply logs_only_bind; [apply logs_only_liftW | intros ?]).
  intros [w st]. cbv [bind get_state put_state fst snd].
  repeat split. eexists. split; [reflexivity |].
  constructor; [reflexivity | constructor].
Qed.

Lemma logs_only_linear (ge : GuideExecutor) (id : string)
    (actionId : option string) (item : Item) :
  logs_only (fun e => h_stepId e = id) (executeLinearStep ge id actionId item).
Proof.
  unfold executeLinearStep. apply logs_only_try_catch.
  - apply logs_only_bind; [apply logs_only_liftR | intros ok].
    destruct (negb ok); [apply logs_only_ret |].
    apply logs_only_bind; [apply logs_only_liftW | intros result].
    apply logs_only_bind; [apply logs_only_log | intros _].
    destruct result.2; [apply logs_only_ret | apply logs_only_throw].
  - intros e. apply logs_only_ret.
Qed.

Lemma logs_only_eval_cond (P : HistoryEntry -> Prop) (ge : GuideExecutor)
    (c : option Condition) (item : Item) :
  logs_only P (eval_cond ge c item).
Proof. destruct c; [apply logs_only_liftR | apply logs_only_throw]. Qed.

Lemma logs_only_loop_finish (P : HistoryEntry -> Prop) (ge : GuideExecutor)
    (condition : option Condition) (maxIterations iterations : Z)
    (currentItem : Item) :
  logs_only P (loop_finish ge condition maxIterations iterations currentItem).
Proof.
  unfold loop_finish.
  apply logs_only_bind; [apply logs_only_eval_cond | intros ?; apply logs_only_ret].
Qed.

Lemma logs_only_loop_body (P : HistoryEntry -> Prop)
    (exec : GuideStep -> Item -> G GuideStepResult)
    (iterations : Z) (next : Item -> G GuideStepResult) (ss : list GuideStep) :
  Forall (fun s => forall item, logs_only P (exec s item)) ss ->
  (forall item, logs_only P (next item)) ->
  forall item, logs_only P (loop_body exec iterations next ss item).
Proof.
  intros Hss Hnext. induction Hss as [| s ss Hs _ IH]; intros item; cbn [loop_body].
  - apply Hnext.
  - apply logs_only_bind; [apply Hs | intros r].
    destruct (negb (success r)); [apply logs_only_ret | apply IH].
Qed.

Lemma logs_only_loop_while (P : HistoryEntry -> Prop) (ge : GuideExecutor)
    (exec : GuideStep -> Item -> G GuideStepResult)
    (condition : option Condition) (steps : option (list GuideStep))
    (maxIterations : Z) :
  on_some (Forall (fun s => forall item, logs_only P (exec s item))) steps ->
  forall (fuel : nat) (iterations : Z) (item : Item),
    logs_only P (loop_while ge exec condition steps maxIterations fuel iterations item).
Proof.
  intros Hsteps. induction fuel as [| fuel IH]; intros iterations item;
    rewrite loop_while_unfold;
    (apply logs_only_bind; [apply logs_only_eval_cond | intros holds]);
    destruct (holds && (iterations <? maxIterations));
    try apply logs_only_loop_finish.
  destruct steps as [ss |]; [| apply logs_only_throw].
  apply logs_only_loop_body; [exact Hsteps | intros item'; apply IH].
Qed.

(** Sub-steps that log inside themselves log inside the step that holds
    them. *)
Lemma logs_only_inside (ge : GuideExecutor) (options : GuideExecutionOptions)
    (P : HistoryEntry -> Prop) (ss : list GuideStep) :
  (forall s e, In s ss -> logged_inside s e -> P e) ->
  Forall (fun s => forall item,
            logs_only (logged_inside s) (executeStep ge s item options)) ss ->
  Forall (fun s => forall item, logs_only P (executeStep ge s item options)) ss.
Proof.
  intros Hsub Hss. apply List.Forall_forall. intros s Hin item.
  eapply logs_only_weaken; [intros e; apply (Hsub s e Hin) |].
  exact (proj1 (List.Forall_forall _ _) Hss s Hin item).
Qed.

Lemma executeStep_logs_only (ge : GuideExecutor) (options : GuideExecutionOptions)
    (step : GuideStep) :
  forall item, logs_only (logged_inside step) (executeStep ge step item options).
Proof.
  induction step as [id a d n | id c t f d Ht Hf | id bs d Hbs | id c ss m d Hss | type id]
    using GuideStep_nested_ind; intros item; cbn [executeStep].
  - eapply logs_only_weaken; [| apply logs_only_linear].
    intros e He. left. symmetry. exact He.
  - apply logs_only_bind; [apply logs_only_eval_cond | intros met].
    apply logs_only_bind; [| intros r; apply logs_only_ret].
    destruct met; [destruct t as [t |] | destruct f as [f |]];
      try apply logs_only_throw;
      (eapply logs_only_weaken; [| first [apply Ht | apply Hf]]);
      intros e He; unfold logged_inside in *; cbn [linear_ids]; apply in_or_app;
      [left | right]; exact He.
  - destruct bs as [bs |]; [| apply logs_only_throw]. cbn in Hbs.
    set (P := logged_inside (BranchStep id (Some bs) d)).
    assert (Hall : Forall (fun b : Condition * list GuideStep * string =>
                             Forall (fun s => forall item,
                                       logs_only P (executeStep ge s item options))
                                    b.1.2) bs).
    { apply List.Forall_forall. intros [[c ss] label] Hb. cbn [fst snd].
      apply logs_only_inside; [| exact (proj1 (List.Forall_forall _ _) Hbs _ Hb)].
      intros s e Hs He. subst P. unfold logged_inside in *. cbn [linear_ids].
      apply in_flat_map. exists (c, ss, label). split; [exact Hb |].
      apply in_flat_map. exists s. split; assumption. }
    clearbody P. clear Hbs.
    induction Hall as [| [[c ss] label] bs Hb _ IHbs]; [apply logs_only_ret |].
    apply logs_only_bind; [apply logs_only_eval_cond | intros hit].
    destruct hit; [| exact IHbs].
    cbn in Hb. generalize (@None GuideStepResult). generalize item.
    induction Hb as [| s ss Hs _ IHss]; intros cur last.
    + apply logs_only_ret.
    + apply logs_only_bind; [apply Hs | intros r].
      destruct (negb (success r)); [apply logs_only_ret | apply IHss].
  - apply logs_only_loop_while.
    destruct ss as [ss |]; [| exact I]. cbn in Hss.
    apply logs_only_inside; [| exact Hss].
    intros s e Hs He. unfold logged_inside in *. cbn [linear_ids].
    apply in_flat_map. exists s. split; assumption.
  - apply logs_only_ret.
Qed.

(** X20: executing a step, of whatever type and however nested, and whether
    it returns or throws, only appends entries to the step history of the
    execution state: the guide id, the current item, the step cursor and the
    variables are left as they were, and no entry already in the history is
    changed or removed.  Every entry added carries the id of a linear step
    inside the step: conditional, branch and loop steps log nothing of their
    own, and a step with no linear step inside leaves the history as it
    is. *)
Theorem executeStep_history_append_only (ge : GuideExecutor) (step : GuideStep)
    (item : Item) (options : GuideExecutionOptions) (w : World)
    (st : GuideExecutionState) :
  let st' := (executeStep ge step item options (w, st)).2.2 in
  guideId st' = guideId st
  /\ currentItem st' = currentItem st
  /\ currentStepIndex st' = currentStepIndex st
  /\ variables st' = variables st
  /\ (exists added,
        stepHistory st' = (stepHistory st ++ added)%list
        /\ Forall (fun e => In (h_stepId e) (linear_ids step)) added)
  /\ (linear_ids step = [] -> stepHistory st' = stepHistory st).
Proof.
  intros st'.
  destruct (executeStep_logs_only ge options step item (w, st))
    as (Hid & Hitem & Hidx & Hvars & added & Hadded & Hin).
  fold st' in Hid, Hitem, Hidx, Hvars, Hadded.
  split; [exact Hid |]. split; [exact Hitem |]. split; [exact Hidx |].
  split; [exact Hvars |]. split; [exists added; split; assumption |].
  intros Hnone. rewrite Hadded.
  destruct added as [| e added]; [apply app_nil_r |].
  apply Forall_inv in Hin. unfold logged_inside in Hin. rewrite Hnone in Hin.
  destruct Hin.
Qed.

(** X21: a linear step never throws: whatever the registry, the action id
    and the item, [executeLinearStep] returns a result.  A failed result
    hands back the item it was given; a successful one has added exactly one
    entry to the history, which carries the id of the step and copies of the
    item before and after that differ from them in the id only. *)
Theorem executeLinearStep_returns (ge : GuideExecutor) (id : string)
    (actionId : option string) (item : Item) (s : World * GuideExecutionState) :
  exists r s',
    executeLinearStep ge id actionId item s = (Ok r, s')
    /\ (success r = false -> res_item r = item)
    /\ (success r = true ->
        exists e,
          stepHistory s'.2 = (stepHistory s.2 ++ [e])%list
          /\ h_stepId e = id
          /\ set_id (item_id item) (itemBefore e) = item
          /\ set_id (item_id (res_item r)) (itemAfter e) = res_item r).
Proof.
  destruct s as [w st].
  unfold executeLinearStep, try_catch, bind, liftR, liftW, ret, throw.
  cbn [fst snd].
  destruct (ActionRegistryManager.canExecuteAction (actionRegistry ge) (show_opt actionId)
              item JUndef) as [[|] | e]; cbn [negb fst snd].
  - destruct (ActionRegistryManager.executeAction (actionRegistry ge) (show_opt actionId)
                item JUndef w) as [[[item' out] | e] w1]; cbn [fst snd].
    + unfold logStepExecution, bind, liftW, cloneItem, uuidv4, new_Date, get_state,
        put_state, ret. cbn [fst snd].
      destruct out as [o |].
      * do 2 eexists. split; [reflexivity |]. split; [discriminate |].
        intros _. eexists. split; [reflexivity |]. cbn.
        repeat split; [destruct item | destruct item']; reflexivity.
      * do 2 eexists. split; [reflexivity |]. split; [reflexivity | discriminate].
    + do 2 eexists. split; [reflexivity |]. split; [reflexivity | discriminate].
  - do 2 eexists. split; [reflexivity |]. split; [reflexivity | discriminate].
  - do 2 eexists. split; [reflexivity |]. split; [reflexivity | discriminate].
Qed.

Lemma branch_run_label (ge : GuideExecutor) (options : GuideExecutionOptions)
    (label : string) (ss : list GuideStep) :
  forall (cur : Item) (last : option GuideStepResult)
         (s s' : World * GuideExecutionState) (r : GuideStepResult),
    (fix run (ss : list GuideStep) (currentItem : Item)
         (lastResult : option GuideStepResult) : G GuideStepResult :=
       match ss with
       | [] =>
           let last_message :=
             match lastResult with
             | Some r => if String.eqb (message r) "" then "completed" else message r
             | None => "completed"
             end in
           ret (mkResult true currentItem
                  ("Executed branch '" +:+ label +:+ "': " +:+ last_message)
                  None (Some label) None)
       | branchStep :: ss' =>
           stepResult <- executeStep ge branchStep currentItem options ;;
           if negb (success stepResult)
           then ret (set_branchPath (Some label) stepResult)
           else run ss' (res_item stepResult) (Some stepResult)
       end) ss cur last s = (Ok r, s') ->
    branchPath r = Some label.
Proof.
  induction ss as [| step ss IH]; intros cur last s s' r.
  - intros [= <- _]. reflexivity.
  - unfold bind at 1.
    destruct (executeStep ge step cur options s) as [[r1 | e] s1]; [| discriminate].
    destruct (negb (success r1)).
    + intros [= <- _]. reflexivity.
    + apply IH.
Qed.

(** X22: a branch step takes the first branch whose condition holds.  When
    the conditions of the branches [pre] are all false for the item, a step
    with these branches alone fails with "No matching branch found" and
    leaves item, world and state alone; with a branch after them whose
    condition holds, the step does what it would do were this branch the
    only one, whatever branches follow; and every result it then returns,
    success or failure, carries the label of this branch as its path. *)
Theorem branch_first_match (ge : GuideExecutor) (id description : string)
    (pre : list (Condition * list GuideStep * string)) (item : Item)
    (options : GuideExecutionOptions) :
  Forall (fun b => evaluate (ge_conditionEvaluator ge) b.1.1 item JUndef = Ok false)
         pre ->
  (forall s,
      executeStep ge (BranchStep id (Some pre) description) item options s
      = (Ok (mkResult false item "No matching branch found" None None None), s))
  /\ (forall c ss label post s,
        evaluate (ge_conditionEvaluator ge) c item JUndef = Ok true ->
        executeStep ge (BranchStep id (Some (pre ++ (c, ss, label) :: post)%list)
                                   description) item options s
        = executeStep ge (BranchStep id (Some [(c, ss, label)]) description)
                      item options s
        /\ forall r s',
             executeStep ge (BranchStep id (Some [(c, ss, label)]) description)
                         item options s = (Ok r, s') ->
             branchPath r = Some label).
Proof.
  intros Hpre. split.
  - intros s. induction Hpre as [| [[c ss] label] pre Hb _ IH]; [reflexivity |].
    cbn [executeStep] in *. cbn [fst snd] in Hb.
    unfold bind at 1. unfold eval_cond, liftR. rewrite Hb. exact IH.
  - intros c ss label post s Hc. split.
    + induction Hpre as [| [[c0 ss0] label0] pre Hb _ IH].
      * cbn [executeStep app]. unfold bind at 1. unfold bind at 2.
        unfold eval_cond, liftR. rewrite Hc. reflexivity.
      * cbn [executeStep app] in *. cbn [fst snd] in Hb.
        unfold bind at 1. unfold eval_cond, liftR. rewrite Hb. exact IH.
    + intros r s'. cbn [executeStep]. unfold bind at 1. unfold eval_cond, liftR.
      rewrite Hc. apply branch_run_label.
Qed.

Lemma branch_first_match_witness :
  Forall (fun b => evaluate (ge_conditionEvaluator polish_executor) b.1.1 dull_item JUndef
                   = Ok false) [high_branch]
  /\ evaluate (ge_conditionEvaluator polish_executor) quality_below_3 dull_item JUndef
     = Ok true
  /\ executeStep polish_executor
       (BranchStep "s-branch" (Some [high_branch; low_branch; high_branch]) "By quality")
       dull_item no_options fresh_state
     = executeStep polish_executor
         (BranchStep "s-branch" (Some [low_branch]) "By quality")
         dull_item no_options fresh_state.
Proof.
  assert (Hpre : Forall (fun b => evaluate (ge_conditionEvaluator polish_executor) b.1.1
                                    dull_item JUndef = Ok false) [high_branch])
    by (constructor; [reflexivity | constructor]).
  assert (Hc : evaluate (ge_conditionEvaluator polish_executor) quality_below_3
                 dull_item JUndef = Ok true) by reflexivity.
  split; [exact Hpre |]. split; [exact Hc |].
  exact (proj1 (proj2 (branch_first_match polish_executor "s-branch" "By quality"
                         [high_branch] dull_item no_options Hpre)
                  quality_below_3 [polish_step] "low" [high_branch] fresh_state Hc)).
Defined.

(** X23: one call of [executeNextStep], for a state whose guide is in the
    store.  Whether the call returns or throws, it keeps the guide id and
    the variables of the state and only appends to its history.  With the
    cursor at or past the end it reports "Guide completed" and changes
    nothing.  A failed result leaves the current item and the cursor where
    they were; a successful one makes its item the current item and moves the
    cursor to [nextStepIndex] when the result names one, leaves it in place
    when the result asks to loop, and otherwise advances it by one. *)
Theorem executeNextStep_cursor (gm : GuideManager) (options : GuideExecutionOptions)
    (guide : CraftGuide) (w : World) (st : GuideExecutionState) :
  guides gm !! guideId st = Some guide ->
  let out := executeNextStep gm options (w, st) in
  let st' := out.2.2 in
  guideId st' = guideId st
  /\ variables st' = variables st
  /\ (exists added, stepHistory st' = (stepHistory st ++ added)%list)
  /\ (steps_length guide <= currentStepIndex st ->
      out = (Ok (mkResult true (currentItem st) "Guide completed" None None None),
             (w, st)))
  /\ (forall r, out.1 = Ok r ->
        (success r = false ->
         currentItem st' = currentItem st
         /\ currentStepIndex st' = currentStepIndex st)
        /\ (success r = true ->
            currentItem st' = res_item r
            /\ (currentStepIndex st < steps_length guide ->
                currentStepIndex st'
                = match nextStepIndex r with
                  | Some next => next
                  | None => if default false (shouldLoop r)
                            then currentStepIndex st
                            else currentStepIndex st + 1
                  end))).
Proof.
  intros Hguide out st'. subst st'.
  assert (Hout : out = executeNextStep gm options (w, st)) by reflexivity.
  clearbody out.
  unfold executeNextStep in Hout. unfold bind at 1 in Hout.
  unfold get_state at 1 in Hout. cbn [fst snd] in Hout. rewrite Hguide in Hout.
  destruct (steps_length guide <=? currentStepIndex st) eqn:Hend.
  - apply Z.leb_le in Hend. cbn [ret fst snd] in Hout. subst out. cbn [fst snd].
    split; [reflexivity |]. split; [reflexivity |].
    split; [exists []; rewrite app_nil_r; reflexivity |].
    split; [intros _; reflexivity |].
    intros r [= <-]. split; [discriminate |].
    intros _. split; [reflexivity | lia].
  - apply Z.leb_gt in Hend.
    destruct (step_at guide (currentStepIndex st)) as [step |].
    2:{ cbn [throw fst snd] in Hout. subst out. cbn [fst snd].
        split; [reflexivity |]. split; [reflexivity |].
        split; [exists []; rewrite app_nil_r; reflexivity |].
        split; [lia |]. intros r; discriminate. }
    unfold bind at 1 in Hout.
    pose proof (executeStep_logs_only (guideExecutor gm) options step
                  (currentItem st) (w, st)) as Hg.
    destruct (executeStep (guideExecutor gm) step (currentItem st) options (w, st))
      as [[r | e] [w1 st1]];
      destruct Hg as (Hid & Hitem & Hidx & Hvars & added & Hadded & _);
      assert (Hhist : exists added, stepHistory st1 = (stepHistory st ++ added)%list)
        by (exists added; exact Hadded);
      cbn [fst snd] in *.
    2:{ subst out. cbn [fst snd].
        split; [exact Hid |]. split; [exact Hvars |]. split; [exact Hhist |].
        split; [lia |]. intros r; discriminate. }
    destruct (success r) eqn:Hsucc.
    + cbv [bind get_state put_state ret fst snd] in Hout. subst out.
      cbn [fst snd guideId variables stepHistory currentItem currentStepIndex].
      split; [exact Hid |]. split; [exact Hvars |]. split; [exact Hhist |].
      split; [lia |]. intros r' [= <-]. rewrite Hsucc.
      split; [discriminate |]. intros _. split; [reflexivity |].
      intros _. rewrite Hidx. reflexivity.
    + cbv [bind ret fst snd] in Hout. subst out. cbn [fst snd].
      split; [exact Hid |]. split; [exact Hvars |]. split; [exact Hhist |].
      split; [lia |]. intros r' [= <-]. rewrite Hsucc.
      split; [intros _; split; assumption | discriminate].
Qed.

Lemma executeNextStep_cursor_witness :
  guides endless_manager !! guideId fresh_state.2 = Some endless_guide
  /\ guideId (executeNextStep endless_manager no_options fresh_state).2.2
     = guideId fresh_state.2.
Proof.
  assert (H : guides endless_manager !! guideId fresh_state.2 = Some endless_guide)
    by reflexivity.
  split; [exact H |].
  exact (proj1 (executeNextStep_cursor endless_manager no_options endless_guide
                  sample_world fresh_state.2 H)).
Defined.

(** ** The guide store *)

(** X24: [createGuide] stores the guide under a fresh id and stamps it with
    the current time, whatever id and timestamps the argument carries; its
    other fields are kept, the guide can be read back under the new id, and
    no other lookup changes.  [deleteGuide] answers whether the lookup finds
    anything under the id, a stored guide or a member that the store
    inherits; it removes the stored guide if there is one and leaves the
    other entries alone, so that afterwards nothing is stored under the id
    and the lookup finds nothing, or still the inherited member.  Deleting a
    guide just created under an unused id gives back the store as it was. *)
Theorem createGuide_deleteGuide (gm : GuideManager) (guide : CraftGuide) (w : World) :
  (exists g gm',
     createGuide gm guide w = (Ok (g, gm'), after_uuid w)
     /\ guide_id g = uuid_of (next_uuid w)
     /\ createdAt g = clock w /\ updatedAt g = clock w
     /\ restamp (guide_id guide) (createdAt guide) (updatedAt guide) g = guide
     /\ getGuide gm' (guide_id g) = Own g
     /\ (forall id, id <> guide_id g -> getGuide gm' id = getGuide gm id)
     /\ (guides gm !! guide_id g = None -> deleteGuide gm' (guide_id g) = (true, gm)))
  /\ (forall id,
        (deleteGuide gm id).1
        = match getGuide gm id with Missing => false | _ => true end
        /\ guides (deleteGuide gm id).2 !! id = None
        /\ getGuide (deleteGuide gm id).2 id
           = (if inherited id then Inherited else Missing)
        /\ (forall other, other <> id ->
              getGuide (deleteGuide gm id).2 other = getGuide gm other)
        /\ (guides gm !! id = None -> (deleteGuide gm id).2 = gm)).
Proof.
  split.
  - do 2 eexists. split; [reflexivity |].
    set (g := restamp _ _ _ guide).
    split; [reflexivity |]. split; [reflexivity |]. split; [reflexivity |].
    split; [destruct guide; reflexivity |].
    unfold deleteGuide, getGuide, member, store. cbn [guides guideExecutor].
    split; [rewrite lookup_insert_eq; reflexivity |].
    split; [intros id Hid; rewrite lookup_insert_ne by congruence; reflexivity |].
    intros Hnone. rewrite lookup_insert_eq. rewrite delete_insert_id by exact Hnone.
    destruct gm; reflexivity.
  - intros id. unfold deleteGuide, getGuide, member.
    destruct (guides gm !! id) as [g |] eqn:Hg; cbn [fst snd guides].
    + rewrite lookup_delete_eq.
      split; [reflexivity |]. split; [reflexivity |]. split; [reflexivity |].
      split; [| discriminate].
      intros other Hne. rewrite lookup_delete_ne by congruence. reflexivity.
    + destruct (inherited id) eqn:Hin; cbn [fst snd guides]; rewrite Hg, ?Hin;
        repeat split; reflexivity.
Qed.

(** *** Editing the steps of a stored guide *)

Lemma splice_in_spec (n : nat) (x : GuideStep) (l : list GuideStep) :
  (n <= length l)%nat ->
  splice_in n x l !! n = Some x
  /\ delete n (splice_in n x l) = l
  /\ length (splice_in n x l) = S (length l)
  /\ splice_in n x l ≡ₚ x :: l.
Proof.
  intros Hn. unfold splice_in.
  assert (Hlen : length (take n l) = n) by (apply length_take_le; exact Hn).
  split; [apply list_lookup_middle; symmetry; exact Hlen |].
  split.
  { rewrite <- Hlen at 1. rewrite delete_middle. apply take_drop. }
  split.
  { rewrite length_app. cbn [length]. rewrite Nat.add_succ_r, <- length_app, take_drop.
    reflexivity. }
  rewrite <- Permutation_middle. rewrite take_drop. reflexivity.
Qed.

Lemma findIndex_first (stepId : string) (pre : list GuideStep) (s : GuideStep)
    (post : list GuideStep) :
  no_step_with stepId pre -> step_id s = stepId ->
  findIndex stepId (pre ++ s :: post) = Some (length pre).
Proof.
  intros Hpre Hs. induction Hpre as [| x pre Hx _ IH]; cbn [findIndex app length].
  - rewrite Hs, String.eqb_refl. reflexivity.
  - apply String.eqb_neq in Hx. rewrite Hx, IH. reflexivity.
Qed.

Lemma findIndex_none (stepId : string) (l : list GuideStep) :
  no_step_with stepId l -> findIndex stepId l = None.
Proof.
  intros Hl. induction Hl as [| x l Hx _ IH]; cbn [findIndex]; [reflexivity |].
  apply String.eqb_neq in Hx. rewrite Hx, IH. reflexivity.
Qed.

(** X25: [addStep] on a stored guide returns true, touches only the steps
    and the update time of that guide, and makes the list one longer: with a
    position between 0 and the number of steps the new step sits at that
    position and the old steps keep their order around it; without a
    position, or with one out of this range, it is appended at the end. *)
Theorem addStep_inserts (gm : GuideManager) (guideId : string) (guide : CraftGuide)
    (step : GuideStep) (position : option Z) (w : World) :
  guides gm !! guideId = Some guide ->
  exists steps',
    addStep gm guideId step position w
    = (Ok (true, put_guide guideId (with_steps steps' (clock w) guide) gm), w)
    /\ length steps' = S (length (guide_steps guide))
    /\ (forall p, position = Some p -> 0 <= p <= steps_length guide ->
          steps' !! Z.to_nat p = Some step
          /\ delete (Z.to_nat p) steps' = guide_steps guide)
    /\ ((position = None
         \/ exists p, position = Some p /\ (p < 0 \/ steps_length guide < p)) ->
        steps' = (guide_steps guide ++ [step])%list).
Proof.
  intros Hguide. unfold addStep. rewrite Hguide. eexists.
  split; [reflexivity |].
  unfold steps_length.
  destruct position as [p |].
  - destruct ((0 <=? p) && (p <=? Z.of_nat (length (guide_steps guide)))) eqn:Hin.
    + apply andb_prop in Hin as (H0 & Hn). apply Z.leb_le in H0. apply Z.leb_le in Hn.
      destruct (splice_in_spec (Z.to_nat p) step (guide_steps guide) ltac:(lia))
        as (Hat & Hdel & Hlen & _).
      split; [exact Hlen |]. split.
      * intros p' [= <-] _. split; assumption.
      * intros [Hnone | (p' & [= <-] & Hout)]; [discriminate | lia].
    + split; [rewrite length_app; cbn; lia |]. split.
      * intros p' [= <-] Hrange.
        apply andb_false_iff in Hin as [H | H]; apply Z.leb_gt in H; lia.
      * intros _. reflexivity.
  - split; [rewrite length_app; cbn; lia |]. split.
    + intros p' Hp. discriminate.
    + intros _. reflexivity.
Qed.

Lemma addStep_inserts_witness :
  guides endless_manager !! "g-1" = Some endless_guide
  /\ exists steps',
       addStep endless_manager "g-1" rinse_step (Some 0) sample_world
       = (Ok (true, put_guide "g-1" (with_steps steps' 0 endless_guide) endless_manager),
          sample_world)
       /\ steps' !! 0%nat = Some rinse_step.
Proof.
  assert (H : guides endless_manager !! "g-1" = Some endless_guide) by reflexivity.
  split; [exact H |].
  destruct (addStep_inserts endless_manager "g-1" endless_guide rinse_step (Some 0)
              sample_world H) as (steps' & Hrun & _ & Hat & _).
  exists steps'. split; [exact Hrun |].
  exact (proj1 (Hat 0 eq_refl ltac:(split; vm_compute; discriminate))).
Defined.

(** X26: [removeStep] on a stored guide removes the first step that has the
    given id and nothing else: the steps before it and after it stay, in
    order, also later steps with the same id.  When no step has the id it
    returns false and leaves the store as it is. *)
Theorem removeStep_first (gm : GuideManager) (guideId stepId : string)
    (guide : CraftGuide) (w : World) :
  guides gm !! guideId = Some guide ->
  (no_step_with stepId (guide_steps guide) ->
   removeStep gm guideId stepId w = (Ok (false, gm), w))
  /\ (forall pre s post,
        guide_steps guide = (pre ++ s :: post)%list ->
        no_step_with stepId pre -> step_id s = stepId ->
        removeStep gm guideId stepId w
        = (Ok (true, put_guide guideId (with_steps (pre ++ post) (clock w) guide) gm),
           w)).
Proof.
  intros Hguide. unfold removeStep. rewrite Hguide. split.
  - intros Hnone. rewrite (findIndex_none _ _ Hnone). reflexivity.
  - intros pre s post Hsteps Hpre Hs.
    rewrite Hsteps, (findIndex_first _ _ _ post Hpre Hs), delete_middle. reflexivity.
Qed.

Lemma removeStep_first_witness :
  guides endless_manager !! "g-1" = Some endless_guide
  /\ guide_steps endless_guide = ([] ++ endless_loop :: [])%list
  /\ no_step_with "s-endless" []
  /\ removeStep endless_manager "g-1" "s-endless" sample_world
     = (Ok (true, put_guide "g-1" (with_steps [] 0 endless_guide) endless_manager),
        sample_world).
Proof.
  assert (H : guides endless_manager !! "g-1" = Some endless_guide) by reflexivity.
  assert (Hpre : no_step_with "s-endless" []) by constructor.
  split; [exact H |]. split; [reflexivity |]. split; [exact Hpre |].
  exact (proj2 (removeStep_first endless_manager "g-1" "s-endless" endless_guide
                  sample_world H) [] endless_loop [] eq_refl Hpre eq_refl).
Defined.

Lemma put_guide_twice (guideId : string) (a b : CraftGuide) (gm : GuideManager) :
  put_guide guideId a (put_guide guideId b gm) = put_guide guideId a gm.
Proof. unfold put_guide. cbn [guides guideExecutor]. rewrite insert_insert_eq. reflexivity. Qed.

Lemma with_steps_twice (l1 l2 : list GuideStep) (t1 t2 : Z) (g : CraftGuide) :
  with_steps l1 t1 (with_steps l2 t2 g) = with_steps l1 t1 g.
Proof. reflexivity. Qed.

(** X27: adding a step whose id no step of the guide has, at whatever
    position, and then removing the step with that id gives back the steps
    the guide had: [removeStep] undoes [addStep]. *)
Theorem addStep_then_removeStep (gm : GuideManager) (guideId : string)
    (guide : CraftGuide) (step : GuideStep) (position : option Z) (w : World) :
  guides gm !! guideId = Some guide ->
  no_step_with (step_id step) (guide_steps guide) ->
  exists gm1,
    addStep gm guideId step position w = (Ok (true, gm1), w)
    /\ removeStep gm1 guideId (step_id step) w
       = (Ok (true, put_guide guideId
                      (with_steps (guide_steps guide) (clock w) guide) gm), w).
Proof.
  intros Hguide Hfresh. eexists. split.
  { unfold addStep. rewrite Hguide. reflexivity. }
  set (steps' := match position with Some _ => _ | None => _ end).
  assert (Hsplit : exists pre post,
             steps' = (pre ++ step :: post)%list
             /\ (pre ++ post)%list = guide_steps guide).
  { subst steps'. unfold splice_in.
    destruct position as [p |];
      [destruct ((0 <=? p) && (p <=? steps_length guide)) |].
    - exists (take (Z.to_nat p) (guide_steps guide)),
             (drop (Z.to_nat p) (guide_steps guide)).
      split; [reflexivity | apply take_drop].
    - exists (guide_steps guide), []. split; [reflexivity | apply app_nil_r].
    - exists (guide_steps guide), []. split; [reflexivity | apply app_nil_r]. }
  destruct Hsplit as (pre & post & Hsteps & Hrest).
  assert (Hpre : no_step_with (step_id step) pre).
  { unfold no_step_with in *. rewrite <- Hrest in Hfresh.
    apply Forall_app in Hfresh. tauto. }
  assert (Hat : guides (put_guide guideId (with_steps steps' (clock w) guide) gm)
                !! guideId = Some (with_steps steps' (clock w) guide))
    by (unfold put_guide; cbn [guides]; apply lookup_insert_eq).
  unfold removeStep. rewrite Hat.
  change (guide_steps (with_steps steps' (clock w) guide)) with steps'.
  rewrite Hsteps, (findIndex_first _ _ _ post Hpre eq_refl), delete_middle.
  unfold bind, new_Date, ret.
  rewrite put_guide_twice, with_steps_twice, Hrest. reflexivity.
Qed.

Lemma addStep_then_removeStep_witness :
  guides endless_manager !! "g-1" = Some endless_guide
  /\ no_step_with (step_id rinse_step) (guide_steps endless_guide)
  /\ exists gm1,
       addStep endless_manager "g-1" rinse_step (Some 1) sample_world
       = (Ok (true, gm1), sample_world)
       /\ removeStep gm1 "g-1" "s-rinse" sample_world
          = (Ok (true, put_guide "g-1" (with_steps [endless_loop] 0 endless_guide)
                         endless_manager), sample_world).
Proof.
  assert (H : guides endless_manager !! "g-1" = Some endless_guide) by reflexivity.
  assert (Hfresh : no_step_with (step_id rinse_step) (guide_steps endless_guide))
    by (constructor; [discriminate | constructor]).
  split; [exact H |]. split; [exact Hfresh |].
  exact (addStep_then_removeStep endless_manager "g-1" endless_guide rinse_step
           (Some 1) sample_world H Hfresh).
Defined.

(** X28: [moveStep] takes the first step with the given id out of the list
    and puts it back at the new position, clamped to the positions of the
    list without it: the moved step sits there, the other steps keep their
    order, and the steps of the guide are the same as before up to order. *)
Theorem moveStep_reorders (gm : GuideManager) (guideId stepId : string)
    (guide : CraftGuide) (newPosition : Z) (w : World)
    (pre : list GuideStep) (s : GuideStep) (post : list GuideStep) :
  guides gm !! guideId = Some guide ->
  guide_steps guide = (pre ++ s :: post)%list ->
  no_step_with stepId pre -> step_id s = stepId ->
  let target :=
    Z.to_nat (Z.max 0 (Z.min newPosition (Z.of_nat (length (pre ++ post))))) in
  exists steps',
    moveStep gm guideId stepId newPosition w
    = (Ok (true, put_guide guideId (with_steps steps' (clock w) guide) gm), w)
    /\ steps' !! target = Some s
    /\ delete target steps' = (pre ++ post)%list
    /\ steps' ≡ₚ guide_steps guide
    /\ length steps' = length (guide_steps guide).
Proof.
  intros Hguide Hsteps Hpre Hs target.
  unfold moveStep. rewrite Hguide, Hsteps.
  rewrite (findIndex_first _ _ _ post Hpre Hs).
  rewrite (list_lookup_middle pre post s (length pre) eq_refl).
  rewrite delete_middle. fold target.
  eexists. split; [reflexivity |].
  destruct (splice_in_spec target s (pre ++ post)) as (Hin & Hdel & Hlen & Hperm);
    [subst target; lia |].
  split; [exact Hin |]. split; [exact Hdel |]. split.
  - rewrite Hperm. apply Permutation_middle.
  - rewrite Hlen, !length_app. cbn [length]. lia.
Qed.

Lemma moveStep_reorders_witness :
  guides endless_manager !! "g-1" = Some endless_guide
  /\ guide_steps endless_guide = ([] ++ endless_loop :: [])%list
  /\ no_step_with "s-endless" []
  /\ exists steps',
       moveStep endless_manager "g-1" "s-endless" 7 sample_world
       = (Ok (true, put_guide "g-1" (with_steps steps' 0 endless_guide) endless_manager),
          sample_world)
       /\ steps' !! 0%nat = Some endless_loop.
Proof.
  assert (H : guides endless_manager !! "g-1" = Some endless_guide) by reflexivity.
  assert (Hpre : no_step_with "s-endless" []) by constructor.
  split; [exact H |]. split; [reflexivity |]. split; [exact Hpre |].
  destruct (moveStep_reorders endless_manager "g-1" "s-endless" endless_guide 7
              sample_world [] endless_loop [] H eq_refl Hpre eq_refl)
    as (steps' & Hrun & Hat & _).
  exists steps'. split; [exact Hrun | exact Hat].
Defined.

(** X29: [updateGuide] cannot change the id of a guide or choose its update
    time: whatever the patch carries in these two fields, the guide returned
    has the id it is stored under and the current time as its update time.
    The patched guide replaces the stored one, no other lookup changes, and
    a patch without fields changes nothing but the update time.  For an id
    under which the lookup finds nothing, neither a stored guide nor an
    inherited member, the answer is none and nothing changes. *)
Theorem updateGuide_keeps_id (gm : GuideManager) (id : string) (updates : GuidePatch)
    (w : World) :
  (getGuide gm id = Missing -> updateGuide gm id updates w = (Ok (None, gm), w))
  /\ (forall guide, getGuide gm id = Own guide ->
        exists g gm',
          updateGuide gm id updates w = (Ok (Some g, gm'), w)
          /\ guide_id g = id
          /\ updatedAt g = clock w
          /\ getGuide gm' id = Own g
          /\ (forall other, other <> id -> getGuide gm' other = getGuide gm other)
          /\ (updates = empty_patch -> guide_id guide = id ->
              g = with_steps (guide_steps guide) (clock w) guide)).
Proof.
  unfold getGuide, member, updateGuide. split.
  - destruct (guides gm !! id); [discriminate | reflexivity].
  - intros guide Hown.
    destruct (guides gm !! id) as [g0 |];
      [injection Hown as -> | destruct (inherited id); discriminate].
    do 2 eexists. split; [reflexivity |].
    cbn [guides guide_id updatedAt].
    split; [reflexivity |]. split; [reflexivity |].
    split; [rewrite lookup_insert_eq; reflexivity |].
    split; [intros other Hne; rewrite lookup_insert_ne by congruence; reflexivity |].
    intros -> <-. destruct guide; reflexivity.
Qed.

Lemma updateGuide_keeps_id_witness :
  getGuide endless_manager "g-1" = Own endless_guide
  /\ getGuide endless_manager "g-2" = Missing
  /\ updateGuide endless_manager "g-2" empty_patch sample_world
     = (Ok (None, endless_manager), sample_world)
  /\ exists g gm',
       updateGuide endless_manager "g-1"
         (mkPatch (Some "g-9") (Some "Renamed") None None None None (Some 99)
                  None None None None None None None)
         sample_world
       = (Ok (Some g, gm'), sample_world)
       /\ guide_id g = "g-1" /\ updatedAt g = clock sample_world.
Proof.
  split; [reflexivity |]. split; [reflexivity |].
  split.
  { exact (proj1 (updateGuide_keeps_id endless_manager "g-2" empty_patch sample_world)
             eq_refl). }
  destruct (proj2 (updateGuide_keeps_id endless_manager "g-1"
                     (mkPatch (Some "g-9") (Some "Renamed") None None None None (Some 99)
                              None None None None None None None)
                     sample_world) endless_guide eq_refl)
    as (g & gm' & Hrun & Hid & Hupd & _).
  exists g, gm'. split; [exact Hrun |]. split; [exact Hid | exact Hupd].
Defined.

(** *** The keys of the store *)

Lemma keyed_insert (gm : GuideManager) (k : string) (g : CraftGuide)
    (ex : GuideExecutor) :
  keyed gm -> guide_id g = k -> keyed (mkGuideManager (<[k := g]> (guides gm)) ex).
Proof.
  intros Hk Hg k' g'. cbn [guides]. rewrite lookup_insert.
  case_decide; [intros [= <-]; congruence | apply Hk].
Qed.

(** X30: every guide is stored under its own id, and every operation of the
    manager keeps it so: starting from a store with this property, which the
    empty store of a new manager has, [createGuide], [importGuide],
    [updateGuide], [deleteGuide], [addStep], [removeStep] and [moveStep]
    lead to a store with this property. *)
Theorem store_keyed_by_id (gm : GuideManager) (w : World) :
  keyed gm ->
  (forall guide g gm' w', createGuide gm guide w = (Ok (g, gm'), w') -> keyed gm')
  /\ (forall doc g gm' w', importGuide gm doc w = (Ok (g, gm'), w') -> keyed gm')
  /\ (forall id updates o gm' w',
        updateGuide gm id updates w = (Ok (o, gm'), w') -> keyed gm')
  /\ (forall id, keyed (deleteGuide gm id).2)
  /\ (forall guideId step position b gm' w',
        addStep gm guideId step position w = (Ok (b, gm'), w') -> keyed gm')
  /\ (forall guideId stepId b gm' w',
        removeStep gm guideId stepId w = (Ok (b, gm'), w') -> keyed gm')
  /\ (forall guideId stepId newPosition b gm' w',
        moveStep gm guideId stepId newPosition w = (Ok (b, gm'), w') -> keyed gm').
Proof.
  intros Hk.
  split.
  { intros guide g gm' w' [= <- <- _]. apply keyed_insert; [exact Hk | reflexivity]. }
  split.
  { intros doc g gm' w'. unfold importGuide.
    destruct (negb (isValid (validateGuide (JSON_parse doc)))); [discriminate |].
    intros [= <- <- _]. apply keyed_insert; [exact Hk | reflexivity]. }
  split.
  { intros id updates o gm' w'. unfold updateGuide.
    destruct (guides gm !! id); [| intros [= _ <- _]; exact Hk].
    intros [= _ <- _]. apply keyed_insert; [exact Hk | reflexivity]. }
  split.
  { intros id. unfold deleteGuide, getGuide, member.
    destruct (guides gm !! id); [| destruct (inherited id); exact Hk].
    intros k g. cbn [snd guides]. rewrite lookup_delete.
    case_decide; [discriminate | apply Hk]. }
  split.
  { intros guideId step position b gm' w'. unfold addStep.
    destruct (guides gm !! guideId) as [guide |] eqn:Hg; [| intros [= _ <- _]; exact Hk].
    intros [= _ <- _]. apply keyed_insert; [exact Hk | exact (Hk _ _ Hg)]. }
  split.
  { intros guideId stepId b gm' w'. unfold removeStep.
    destruct (guides gm !! guideId) as [guide |] eqn:Hg; [| intros [= _ <- _]; exact Hk].
    destruct (findIndex stepId (guide_steps guide)); [| intros [= _ <- _]; exact Hk].
    intros [= _ <- _]. apply keyed_insert; [exact Hk | exact (Hk _ _ Hg)]. }
  intros guideId stepId newPosition b gm' w'. unfold moveStep.
  destruct (guides gm !! guideId) as [guide |] eqn:Hg; [| intros [= _ <- _]; exact Hk].
  destruct (findIndex stepId (guide_steps guide)) as [i |];
    [| intros [= _ <- _]; exact Hk].
  destruct (guide_steps guide !! i); [| intros [= _ <- _]; exact Hk].
  intros [= _ <- _]. apply keyed_insert; [exact Hk | exact (Hk _ _ Hg)].
Qed.

Lemma store_keyed_by_id_witness :
  keyed (newGuideManager empty_registry)
  /\ keyed (deleteGuide (newGuideManager empty_registry) "g-1").2.
Proof.
  assert (H : keyed (newGuideManager empty_registry))
    by (intros k g Hg; cbn in Hg; rewrite lookup_empty in Hg; discriminate).
  split; [exact H |].
  exact (proj1 (proj2 (proj2 (proj2
           (store_keyed_by_id (newGuideManager empty_registry) sample_world H))))
           "g-1").
Defined.
